(** * The mediator state machine and the datagram transport of a
      payment-channel node

    A shallow embedding of [raiden/transfer/mediated_transfer/mediator.py]
    and of [raiden/network/protocol.py], and the properties the
    specification states about them.

    Python objects that the code mutates in place are modelled by explicit
    state passing: the list of mediation pairs is the store of the pairs,
    a reference to a pair is its index in that list, and the channel map
    and the pseudo-random generator are threaded through every handler.
    Exceptions are values of [result]. *)

From Stdlib Require Import ZArith Ascii String List Bool Lia.
From stdpp Require Import base option list gmap strings pretty.

Local Open Scope Z_scope.

(** ** Exceptions *)

Inductive exn : Type :=
  | AssertionError
  | AttributeError
  | KeyError
  | IndexError
  | ValueError
  | InvalidAddress
  | InvalidLocksRoot
  | InvalidNonce
  | TransferWhenClosed
  | TransferUnwanted
  | UnknownAddress
  | UnknownTokenAddress
  | OtherException (name : string).

#[global] Instance exn_eq_dec : EqDecision exn.
Proof. solve_decision. Defined.

Inductive result (A : Type) : Type :=
  | Ok (a : A)
  | Raise (e : exn).

Arguments Ok {A} a.
Arguments Raise {A} e.

#[global] Instance result_ret : MRet result := fun _ a => Ok a.
#[global] Instance result_bind : MBind result := fun _ _ f m =>
  match m with
  | Ok a => f a
  | Raise e => Raise e
  end.

#[global] Instance result_fmap : FMap result := fun _ _ f m =>
  match m with
  | Ok a => Ok (f a)
  | Raise e => Raise e
  end.

(** [assert cond] of Python. *)
Definition assert (cond : bool) : result unit :=
  if cond then Ok tt else Raise AssertionError.

Definition is_ok {A} (r : result A) : bool :=
  match r with Ok _ => true | Raise _ => false end.

Module Mediator.

(** ** Data model *)

(** Addresses, channel identifiers, secrets and hashes are byte strings. *)
Abbreviation Address := string (only parsing).
Abbreviation ChannelID := string (only parsing).
Abbreviation Secret := string (only parsing).
Abbreviation SecretHash := string (only parsing).
Abbreviation TokenAddress := string (only parsing).
Abbreviation BlockNumber := Z (only parsing).

(** The eleven state names a side of a pair can hold.  The code stores them
    as strings; [payer_state] and [payee_state] range over all of them and
    [sanity_check] asserts that each is among the valid ones of its side. *)
Inductive TransferState : Type :=
  | payee_pending
  | payee_secret_revealed
  | payee_contract_unlock
  | payee_balance_proof
  | payee_expired
  | payer_pending
  | payer_secret_revealed
  | payer_waiting_close
  | payer_waiting_unlock
  | payer_balance_proof
  | payer_expired.

#[global] Instance TransferState_eq_dec : EqDecision TransferState.
Proof. solve_decision. Defined.

Definition STATE_SECRET_KNOWN : list TransferState :=
  [ payee_secret_revealed; payee_contract_unlock; payee_balance_proof;
    payer_secret_revealed; payer_waiting_close; payer_waiting_unlock;
    payer_balance_proof ].

Definition STATE_TRANSFER_PAID : list TransferState :=
  [ payee_contract_unlock; payee_balance_proof; payer_balance_proof ].

Definition STATE_TRANSFER_FINAL : list TransferState :=
  [ payee_contract_unlock; payee_balance_proof; payee_expired;
    payer_balance_proof; payer_expired ].

(** [x in tuple] of Python. *)
Definition state_in (s : TransferState) (l : list TransferState) : bool :=
  bool_decide (s ∈ l).

(** ** Pure helpers on block numbers *)

Definition is_lock_valid (expiration block_number : Z) : bool :=
  block_number <=? expiration.

Definition unsafe_msg (lock_expiration reveal_timeout block_number : Z) : string :=
  let lock_timeout := lock_expiration - block_number in
  "lock timeout is unsafe."
  +:+ " timeout must be larger than " +:+ pretty reveal_timeout
  +:+ ", but it is " +:+ pretty lock_timeout +:+ "."
  +:+ " expiration: " +:+ pretty lock_expiration
  +:+ " block_number: " +:+ pretty block_number.

Definition is_safe_to_wait (lock_expiration reveal_timeout block_number : Z)
  : result (bool * option string) :=
  _ ← assert (0 <? block_number);
  _ ← assert (0 <? reveal_timeout);
  _ ← assert (reveal_timeout <? lock_expiration);
  let lock_timeout := lock_expiration - block_number in
  if reveal_timeout <? lock_timeout
  then Ok (true, None)
  else Ok (false, Some (unsafe_msg lock_expiration reveal_timeout block_number)).


(** ** Locks, balance proofs and transfers *)

Record HashTimeLockState : Type := {
  amount : Z;
  expiration : Z;
  lock_secrethash : string;
}.

#[global] Instance HashTimeLockState_eq_dec : EqDecision HashTimeLockState.
Proof. solve_decision. Defined.

(** A balance proof.  The unsigned variant (produced locally) has no
    sender: [BalanceProofUnsignedState] is [BalanceProof unit] and
    [BalanceProofSignedState] is [BalanceProof string]. *)
Record BalanceProof (S : Type) : Type := {
  nonce : Z;
  transferred_amount : Z;
  locked_amount : Z;
  locksroot : string;
  channel_identifier : Z;
  sender : S;
}.
Arguments nonce {S} _.
Arguments transferred_amount {S} _.
Arguments locked_amount {S} _.
Arguments locksroot {S} _.
Arguments channel_identifier {S} _.
Arguments sender {S} _.

Record LockedTransferState (S : Type) : Type := {
  payment_identifier : Z;
  token : string;
  balance_proof : BalanceProof S;
  lock : HashTimeLockState;
  initiator : string;
  target : string;
}.
Arguments payment_identifier {S} _.
Arguments token {S} _.
Arguments balance_proof {S} _.
Arguments lock {S} _.
Arguments initiator {S} _.
Arguments target {S} _.

Abbreviation LockedTransferUnsignedState := (LockedTransferState unit).
Abbreviation LockedTransferSignedState := (LockedTransferState string).

(** ** Mediation pairs and the mediator state *)

Record MediationPairState : Type := {
  payer_transfer : LockedTransferSignedState;
  payee_address : string;
  payee_transfer : LockedTransferUnsignedState;
  payer_state : TransferState;
  payee_state : TransferState;
}.

(** The constructor of the class: both sides start pending. *)
Definition new_MediationPairState (payer : LockedTransferSignedState)
    (payee_addr : string) (payee : LockedTransferUnsignedState) : MediationPairState :=
  {| payer_transfer := payer; payee_address := payee_addr; payee_transfer := payee;
     payer_state := payer_pending; payee_state := payee_pending |}.

(** The property [payer_address] of the class. *)
Definition payer_address (pair_ : MediationPairState) : string :=
  sender (balance_proof (payer_transfer pair_)).

Definition valid_payee_states : list TransferState :=
  [ payee_pending; payee_secret_revealed; payee_contract_unlock;
    payee_balance_proof; payee_expired ].

Definition valid_payer_states : list TransferState :=
  [ payer_pending; payer_secret_revealed; payer_waiting_close;
    payer_waiting_unlock; payer_balance_proof; payer_expired ].

Definition set_payer_state (st : TransferState) (pair_ : MediationPairState) :=
  {| payer_transfer := payer_transfer pair_; payee_address := payee_address pair_;
     payee_transfer := payee_transfer pair_;
     payer_state := st; payee_state := payee_state pair_ |}.

Definition set_payee_state (st : TransferState) (pair_ : MediationPairState) :=
  {| payer_transfer := payer_transfer pair_; payee_address := payee_address pair_;
     payee_transfer := payee_transfer pair_;
     payer_state := payer_state pair_; payee_state := st |}.

Record MediatorTransferState : Type := {
  secrethash : string;
  secret : option string;
  transfers_pair : list MediationPairState;
}.

Definition new_MediatorTransferState (h : string) : MediatorTransferState :=
  {| secrethash := h; secret := None; transfers_pair := [] |}.

Definition with_secret (s : string) (state : MediatorTransferState) :=
  {| secrethash := secrethash state; secret := Some s;
     transfers_pair := transfers_pair state |}.

Definition with_pairs (pairs : list MediationPairState) (state : MediatorTransferState) :=
  {| secrethash := secrethash state; secret := secret state;
     transfers_pair := pairs |}.

(** ** Channels *)

Inductive ChannelStatus : Type :=
  | CHANNEL_STATE_OPENED
  | CHANNEL_STATE_CLOSING
  | CHANNEL_STATE_CLOSED
  | CHANNEL_STATE_SETTLING
  | CHANNEL_STATE_SETTLED
  | CHANNEL_STATE_UNUSABLE.

#[global] Instance ChannelStatus_eq_dec : EqDecision ChannelStatus.
Proof. solve_decision. Defined.

(** One end of a channel.  The mediator itself reads [address] and
    [secrethashes_to_lockedlocks]; the other two fields are what the
    channel functions of the example instance below work on. *)
Record NettingChannelEndState : Type := {
  address : string;
  contract_balance : Z;
  secrethashes_to_lockedlocks : gmap string HashTimeLockState;
  secrethashes_to_unlockedlocks : gmap string string;
}.

Record NettingChannelState : Type := {
  identifier : Z;
  token_address : string;
  token_network_identifier : string;
  reveal_timeout : Z;
  settle_timeout : Z;
  our_state : NettingChannelEndState;
  partner_state : NettingChannelEndState;
  channel_status : ChannelStatus;
}.

Definition with_our_state (e : NettingChannelEndState) (c : NettingChannelState) :=
  {| identifier := identifier c; token_address := token_address c;
     token_network_identifier := token_network_identifier c;
     reveal_timeout := reveal_timeout c; settle_timeout := settle_timeout c;
     our_state := e; partner_state := partner_state c;
     channel_status := channel_status c |}.

Record RouteState : Type := {
  node_address : string;
  route_channel_identifier : Z;
}.

(** ** State changes *)

Record ActionInitMediator : Type := {
  routes : list RouteState;
  from_route : RouteState;
  from_transfer : LockedTransferSignedState;
}.

(** [ReceiveTransferRefund] and [ReceiveSecretReveal] as [state_change.py]
    defines them: the first has no [transfer] and no [routes], the second
    no [secrethash]. *)
Record ReceiveTransferRefund : Type := {
  refund_identifier : Z;
  refund_hashlock : string;
  refund_amount : Z;
  refund_sender : string;
}.

Record ReceiveSecretReveal : Type := {
  reveal_identifier : Z;
  reveal_secret : string;
  reveal_target : string;
  reveal_sender : string;
}.

(** [Block], [ContractReceiveSecretReveal] and [ReceiveUnlock] come from
    [raiden.transfer.state_change], and [ReceiveLockExpired] is imported
    from [state_change.py], which does not define it: each is the
    attributes the mediator reads of it. *)
Record ContractReceiveSecretReveal : Type := {
  onchain_secret : string;
  onchain_secrethash : string;
  onchain_sender : string;
}.

Record ReceiveUnlock : Type := {
  unlock_message_identifier : Z;
  unlock_secret : string;
  unlock_balance_proof : BalanceProof string;
}.

Record ReceiveLockExpired : Type := {
  expired_from_route : RouteState;
  expired_secrethash : string;
}.

(** The state changes [state_transition] dispatches on; [OtherStateChange]
    stands for every class none of its [isinstance] tests accepts. *)
Inductive StateChange : Type :=
  | SCActionInitMediator (sc : ActionInitMediator)
  | SCBlock (block_number : Z)
  | SCReceiveTransferRefund (sc : ReceiveTransferRefund)
  | SCReceiveSecretReveal (sc : ReceiveSecretReveal)
  | SCContractReceiveSecretReveal (sc : ContractReceiveSecretReveal)
  | SCReceiveUnlock (sc : ReceiveUnlock)
  | SCReceiveLockExpired (sc : ReceiveLockExpired)
  | OtherStateChange.

(** ** Events *)

Record UnlockProof : Type := {
  proof_lock : option HashTimeLockState;
  proof_secret : string;
}.

Record SendLockedTransfer : Type := {
  slt_recipient : string;
  slt_message_identifier : Z;
  transfer : LockedTransferUnsignedState;
}.

Inductive Event : Type :=
  | SendMediatedTransfer (e : SendLockedTransfer)
  | SendRefundTransfer (recipient : string) (message_identifier : Z)
      (refund : LockedTransferUnsignedState)
  | SendRevealSecret (recipient : string) (queue : Z) (message_identifier : Z)
      (s : string)
  | SendUnlock (recipient : string) (message_identifier : Z)
      (payment : Z) (s : string) (h : string)
  | SendProcessed (recipient : string) (queue : Z) (message_identifier : Z)
  | SendLockExpired (recipient : string) (message_identifier : Z) (h : string)
  | ContractSendChannelBatchUnlock (token_network : string) (channel : Z)
      (proofs : list UnlockProof)
  | ContractSendSecretReveal (expiration : Z) (s : option string)
  | EventUnlockSuccess (payment : Z) (h : string)
  | EventUnlockFailed (payment : Z) (h : string) (reason : string)
  | EventUnlockClaimSuccess (payment : Z) (h : string)
  | EventUnlockClaimFailed (payment : Z) (h : string) (reason : string)
  | ChannelEvent (description : string).

Record TransitionResult : Type := {
  new_state : option MediatorTransferState;
  events : list Event;
}.

(** ** The modules the mediator imports

    [raiden.transfer.channel], [raiden.transfer.state],
    [raiden.transfer.secret_registry], [raiden.constants] and
    [raiden.settings] are not among the sources.  Their functions and
    constants are the fields of this class; every definition and theorem
    of the mediator is stated for an arbitrary instance.  A function that
    mutates the channel it is given returns the new channel. *)
Class Imports : Type := {
  Rng : Type;
  message_identifier_from_prng : Rng -> Z * Rng;
  MAXIMUM_PENDING_TRANSFERS : Z;
  DEFAULT_NUMBER_OF_CONFIRMATIONS_BLOCK : Z;
  CHANNEL_IDENTIFIER_GLOBAL_QUEUE : Z;
  get_number_of_pending_transfers : NettingChannelEndState -> Z;
  get_distributable : NettingChannelEndState -> NettingChannelEndState -> Z;
  get_status : NettingChannelState -> ChannelStatus;
  is_valid_amount : NettingChannelEndState -> Z -> bool;
  is_secret_known : NettingChannelEndState -> string -> bool;
  get_secret : NettingChannelEndState -> string -> option string;
  get_lock : NettingChannelEndState -> string -> option HashTimeLockState;
  compute_proof_for_lock :
    NettingChannelEndState -> string -> option HashTimeLockState -> UnlockProof;
  register_secret : NettingChannelState -> string -> string -> NettingChannelState;
  register_onchain_secret :
    NettingChannelState -> string -> string -> NettingChannelState;
  delete_secrethash_endstate :
    NettingChannelEndState -> string -> NettingChannelEndState;
  send_lockedtransfer :
    NettingChannelState -> string -> string -> Z -> Z -> Z -> Z -> string ->
    SendLockedTransfer * NettingChannelState;
  send_refundtransfer :
    NettingChannelState -> string -> string -> Z -> Z -> Z -> Z -> string ->
    Event * NettingChannelState;
  send_unlock :
    NettingChannelState -> Z -> Z -> string -> string -> Event * NettingChannelState;
  events_for_expired_lock :
    NettingChannelState -> HashTimeLockState -> Rng ->
    Event * NettingChannelState * Rng;
  handle_receive_lockedtransfer :
    NettingChannelState -> LockedTransferSignedState ->
    bool * list Event * NettingChannelState;
  channel_handle_refundtransfer :
    LockedTransferUnsignedState -> NettingChannelState -> ReceiveTransferRefund ->
    bool * list Event * NettingChannelState;
  channel_handle_unlock :
    NettingChannelState -> ReceiveUnlock -> bool * list Event * NettingChannelState;
  handle_receive_lock_expired :
    option NettingChannelState -> ReceiveLockExpired ->
    result (list Event * option NettingChannelState);
}.


(** Modelled from the spec: [secret_registry.events_for_onchain_secretreveal],
    which is not among the sources.  Section 4.2 says that for the selected
    pair the node emits [ContractSendSecretReveal], one on-chain reveal. *)
Definition secret_registry_events_for_onchain_secretreveal
    (channel_state : NettingChannelState) (s : option string) (expiration : Z)
  : list Event :=
  [ContractSendSecretReveal expiration s].

(** ** Python containers *)

(** [d[k]]: raises [KeyError] when the key is missing. *)
Definition getitem {V} (d : gmap Z V) (k : Z) : result V :=
  match d !! k with
  | Some v => Ok v
  | None => Raise KeyError
  end.

(** An insertion-ordered [dict], as the comprehension of
    [filter_used_routes] builds it: setting a key that is present replaces
    its value and keeps its position. *)
Fixpoint dict_set {V} (k : Z) (v : V) (d : list (Z * V)) : list (Z * V) :=
  match d with
  | [] => [(k, v)]
  | (k', v') :: d' =>
      if decide (k = k') then (k, v) :: d' else (k', v') :: dict_set k v d'
  end.

(** [if k in d: del d[k]]. *)
Definition dict_del {V} (k : Z) (d : list (Z * V)) : list (Z * V) :=
  List.filter (fun kv => negb (bool_decide (kv.1 = k))) d.

Definition dict_values {V} (d : list (Z * V)) : list V := map snd d.

(** Runs [f] on every element, stopping at the first exception. *)
Fixpoint for_each {A} (f : A -> result unit) (l : list A) : result unit :=
  match l with
  | [] => Ok tt
  | x :: l' => _ ← f x; for_each f l'
  end.

(** A loop over references to pairs whose body may replace the pair it
    visits and raise: [pairs] is the store, [s] what else the loop
    carries. *)
Fixpoint for_each_pair {S} (body : MediationPairState -> S -> result (MediationPairState * S))
    (refs : list nat) (pairs : list MediationPairState) (s : S)
  : result (list MediationPairState * S) :=
  match refs with
  | [] => Ok (pairs, s)
  | i :: refs' =>
      match pairs !! i with
      | None => Raise IndexError
      | Some pair_ =>
          '(pair_', s') ← body pair_ s;
          for_each_pair body refs' (<[i:=pair_']> pairs) s'
      end
  end.

(** [reversed(transfers_pair)], as references. *)
Definition reversed_refs (transfers_pair : list MediationPairState) : list nat :=
  rev (seq 0 (length transfers_pair)).

Section mediator.
Context `{Imports}.

(** What the handlers mutate besides the mediator state: the channels of
    the channel map and the pseudo-random generator. *)
Record World : Type := {
  channels : gmap Z NettingChannelState;
  prng : Rng;
}.

Definition set_channel (k : Z) (c : NettingChannelState) (w : World) : World :=
  {| channels := <[k:=c]> (channels w); prng := prng w |}.

Definition next_message_identifier (w : World) : Z * World :=
  let '(m, g) := message_identifier_from_prng (prng w) in
  (m, {| channels := channels w; prng := g |}).

Definition is_channel_usable (candidate_channel_state : NettingChannelState)
    (transfer_amount lock_timeout : Z) : bool :=
  let pending_transfers :=
    get_number_of_pending_transfers (our_state candidate_channel_state) in
  let distributable :=
    get_distributable (our_state candidate_channel_state)
                      (partner_state candidate_channel_state) in
  (0 <? lock_timeout)
  && bool_decide (get_status candidate_channel_state = CHANNEL_STATE_OPENED)
  && (lock_timeout <=? settle_timeout candidate_channel_state)
  && (reveal_timeout candidate_channel_state <? lock_timeout)
  && (pending_transfers <? MAXIMUM_PENDING_TRANSFERS)
  && (transfer_amount <=? distributable)
  && is_valid_amount (our_state candidate_channel_state) transfer_amount.

(** Both [isinstance] tests hold by the types of the arguments. *)
Definition is_send_transfer_almost_equal (send : LockedTransferUnsignedState)
    (received : LockedTransferSignedState) : bool :=
  bool_decide (payment_identifier send = payment_identifier received)
  && bool_decide (token send = token received)
  && bool_decide (amount (lock send) = amount (lock received))
  && bool_decide (expiration (lock send) = expiration (lock received))
  && bool_decide (lock_secrethash (lock send) = lock_secrethash (lock received))
  && bool_decide (initiator send = initiator received)
  && bool_decide (target send = target received).

Definition filter_used_routes (transfers_pair : list MediationPairState)
    (routes : list RouteState) : list RouteState :=
  let channelid_to_route :=
    fold_left (fun d r => dict_set (route_channel_identifier r) r d) routes [] in
  dict_values
    (fold_left
       (fun d pair_ =>
          dict_del (channel_identifier (balance_proof (payee_transfer pair_)))
            (dict_del (channel_identifier (balance_proof (payer_transfer pair_))) d))
       transfers_pair channelid_to_route).

Definition get_payee_channel (channelidentifiers_to_channels : gmap Z NettingChannelState)
    (transfer_pair : MediationPairState) : result NettingChannelState :=
  let payee_channel_identifier :=
    channel_identifier (balance_proof (payee_transfer transfer_pair)) in
  match channelidentifiers_to_channels !! payee_channel_identifier with
  | Some payee_channel => Ok payee_channel
  | None => Raise AssertionError
  end.

Definition get_payer_channel (channelidentifiers_to_channels : gmap Z NettingChannelState)
    (transfer_pair : MediationPairState) : result NettingChannelState :=
  let payer_channel_identifier :=
    channel_identifier (balance_proof (payer_transfer transfer_pair)) in
  match channelidentifiers_to_channels !! payer_channel_identifier with
  | Some payer_channel => Ok payer_channel
  | None => Raise AssertionError
  end.

(** A pair is pending while one of its sides is not at a final state. *)
Definition is_pending (pair_ : MediationPairState) : bool :=
  negb (state_in (payee_state pair_) STATE_TRANSFER_FINAL)
  || negb (state_in (payer_state pair_) STATE_TRANSFER_FINAL).

(** The references to the pending pairs, in the order of the list. *)
Definition get_pending_transfer_pairs (transfers_pair : list MediationPairState)
  : list nat :=
  List.filter
    (fun i => match transfers_pair !! i with
              | Some pair_ => is_pending pair_
              | None => false
              end)
    (seq 0 (length transfers_pair)).

Definition sanity_check (state : MediatorTransferState) : result unit :=
  let all_transfers_states :=
    map payee_state (transfers_pair state) ++ map payer_state (transfers_pair state) in
  _ ← (if existsb (fun st => state_in st STATE_TRANSFER_PAID) all_transfers_states
       then assert (bool_decide (secret state <> None))
       else Ok tt);
  _ ← match transfers_pair state with
      | first_pair :: _ =>
          assert (bool_decide
                    (secrethash state = lock_secrethash (lock (payer_transfer first_pair))))
      | [] => Ok tt
      end;
  _ ← for_each
        (fun pair_ =>
           _ ← assert (is_send_transfer_almost_equal
                         (payee_transfer pair_) (payer_transfer pair_));
           _ ← assert (state_in (payer_state pair_) valid_payer_states);
           assert (state_in (payee_state pair_) valid_payee_states))
        (transfers_pair state);
  for_each
    (fun '(original, refund) =>
       _ ← assert (is_send_transfer_almost_equal
                     (payee_transfer original) (payer_transfer refund));
       _ ← assert (bool_decide (payee_address original = payer_address refund));
       assert (bool_decide
                 (expiration (lock (payee_transfer original))
                  = expiration (lock (payer_transfer refund)))))
    (zip (removelast (transfers_pair state)) (tail (transfers_pair state))).

Definition both_paid (pair_ : MediationPairState) : bool :=
  state_in (payee_state pair_) STATE_TRANSFER_PAID
  && state_in (payer_state pair_) STATE_TRANSFER_PAID.

Definition clear_if_finalized (iteration : TransitionResult) : TransitionResult :=
  match new_state iteration with
  | None => iteration
  | Some state =>
      let all_finalized := forallb both_paid (transfers_pair state) in
      if all_finalized
      then {| new_state := None; events := events iteration |}
      else iteration
  end.

(** A channel object taken from the channel map: the key it was found
    under and its value.  What a function does to the object is written
    back under that key. *)
Definition ChannelRef : Type := Z * NettingChannelState.

Fixpoint next_channel_from_routes (available_routes : list RouteState)
    (channelidentifiers_to_channels : gmap Z NettingChannelState)
    (transfer_amount lock_timeout : Z) : option ChannelRef :=
  match available_routes with
  | [] => None
  | route :: rest =>
      match channelidentifiers_to_channels !! route_channel_identifier route with
      | None => next_channel_from_routes rest channelidentifiers_to_channels
                  transfer_amount lock_timeout
      | Some channel_state =>
          if is_channel_usable channel_state transfer_amount lock_timeout
          then Some (route_channel_identifier route, channel_state)
          else next_channel_from_routes rest channelidentifiers_to_channels
                 transfer_amount lock_timeout
      end
  end.

Definition next_transfer_pair (payer_transfer : LockedTransferSignedState)
    (available_routes : list RouteState) (w : World) (block_number : Z)
  : result (option MediationPairState * list Event * World) :=
  let lock_timeout := expiration (lock payer_transfer) - block_number in
  match next_channel_from_routes available_routes (channels w)
          (amount (lock payer_transfer)) lock_timeout with
  | Some (key, payee_channel) =>
      _ ← assert (lock_timeout <=? settle_timeout payee_channel);
      _ ← assert (bool_decide (token_address payee_channel = token payer_transfer));
      let '(message_identifier, w1) := next_message_identifier w in
      let '(lockedtransfer_event, payee_channel1) :=
        send_lockedtransfer payee_channel
          (initiator payer_transfer) (target payer_transfer)
          (amount (lock payer_transfer)) message_identifier
          (payment_identifier payer_transfer)
          (expiration (lock payer_transfer))
          (lock_secrethash (lock payer_transfer)) in
      let transfer_pair :=
        new_MediationPairState payer_transfer
          (address (partner_state payee_channel1))
          (transfer lockedtransfer_event) in
      Ok (Some transfer_pair, [SendMediatedTransfer lockedtransfer_event],
          set_channel key payee_channel1 w1)
  | None => Ok (None, [], w)
  end.

(** The loop of [set_secret] and of [set_onchain_secret]; [register] is
    [channel.register_secret] in the first and
    [channel.register_onchain_secret] in the second. *)
Fixpoint register_on_pairs
    (register : NettingChannelState -> string -> string -> NettingChannelState)
    (pairs : list MediationPairState) (s h : string)
    (chans : gmap Z NettingChannelState) : result (gmap Z NettingChannelState) :=
  match pairs with
  | [] => Ok chans
  | pair_ :: rest =>
      let payer_id := channel_identifier (balance_proof (payer_transfer pair_)) in
      payer_channel ← getitem chans payer_id;
      let chans1 := <[payer_id := register payer_channel s h]> chans in
      let payee_id := channel_identifier (balance_proof (payee_transfer pair_)) in
      payee_channel ← getitem chans1 payee_id;
      let chans2 := <[payee_id := register payee_channel s h]> chans1 in
      register_on_pairs register rest s h chans2
  end.

Definition set_secret (state : MediatorTransferState) (w : World) (s h : string)
  : result (MediatorTransferState * World) :=
  chans ← register_on_pairs register_secret (transfers_pair state) s h (channels w);
  Ok (with_secret s state, {| channels := chans; prng := prng w |}).

Definition set_onchain_secret (state : MediatorTransferState) (w : World) (s h : string)
  : result (MediatorTransferState * World) :=
  chans ← register_on_pairs register_onchain_secret (transfers_pair state) s h
            (channels w);
  Ok (with_secret s state, {| channels := chans; prng := prng w |}).

(** The loop of [set_payee_state_and_check_reveal_order], with its
    [break]. *)
Fixpoint reveal_order_loop (refs : list nat) (transfers_pair : list MediationPairState)
    (payee : string) (new_payee_state : TransferState) (wrong_reveal_order : bool)
  : list MediationPairState * bool :=
  match refs with
  | [] => (transfers_pair, wrong_reveal_order)
  | i :: refs' =>
      match transfers_pair !! i with
      | None => (transfers_pair, wrong_reveal_order)
      | Some back =>
          if bool_decide (payee_address back = payee)
          then (<[i := set_payee_state new_payee_state back]> transfers_pair,
                wrong_reveal_order)
          else if negb (state_in (payee_state back) STATE_SECRET_KNOWN)
          then reveal_order_loop refs' transfers_pair payee new_payee_state true
          else reveal_order_loop refs' transfers_pair payee new_payee_state
                 wrong_reveal_order
      end
  end.

Definition set_payee_state_and_check_reveal_order
    (transfers_pair : list MediationPairState) (payee : string)
    (new_payee_state : TransferState)
  : result (list MediationPairState * list Event) :=
  _ ← assert (state_in new_payee_state valid_payee_states);
  let '(pairs, wrong_reveal_order) :=
    reveal_order_loop (reversed_refs transfers_pair) transfers_pair payee
      new_payee_state false in
  if wrong_reveal_order then Ok (pairs, []) else Ok (pairs, []).

(** The body of the loop of [set_expired_pairs]. *)
Definition expire_pair (block_number : Z) (pair_ : MediationPairState)
    (events : list Event) : MediationPairState * list Event :=
  let has_payee_transfer_expired :=
    (expiration (lock (payee_transfer pair_)) <? block_number)
    && negb (bool_decide (payee_state pair_ = payee_expired)) in
  let has_payer_transfer_expired :=
    (expiration (lock (payer_transfer pair_)) <? block_number)
    && negb (bool_decide (payer_state pair_ = payer_expired)) in
  let '(pair1, events1) :=
    if has_payer_transfer_expired
    then (set_payer_state payer_expired pair_,
          events ++ [EventUnlockClaimFailed
                       (payment_identifier (payer_transfer pair_))
                       (lock_secrethash (lock (payer_transfer pair_)))
                       "lock expired"])
    else (pair_, events) in
  if has_payee_transfer_expired
  then (set_payee_state payee_expired pair1,
        events1 ++ [EventUnlockFailed
                      (payment_identifier (payee_transfer pair1))
                      (lock_secrethash (lock (payee_transfer pair1)))
                      "lock expired"])
  else (pair1, events1).

Fixpoint set_expired_pairs_loop (refs : list nat)
    (transfers_pair : list MediationPairState) (block_number : Z)
    (events : list Event) : list MediationPairState * list Event :=
  match refs with
  | [] => (transfers_pair, events)
  | i :: refs' =>
      match transfers_pair !! i with
      | None => set_expired_pairs_loop refs' transfers_pair block_number events
      | Some pair_ =>
          let '(pair1, events1) := expire_pair block_number pair_ events in
          set_expired_pairs_loop refs' (<[i := pair1]> transfers_pair)
            block_number events1
      end
  end.

(** Returns the pairs after the loop, which the code changes in place,
    and the events. *)
Definition set_expired_pairs (transfers_pair : list MediationPairState)
    (block_number : Z) : list MediationPairState * list Event :=
  let pending_transfers_pairs := get_pending_transfer_pairs transfers_pair in
  set_expired_pairs_loop pending_transfers_pairs transfers_pair block_number [].

Definition events_for_refund_transfer (refund_channel : ChannelRef)
    (transfer_to_refund : LockedTransferSignedState) (w : World) (block_number : Z)
  : list Event * World :=
  let lock_timeout := expiration (lock transfer_to_refund) - block_number in
  let transfer_amount := amount (lock transfer_to_refund) in
  if is_channel_usable refund_channel.2 transfer_amount lock_timeout
  then
    let '(message_identifier, w1) := next_message_identifier w in
    let '(refund_transfer_event, refund_channel1) :=
      send_refundtransfer refund_channel.2
        (initiator transfer_to_refund) (target transfer_to_refund)
        (amount (lock transfer_to_refund)) message_identifier
        (payment_identifier transfer_to_refund)
        (expiration (lock transfer_to_refund))
        (lock_secrethash (lock transfer_to_refund)) in
    ([refund_transfer_event], set_channel refund_channel.1 refund_channel1 w1)
  else ([], w).

Definition events_for_revealsecret (transfers_pair : list MediationPairState)
    (s : string) (w : World)
  : result (list MediationPairState * (list Event * World)) :=
  for_each_pair
    (fun pair_ '(events, w) =>
       let payee_secret := state_in (payee_state pair_) STATE_SECRET_KNOWN in
       let payer_secret := state_in (payer_state pair_) STATE_SECRET_KNOWN in
       let should_send_secret := bool_decide (payer_state pair_ = payer_pending) in
       if payee_secret && negb payer_secret && should_send_secret
       then
         let '(message_identifier, w1) := next_message_identifier w in
         let revealsecret :=
           SendRevealSecret (sender (balance_proof (payer_transfer pair_)))
             CHANNEL_IDENTIFIER_GLOBAL_QUEUE message_identifier s in
         Ok (set_payer_state payer_secret_revealed pair_,
             (events ++ [revealsecret], w1))
       else Ok (pair_, (events, w)))
    (reversed_refs transfers_pair) transfers_pair ([], w).

Definition events_for_balanceproof (w : World)
    (transfers_pair : list MediationPairState) (block_number : Z) (s h : string)
  : result (list MediationPairState * (list Event * World)) :=
  for_each_pair
    (fun pair_ '(events, w) =>
       let payee_knows_secret := state_in (payee_state pair_) STATE_SECRET_KNOWN in
       let payee_payed := state_in (payee_state pair_) STATE_TRANSFER_PAID in
       payee_channel ← get_payee_channel (channels w) pair_;
       let payee_channel_open :=
         bool_decide (get_status payee_channel = CHANNEL_STATE_OPENED) in
       payer_channel ← get_payer_channel (channels w) pair_;
       '(is_safe_to_send_balanceproof, _) ←
         is_safe_to_wait (expiration (lock (payer_transfer pair_)))
           (reveal_timeout payer_channel) block_number;
       let should_send_balanceproof_to_payee :=
         payee_channel_open && payee_knows_secret && negb payee_payed
         && is_safe_to_send_balanceproof in
       if should_send_balanceproof_to_payee
       then
         let '(message_identifier, w1) := next_message_identifier w in
         let '(unlock_lock, payee_channel1) :=
           send_unlock payee_channel (payment_identifier (payee_transfer pair_))
             message_identifier s h in
         let unlock_success :=
           EventUnlockSuccess (payment_identifier (payer_transfer pair_))
             (lock_secrethash (lock (payer_transfer pair_))) in
         Ok (set_payee_state payee_balance_proof pair_,
             (events ++ [unlock_lock; unlock_success],
              set_channel (channel_identifier (balance_proof (payee_transfer pair_)))
                payee_channel1 w1))
       else Ok (pair_, (events, w)))
    (reversed_refs transfers_pair) transfers_pair ([], w).

(** The loop of [events_for_onchain_secretreveal]; it returns at the first
    pair it reveals for. *)
Fixpoint onchain_secretreveal_loop
    (channelidentifiers_to_channels : gmap Z NettingChannelState)
    (transfers_pair : list MediationPairState) (block_number : Z)
    (refs : list nat) : result (list Event) :=
  match refs with
  | [] => Ok []
  | i :: refs' =>
      match transfers_pair !! i with
      | None => Raise IndexError
      | Some pair_ =>
          payer_channel ← get_payer_channel channelidentifiers_to_channels pair_;
          let expiration := expiration (lock (payer_transfer pair_)) in
          '(safe_to_wait, _) ←
            is_safe_to_wait expiration (reveal_timeout payer_channel) block_number;
          let secret_known :=
            is_secret_known (partner_state payer_channel)
              (lock_secrethash (lock (payer_transfer pair_))) in
          if negb safe_to_wait && secret_known
          then
            let s := get_secret (partner_state payer_channel)
                       (lock_secrethash (lock (payer_transfer pair_))) in
            Ok (secret_registry_events_for_onchain_secretreveal
                  payer_channel s expiration)
          else onchain_secretreveal_loop channelidentifiers_to_channels
                 transfers_pair block_number refs'
      end
  end.

Definition events_for_onchain_secretreveal
    (channelidentifiers_to_channels : gmap Z NettingChannelState)
    (transfers_pair : list MediationPairState) (block_number : Z)
  : result (list Event) :=
  let pending_transfers_pairs := get_pending_transfer_pairs transfers_pair in
  onchain_secretreveal_loop channelidentifiers_to_channels transfers_pair
    block_number (rev pending_transfers_pairs).

Definition events_for_unlock_if_closed
    (channelidentifiers_to_channels : gmap Z NettingChannelState)
    (transfers_pair : list MediationPairState) (s h : string)
  : result (list MediationPairState * list Event) :=
  let pending_transfers_pairs := get_pending_transfer_pairs transfers_pair in
  for_each_pair
    (fun pair_ events =>
       payer_channel ← get_payer_channel channelidentifiers_to_channels pair_;
       let payer_channel_open :=
         bool_decide (get_status payer_channel = CHANNEL_STATE_OPENED) in
       if negb payer_channel_open
       then
         let partner := partner_state payer_channel in
         let lock := get_lock partner h in
         let unlock_proof := compute_proof_for_lock partner s lock in
         let unlock :=
           ContractSendChannelBatchUnlock
             (token_network_identifier payer_channel)
             (identifier payer_channel) [unlock_proof] in
         Ok (set_payer_state payer_waiting_unlock pair_, events ++ [unlock])
       else Ok (pair_, events))
    pending_transfers_pairs transfers_pair [].

Definition secret_learned (state : MediatorTransferState) (w : World)
    (block_number : Z) (s h : string) (payee : string)
    (new_payee_state : TransferState) (from_onchain_secretreveal : bool)
  : result (TransitionResult * World) :=
  _ ← assert (state_in new_payee_state STATE_SECRET_KNOWN);
  '(state1, w1, unlock) ←
    match secret state with
    | None =>
        '(state1, w1) ←
          (if from_onchain_secretreveal
           then set_onchain_secret state w s h
           else set_secret state w s h);
        '(pairs, unlock) ←
          events_for_unlock_if_closed (channels w1) (transfers_pair state1) s h;
        Ok (with_pairs pairs state1, w1, unlock)
    | Some _ => Ok (state, w, [])
    end;
  '(pairs2, wrong_order) ←
    set_payee_state_and_check_reveal_order (transfers_pair state1) payee
      new_payee_state;
  '(pairs3, (secret_reveal, w2)) ← events_for_revealsecret pairs2 s w1;
  '(pairs4, (balance_proof, w3)) ← events_for_balanceproof w2 pairs3 block_number s h;
  Ok ({| new_state := Some (with_pairs pairs4 state1);
         events := wrong_order ++ secret_reveal ++ balance_proof ++ unlock |}, w3).

(** The channel a refund goes to and the transfer it refunds: those of the
    first pair when there is one, else the ones [mediate_transfer] was
    given. *)
Definition refund_target (state : MediatorTransferState) (payer_channel : ChannelRef)
    (chans : gmap Z NettingChannelState) (payer_transfer : LockedTransferSignedState)
  : result (ChannelRef * LockedTransferSignedState) :=
  match transfers_pair state with
  | original_pair :: _ =>
      let original_transfer := Mediator.payer_transfer original_pair in
      original_channel ← get_payer_channel chans original_pair;
      Ok ((channel_identifier (balance_proof original_transfer), original_channel),
          original_transfer)
  | [] => Ok (payer_channel, payer_transfer)
  end.

(** Returns the mediator state after the call, to which the code appends
    in place, next to the transition result that holds it. *)
Definition mediate_transfer (state : MediatorTransferState)
    (possible_routes : list RouteState) (payer_channel : ChannelRef) (w : World)
    (payer_transfer : LockedTransferSignedState) (block_number : Z)
  : result (MediatorTransferState * TransitionResult * World) :=
  let available_routes := filter_used_routes (transfers_pair state) possible_routes in
  _ ← assert (bool_decide (address (partner_state payer_channel.2)
                           = sender (balance_proof payer_transfer)));
  '(transfer_pair, mediated_events, w1) ←
    next_transfer_pair payer_transfer available_routes w block_number;
  match transfer_pair with
  | None =>
      '(original_channel, original_transfer) ←
        refund_target state payer_channel (channels w1) payer_transfer;
      let '(refund_events, w2) :=
        events_for_refund_transfer original_channel original_transfer w1
          block_number in
      Ok (state, {| new_state := Some state; events := refund_events |}, w2)
  | Some transfer_pair =>
      let state1 := with_pairs (transfers_pair state ++ [transfer_pair]) state in
      Ok (state1, {| new_state := Some state1; events := mediated_events |}, w1)
  end.

Definition handle_init (state_change : ActionInitMediator) (w : World)
    (block_number : Z) : result (TransitionResult * World) :=
  let key := route_channel_identifier (from_route state_change) in
  match channels w !! key with
  | None => Ok ({| new_state := None; events := [] |}, w)
  | Some payer_channel =>
      let mediator_state :=
        new_MediatorTransferState
          (lock_secrethash (lock (from_transfer state_change))) in
      let '(is_valid, events, payer_channel1) :=
        handle_receive_lockedtransfer payer_channel (from_transfer state_change) in
      let w1 := set_channel key payer_channel1 w in
      if negb is_valid
      then Ok ({| new_state := None; events := events |}, w1)
      else
        '(_, iteration, w2) ←
          mediate_transfer mediator_state (routes state_change)
            (key, payer_channel1) w1 (from_transfer state_change) block_number;
        Ok ({| new_state := new_state iteration;
               events := events ++ Mediator.events iteration |}, w2)
  end.

(** The lock whose expiration [handle_block] cleans up after, when the
    block of the state change is past its threshold. *)
Definition expired_locked_lock (channel_state : NettingChannelState) (h : string)
    (state_change_block_number : Z) : option HashTimeLockState :=
  match secrethashes_to_lockedlocks (our_state channel_state) !! h with
  | Some locked_lock =>
      let lock_expiration_threshold :=
        expiration locked_lock + DEFAULT_NUMBER_OF_CONFIRMATIONS_BLOCK in
      if lock_expiration_threshold <? state_change_block_number
      then Some locked_lock
      else None
  | None => None
  end.

Definition handle_block (mediator_state : MediatorTransferState)
    (state_change_block_number : Z) (w : World) (block_number : Z)
  : result (TransitionResult * World) :=
  match transfers_pair mediator_state with
  | [] => Raise IndexError
  | first_pair :: _ =>
      let key := channel_identifier (balance_proof (payee_transfer first_pair)) in
      match channels w !! key with
      | None => Raise AttributeError
      | Some channel_state =>
          let h := secrethash mediator_state in
          match expired_locked_lock channel_state h state_change_block_number with
          | Some locked_lock =>
              let channel1 :=
                with_our_state
                  (delete_secrethash_endstate (our_state channel_state) h)
                  channel_state in
              let '(expired_lock_event, channel2, g) :=
                events_for_expired_lock channel1 locked_lock (prng w) in
              Ok ({| new_state := None; events := [expired_lock_event] |},
                  {| channels := <[key := channel2]> (channels w); prng := g |})
          | None =>
              secret_reveal_events ←
                events_for_onchain_secretreveal (channels w)
                  (transfers_pair mediator_state) block_number;
              let '(pairs, unlock_fail_events) :=
                set_expired_pairs (transfers_pair mediator_state) block_number in
              Ok ({| new_state := Some (with_pairs pairs mediator_state);
                     events := unlock_fail_events ++ secret_reveal_events |}, w)
          end
      end
  end.

(** [mediator_state_change.transfer] and [mediator_state_change.routes]:
    attributes the class of the state change does not have. *)
Definition refund_transfer (mediator_state_change : ReceiveTransferRefund)
  : result LockedTransferSignedState :=
  Raise AttributeError.

Definition refund_routes (mediator_state_change : ReceiveTransferRefund)
  : result (list RouteState) :=
  Raise AttributeError.

Definition handle_refundtransfer (mediator_state : MediatorTransferState)
    (mediator_state_change : ReceiveTransferRefund) (w : World) (block_number : Z)
  : result (TransitionResult * World) :=
  match secret mediator_state with
  | None =>
      match last (transfers_pair mediator_state) with
      | None => Raise IndexError
      | Some transfer_pair =>
          let payee_transfer := Mediator.payee_transfer transfer_pair in
          payer_transfer ← refund_transfer mediator_state_change;
          let key := channel_identifier (balance_proof payer_transfer) in
          payer_channel ← getitem (channels w) key;
          let '(is_valid, channel_events, payer_channel1) :=
            channel_handle_refundtransfer payee_transfer payer_channel
              mediator_state_change in
          let w1 := set_channel key payer_channel1 w in
          if negb is_valid
          then Ok ({| new_state := None; events := channel_events |}, w1)
          else
            possible_routes ← refund_routes mediator_state_change;
            '(mediator_state1, iteration, w2) ←
              mediate_transfer mediator_state possible_routes
                (key, payer_channel1) w1 payer_transfer block_number;
            Ok ({| new_state := Some mediator_state1;
                   events := channel_events ++ events iteration |}, w2)
      end
  | Some _ => Ok ({| new_state := Some mediator_state; events := [] |}, w)
  end.

(** The state change [handle_secretreveal] is given: an instance of one of
    the two classes [state_transition] calls it for. *)
Inductive SecretReveal : Type :=
  | OffChain (sc : ReceiveSecretReveal)
  | OnChain (sc : ContractReceiveSecretReveal).

(** [mediator_state_change.secrethash], which [ReceiveSecretReveal] does
    not have, [.secret] and [.sender]. *)
Definition reveal_secrethash (mediator_state_change : SecretReveal) : result string :=
  match mediator_state_change with
  | OffChain _ => Raise AttributeError
  | OnChain sc => Ok (onchain_secrethash sc)
  end.

Definition secret_of (mediator_state_change : SecretReveal) : string :=
  match mediator_state_change with
  | OffChain sc => reveal_secret sc
  | OnChain sc => onchain_secret sc
  end.

Definition sender_of (mediator_state_change : SecretReveal) : string :=
  match mediator_state_change with
  | OffChain sc => reveal_sender sc
  | OnChain sc => onchain_sender sc
  end.

(** [isinstance(mediator_state_change, ContractReceiveSecretReveal)]. *)
Definition is_onchain (mediator_state_change : SecretReveal) : bool :=
  match mediator_state_change with
  | OffChain _ => false
  | OnChain _ => true
  end.

Definition handle_secretreveal (mediator_state : MediatorTransferState)
    (mediator_state_change : SecretReveal) (w : World) (block_number : Z)
  : result (TransitionResult * World) :=
  let is_secret_unknown := bool_decide (secret mediator_state = None) in
  h ← reveal_secrethash mediator_state_change;
  let is_valid_reveal := bool_decide (h = secrethash mediator_state) in
  if is_secret_unknown && is_valid_reveal
  then secret_learned mediator_state w block_number
         (secret_of mediator_state_change) h (sender_of mediator_state_change)
         payee_secret_revealed (is_onchain mediator_state_change)
  else Ok ({| new_state := Some mediator_state; events := [] |}, w).

Definition handle_unlock (mediator_state : MediatorTransferState)
    (state_change : ReceiveUnlock) (w : World)
  : result (TransitionResult * World) :=
  let balance_proof_sender := sender (unlock_balance_proof state_change) in
  let key := channel_identifier (unlock_balance_proof state_change) in
  '(pairs, (events, w1)) ←
    for_each_pair
      (fun pair_ '(events, w) =>
         if bool_decide (sender (balance_proof (payer_transfer pair_))
                         = balance_proof_sender)
         then
           match channels w !! key with
           | Some channel_state =>
               let '(is_valid, channel_events, channel_state1) :=
                 channel_handle_unlock channel_state state_change in
               let w1 := set_channel key channel_state1 w in
               let events1 := events ++ channel_events in
               if is_valid
               then
                 let unlock :=
                   EventUnlockClaimSuccess
                     (payment_identifier (payee_transfer pair_))
                     (lock_secrethash (lock (payee_transfer pair_))) in
                 let send_processed :=
                   SendProcessed balance_proof_sender
                     CHANNEL_IDENTIFIER_GLOBAL_QUEUE
                     (unlock_message_identifier state_change) in
                 Ok (set_payer_state payer_balance_proof pair_,
                     (events1 ++ [unlock] ++ [send_processed], w1))
               else Ok (pair_, (events1, w1))
           | None => Ok (pair_, (events, w))
           end
         else Ok (pair_, (events, w)))
      (seq 0 (length (transfers_pair mediator_state)))
      (transfers_pair mediator_state) ([], w);
  Ok ({| new_state := Some (with_pairs pairs mediator_state); events := events |}, w1).

Definition handle_lock_expired (state_change : ReceiveLockExpired) (w : World)
  : result (TransitionResult * World) :=
  let key := route_channel_identifier (expired_from_route state_change) in
  let channel_state := channels w !! key in
  '(result_events, channel_state1) ←
    handle_receive_lock_expired channel_state state_change;
  let w1 := match channel_state1 with
            | Some c => set_channel key c w
            | None => w
            end in
  Ok ({| new_state := None; events := result_events |}, w1).

(** Every handler but [handle_init] and [handle_lock_expired] starts by
    reading an attribute of [mediator_state]. *)
Definition attributes_of (mediator_state : option MediatorTransferState)
  : result MediatorTransferState :=
  match mediator_state with
  | Some state => Ok state
  | None => Raise AttributeError
  end.

Definition state_transition (mediator_state : option MediatorTransferState)
    (state_change : StateChange) (w : World) (block_number : Z)
  : result (TransitionResult * World) :=
  '(iteration, w1) ←
    match state_change with
    | SCActionInitMediator sc =>
        match mediator_state with
        | None => handle_init sc w block_number
        | Some _ => Ok ({| new_state := mediator_state; events := [] |}, w)
        end
    | SCBlock state_change_block_number =>
        state ← attributes_of mediator_state;
        handle_block state state_change_block_number w block_number
    | SCReceiveTransferRefund sc =>
        state ← attributes_of mediator_state;
        handle_refundtransfer state sc w block_number
    | SCReceiveSecretReveal sc =>
        state ← attributes_of mediator_state;
        handle_secretreveal state (OffChain sc) w block_number
    | SCContractReceiveSecretReveal sc =>
        state ← attributes_of mediator_state;
        handle_secretreveal state (OnChain sc) w block_number
    | SCReceiveUnlock sc =>
        state ← attributes_of mediator_state;
        handle_unlock state sc w
    | SCReceiveLockExpired sc => handle_lock_expired sc w
    | OtherStateChange => Ok ({| new_state := mediator_state; events := [] |}, w)
    end;
  _ ← match new_state iteration with
      | Some state => sanity_check state
      | None => Ok tt
      end;
  Ok (clear_if_finalized iteration, w1).

End mediator.

End Mediator.

Module Protocol.

(** ** The transport: [RaidenProtocol]

    One call of a method runs to its end before the next starts: the
    greenlets a method spawns are recorded, not run.  The handler of the
    host is what it does to the state of the host and the exception it
    raises: the messages it sends through the protocol while it runs are
    not modelled, and [receive] is followed up to the call of the handler
    and from its return. *)

Abbreviation HostPort := (string * Z)%type (only parsing).

Inductive Message : Type :=
  | Ack (sender : string) (echo : string)
  | Ping (sender : string) (nonce : Z)
  | SignedMessage (sender : string) (token : option string) (body : string)
  | UnsignedMessage (body : string).

Definition is_ack (message : Message) : bool :=
  match message with Ack _ _ => true | _ => false end.

Definition is_ping (message : Message) : bool :=
  match message with Ping _ _ => true | _ => false end.

(** [Ping] is a subclass of [SignedMessage], [Ack] is not. *)
Definition is_signed (message : Message) : bool :=
  match message with
  | Ping _ _ | SignedMessage _ _ _ => true
  | _ => false
  end.

(** [message.sender]. *)
Definition message_sender (message : Message) : result string :=
  match message with
  | Ack a _ | Ping a _ | SignedMessage a _ _ => Ok a
  | UnsignedMessage _ => Raise AttributeError
  end.

(** [getattr(message, 'token', '')]. *)
Definition message_token (message : Message) : string :=
  match message with
  | SignedMessage _ (Some t) _ => t
  | _ => ""
  end.

(** What the protocol imports and the host it serves, none of which are
    among the sources: the codec, the hash, the address test, the size
    limit, and the host's message handler with the state it works on.
    The handler has no access to the protocol: what it sends through it is
    left out. *)
Class Imports : Type := {
  sha3 : string -> string;
  isaddress : string -> bool;
  encode : Message -> string;
  decode : string -> result Message;
  UDP_MAX_MESSAGE_SIZE : nat;
  Host : Type;
  on_message : Host -> Message -> string -> Host * option exn;
}.

Record SentMessageState : Type := {
  async_result : nat;
  receiver_address : string;
}.

Inductive Greenlet : Type :=
  | healthcheck (receiver : string)
  | single_queue_send (receiver : string) (token : string).

(** What a method does to the outside. *)
Inductive Effect : Type :=
  | CallOnMessage (message : Message) (echohash : string)
  | TransportSend (host_port : string * Z) (data : string).

Definition is_on_message (e : Effect) : bool :=
  match e with CallOnMessage _ _ => true | _ => false end.

Definition is_transport_send (e : Effect) : bool :=
  match e with TransportSend _ _ => true | _ => false end.

Section protocol.
Context `{Imports}.

(** The protocol object and what it reaches.  An [AsyncResult] is a
    position in [async_results], holding [None] until it is set; a queue is
    its list of pending data; a pair of health events is its two flags.
    [host_ports] is what [get_host_port], the cached discovery lookup,
    answers now; [effects] lists the handler calls and the datagrams sent,
    oldest first. *)
Record RaidenProtocol : Type := {
  address : string;
  host : Host;
  server_started : bool;
  host_ports : gmap string (string * Z);
  channel_queue : gmap (string * string) (list string);
  greenlets : list Greenlet;
  addresses_events : gmap string (bool * bool);
  receivedhashes_to_acks : gmap string ((string * Z) * string);
  senthashes_to_states : gmap string SentMessageState;
  nodeaddresses_to_nonces : gmap string Z;
  async_results : list (option bool);
  effects : list Effect;
}.

Definition get_host_port (self : RaidenProtocol) (node : string)
  : result (string * Z) :=
  match host_ports self !! node with
  | Some host_port => Ok host_port
  | None => Raise UnknownAddress
  end.

Definition with_effect (e : Effect) (self : RaidenProtocol) : RaidenProtocol :=
  {| address := address self; host := host self;
     server_started := server_started self; host_ports := host_ports self;
     channel_queue := channel_queue self; greenlets := greenlets self;
     addresses_events := addresses_events self;
     receivedhashes_to_acks := receivedhashes_to_acks self;
     senthashes_to_states := senthashes_to_states self;
     nodeaddresses_to_nonces := nodeaddresses_to_nonces self;
     async_results := async_results self;
     effects := effects self ++ [e] |}.

Definition with_host (h : Host) (self : RaidenProtocol) : RaidenProtocol :=
  {| address := address self; host := h;
     server_started := server_started self; host_ports := host_ports self;
     channel_queue := channel_queue self; greenlets := greenlets self;
     addresses_events := addresses_events self;
     receivedhashes_to_acks := receivedhashes_to_acks self;
     senthashes_to_states := senthashes_to_states self;
     nodeaddresses_to_nonces := nodeaddresses_to_nonces self;
     async_results := async_results self;
     effects := effects self |}.

Definition with_acks (acks : gmap string ((string * Z) * string))
    (self : RaidenProtocol) : RaidenProtocol :=
  {| address := address self; host := host self;
     server_started := server_started self; host_ports := host_ports self;
     channel_queue := channel_queue self; greenlets := greenlets self;
     addresses_events := addresses_events self;
     receivedhashes_to_acks := acks;
     senthashes_to_states := senthashes_to_states self;
     nodeaddresses_to_nonces := nodeaddresses_to_nonces self;
     async_results := async_results self;
     effects := effects self |}.

Definition with_sent (sent : gmap string SentMessageState)
    (results : list (option bool)) (self : RaidenProtocol) : RaidenProtocol :=
  {| address := address self; host := host self;
     server_started := server_started self; host_ports := host_ports self;
     channel_queue := channel_queue self; greenlets := greenlets self;
     addresses_events := addresses_events self;
     receivedhashes_to_acks := receivedhashes_to_acks self;
     senthashes_to_states := sent;
     nodeaddresses_to_nonces := nodeaddresses_to_nonces self;
     async_results := results;
     effects := effects self |}.

Definition with_queues (queues : gmap (string * string) (list string))
    (self : RaidenProtocol) : RaidenProtocol :=
  {| address := address self; host := host self;
     server_started := server_started self; host_ports := host_ports self;
     channel_queue := queues; greenlets := greenlets self;
     addresses_events := addresses_events self;
     receivedhashes_to_acks := receivedhashes_to_acks self;
     senthashes_to_states := senthashes_to_states self;
     nodeaddresses_to_nonces := nodeaddresses_to_nonces self;
     async_results := async_results self;
     effects := effects self |}.

Definition with_health (events : gmap string (bool * bool))
    (nonces : gmap string Z) (tasks : list Greenlet)
    (self : RaidenProtocol) : RaidenProtocol :=
  {| address := address self; host := host self;
     server_started := server_started self; host_ports := host_ports self;
     channel_queue := channel_queue self; greenlets := tasks;
     addresses_events := events;
     receivedhashes_to_acks := receivedhashes_to_acks self;
     senthashes_to_states := senthashes_to_states self;
     nodeaddresses_to_nonces := nonces;
     async_results := async_results self;
     effects := effects self |}.

(** [transport.send(self.raiden, host_port, data)]. *)
Definition transport_send (host_port : string * Z) (data : string)
    (self : RaidenProtocol) : RaidenProtocol :=
  with_effect (TransportSend host_port data) self.

Definition start_health_check (self : RaidenProtocol) (receiver : string)
  : RaidenProtocol :=
  match addresses_events self !! receiver with
  | Some _ => self
  | None =>
      let nonces :=
        match nodeaddresses_to_nonces self !! receiver with
        | Some _ => nodeaddresses_to_nonces self
        | None => <[receiver := 0]> (nodeaddresses_to_nonces self)
        end in
      with_health (<[receiver := (false, false)]> (addresses_events self)) nonces
        (greenlets self ++ [healthcheck receiver]) self
  end.

Definition get_health_events (self : RaidenProtocol) (receiver : string)
  : RaidenProtocol :=
  match addresses_events self !! receiver with
  | Some _ => self
  | None => start_health_check self receiver
  end.

(** Returns the key of the queue, which stands for the queue object. *)
Definition get_channel_queue (self : RaidenProtocol) (receiver token : string)
  : (string * string) * RaidenProtocol :=
  let key := (receiver, token) in
  match channel_queue self !! key with
  | Some _ => (key, self)
  | None =>
      let self1 := with_queues (<[key := []]> (channel_queue self)) self in
      let self2 := get_health_events self1 receiver in
      let self3 :=
        with_health (addresses_events self2) (nodeaddresses_to_nonces self2)
          (greenlets self2 ++ [single_queue_send receiver token]) self2 in
      (key, self3)
  end.

(** [queue.put(data)]. *)
Definition queue_put (key : string * string) (data : string)
    (self : RaidenProtocol) : RaidenProtocol :=
  with_queues (alter (fun q => q ++ [data]) key (channel_queue self)) self.

Definition send_async (self : RaidenProtocol) (receiver : string)
    (message : Message) : result (nat * RaidenProtocol) :=
  if negb (isaddress receiver) then Raise ValueError
  else if is_ack message || is_ping message then Raise ValueError
  else
    let messagedata := encode message in
    let echohash := sha3 (messagedata +:+ receiver) in
    if (UDP_MAX_MESSAGE_SIZE <? String.length messagedata)%nat then Raise ValueError
    else
      let token_address := message_token message in
      match senthashes_to_states self !! echohash with
      | None =>
          let async_result := length (async_results self) in
          let self1 :=
            with_sent
              (<[echohash := {| async_result := async_result;
                                receiver_address := receiver |}]>
                 (senthashes_to_states self))
              (async_results self ++ [None]) self in
          let '(queue, self2) := get_channel_queue self1 receiver token_address in
          Ok (async_result, queue_put queue messagedata self2)
      | Some waitack => Ok (Protocol.async_result waitack, self)
      end.

Definition _maybe_send_ack (self : RaidenProtocol) (host_port : string * Z)
    (messagedata : string) : RaidenProtocol :=
  if server_started self
  then transport_send host_port messagedata self
  else self.

(** A method that can raise after it changed the object returns the
    object with the exception. *)
Definition maybe_send_ack (self : RaidenProtocol) (receiver : string)
    (ack_message : Message) : RaidenProtocol * option exn :=
  if negb (isaddress receiver) then (self, Some ValueError)
  else
    match ack_message with
    | Ack _ echo =>
        let messagedata := encode ack_message in
        match get_host_port self receiver with
        | Raise e => (self, Some e)
        | Ok host_port =>
            let self1 :=
              with_acks (<[echo := (host_port, messagedata)]>
                           (receivedhashes_to_acks self)) self in
            (_maybe_send_ack self1 host_port messagedata, None)
        end
    | _ => (self, Some ValueError)
    end.

Definition send_raw_with_result (self : RaidenProtocol) (data : string)
    (receiver : string) : result (nat * RaidenProtocol) :=
  host_port ← get_host_port self receiver;
  let echohash := sha3 (data +:+ receiver) in
  let '(async_result, self1) :=
    match senthashes_to_states self !! echohash with
    | None =>
        let async_result := length (async_results self) in
        (async_result,
         with_sent
           (<[echohash := {| async_result := async_result;
                             receiver_address := receiver |}]>
              (senthashes_to_states self))
           (async_results self ++ [None]) self)
    | Some waitack => (Protocol.async_result waitack, self)
    end in
  (* [async_result.ready()] *)
  match async_results self1 !! async_result with
  | Some (Some _) => Ok (async_result, self1)
  | _ => Ok (async_result, transport_send host_port data self1)
  end.

(** The exceptions the two outer [except] clauses of [receive] swallow. *)
Definition swallowed_by_receive (e : exn) : bool :=
  bool_decide (e ∈ [UnknownAddress; InvalidNonce; TransferWhenClosed;
                    TransferUnwanted; UnknownTokenAddress; InvalidLocksRoot]).

Definition receive (self : RaidenProtocol) (data : string)
  : RaidenProtocol * option exn :=
  if (UDP_MAX_MESSAGE_SIZE <? String.length data)%nat then (self, None)
  else
    match decode data with
    | Raise e => (self, Some e)
    | Ok message =>
        let echohash := sha3 (data +:+ address self) in
        match receivedhashes_to_acks self !! echohash with
        | Some (host_port, messagedata) =>
            match message_sender message ≫= get_host_port self with
            | Raise e => (self, Some e)
            | Ok current_host_port =>
                let self1 :=
                  if bool_decide (host_port <> current_host_port)
                  then with_acks (<[echohash := (current_host_port, messagedata)]>
                                    (receivedhashes_to_acks self)) self
                  else self in
                (_maybe_send_ack self1 current_host_port messagedata, None)
            end
        | None =>
            match message with
            | Ack _ echo =>
                match senthashes_to_states self !! echo with
                | None => (self, None)
                | Some waitack =>
                    (with_sent (senthashes_to_states self)
                       (<[Protocol.async_result waitack := Some true]>
                          (async_results self)) self, None)
                end
            | Ping message_sender _ | SignedMessage message_sender _ _ =>
                let self1 := with_effect (CallOnMessage message echohash) self in
                let '(host1, raised) := on_message (host self1) message echohash in
                let self2 := with_host host1 self1 in
                let '(self3, raised1) :=
                  match raised with
                  | Some e => (self2, Some e)
                  | None =>
                      let ack := Ack (address self2) echohash in
                      let '(self3, raised1) := maybe_send_ack self2 message_sender ack in
                      match raised1 with
                      | Some InvalidAddress | Some UnknownAddress => (self3, None)
                      | _ => (self3, raised1)
                      end
                  end in
                match raised1 with
                | Some e => if swallowed_by_receive e then (self3, None)
                            else (self3, Some e)
                | None => (self3, None)
                end
            | UnsignedMessage _ => (self, None)
            end
        end
    end.

End protocol.

End Protocol.

(** * Vocabulary of the statements *)

Module Vocabulary.
Import Mediator.

(** What the loop of [set_expired_pairs] does to one pair and the events
    it adds for it. *)
Definition expired (block_number : Z) (pair_ : MediationPairState) : MediationPairState :=
  if is_pending pair_ then (expire_pair block_number pair_ []).1 else pair_.

Definition expiry_events (block_number : Z) (pair_ : MediationPairState) : list Event :=
  if is_pending pair_ then (expire_pair block_number pair_ []).2 else [].

Definition is_claim_failed (e : Event) : bool :=
  match e with EventUnlockClaimFailed _ _ _ => true | _ => false end.

Definition is_unlock_failed (e : Event) : bool :=
  match e with EventUnlockFailed _ _ _ => true | _ => false end.

Definition is_onchain_reveal (e : Event) : bool :=
  match e with ContractSendSecretReveal _ _ => true | _ => false end.

(** The transition result of a handler that keeps the state and emits
    nothing. *)
Definition unchanged (state : MediatorTransferState) : TransitionResult :=
  {| new_state := Some state; events := [] |}.

(** A side of some pair of the state is paid. *)
Definition some_transfer_paid (state : MediatorTransferState) : Prop :=
  exists pair_, pair_ ∈ transfers_pair state
    /\ (state_in (payee_state pair_) STATE_TRANSFER_PAID = true
        \/ state_in (payer_state pair_) STATE_TRANSFER_PAID = true).

(** The checks of [sanity_check] on one pair and on two consecutive
    pairs. *)
Definition pair_is_sane (pair_ : MediationPairState) : Prop :=
  is_send_transfer_almost_equal (payee_transfer pair_) (payer_transfer pair_) = true
  /\ state_in (payer_state pair_) valid_payer_states = true
  /\ state_in (payee_state pair_) valid_payee_states = true.

Definition refund_is_sane (both : MediationPairState * MediationPairState) : Prop :=
  is_send_transfer_almost_equal (payee_transfer both.1) (payer_transfer both.2) = true
  /\ payee_address both.1 = payer_address both.2
  /\ expiration (lock (payee_transfer both.1))
     = expiration (lock (payer_transfer both.2)).

Section reachability.
Context `{Imports}.

(** The pair an on-chain reveal is due for: waiting is not safe for its
    payer lock and the partner end of its payer channel has registered the
    secret. *)
Definition reveal_is_due (chans : gmap Z NettingChannelState) (block_number : Z)
    (pair_ : MediationPairState) : bool :=
  match chans !! channel_identifier (balance_proof (payer_transfer pair_)) with
  | Some payer_channel =>
      negb (reveal_timeout payer_channel
            <? expiration (lock (payer_transfer pair_)) - block_number)
      && is_secret_known (partner_state payer_channel)
           (lock_secrethash (lock (payer_transfer pair_)))
  | None => false
  end.

Definition onchain_reveal_of (chans : gmap Z NettingChannelState)
    (pair_ : MediationPairState) : list Event :=
  match chans !! channel_identifier (balance_proof (payer_transfer pair_)) with
  | Some payer_channel =>
      [ContractSendSecretReveal (expiration (lock (payer_transfer pair_)))
         (get_secret (partner_state payer_channel)
            (lock_secrethash (lock (payer_transfer pair_))))]
  | None => []
  end.

(** The reveal of the first pending pair, from the latest to the
    earliest, for which one is due. *)
Definition selected_onchain_reveal (chans : gmap Z NettingChannelState)
    (transfers_pair : list MediationPairState) (block_number : Z) : list Event :=
  match find (reveal_is_due chans block_number)
          (rev (List.filter is_pending transfers_pair)) with
  | Some pair_ => onchain_reveal_of chans pair_
  | None => []
  end.

(** [handle_block] returns through its cleanup of an expired lock. *)
Definition lock_cleanup_due (state : MediatorTransferState)
    (state_change_block_number : Z) (w : World) : bool :=
  match transfers_pair state with
  | first_pair :: _ =>
      match channels w !! channel_identifier (balance_proof (payee_transfer first_pair)) with
      | Some channel_state =>
          bool_decide (is_Some (expired_locked_lock channel_state (secrethash state)
                                  state_change_block_number))
      | None => false
      end
  | [] => false
  end.

(** The mediator states a host can hold: none at first, then what
    [state_transition] returned, whatever the state change, the channels
    and the block were. *)
Inductive reachable : option MediatorTransferState -> Prop :=
  | reachable_init : reachable None
  | reachable_step mediator_state state_change w block_number iteration w1 :
      reachable mediator_state ->
      state_transition mediator_state state_change w block_number
      = Ok (iteration, w1) ->
      reachable (new_state iteration).

(** The host loop: the state changes are applied in turn, each at its
    block, to the state and the channels the one before left. *)
Fixpoint run (changes : list (StateChange * Z))
    (mediator_state : option MediatorTransferState) (w : World)
  : result (option MediatorTransferState * World) :=
  match changes with
  | [] => Ok (mediator_state, w)
  | (state_change, block_number) :: rest =>
      '(iteration, w1) ← state_transition mediator_state state_change w block_number;
      run rest (new_state iteration) w1
  end.

End reachability.

End Vocabulary.

(** * An instance of the imported modules, and the states of the
      scenarios *)

Module Example.
Import Mediator Vocabulary.

Definition with_locks (locked : gmap string HashTimeLockState)
    (unlocked : gmap string string) (e : NettingChannelEndState) :=
  {| address := address e; contract_balance := contract_balance e;
     secrethashes_to_lockedlocks := locked;
     secrethashes_to_unlockedlocks := unlocked |}.

Definition with_partner_state (e : NettingChannelEndState) (c : NettingChannelState) :=
  {| identifier := identifier c; token_address := token_address c;
     token_network_identifier := token_network_identifier c;
     reveal_timeout := reveal_timeout c; settle_timeout := settle_timeout c;
     our_state := our_state c; partner_state := e;
     channel_status := channel_status c |}.

(** An end that holds the lock of [h] learns its secret. *)
Definition register_end (e : NettingChannelEndState) (s h : string) :=
  match secrethashes_to_lockedlocks e !! h with
  | Some _ =>
      with_locks (delete h (secrethashes_to_lockedlocks e))
        (<[h := s]> (secrethashes_to_unlockedlocks e)) e
  | None => e
  end.

Definition register_channel (c : NettingChannelState) (s h : string) :=
  with_partner_state (register_end (partner_state c) s h)
    (with_our_state (register_end (our_state c) s h) c).

Definition add_lock (l : HashTimeLockState) (e : NettingChannelEndState) :=
  with_locks (<[lock_secrethash l := l]> (secrethashes_to_lockedlocks e))
    (secrethashes_to_unlockedlocks e) e.

Definition remove_lock (h : string) (e : NettingChannelEndState) :=
  with_locks (delete h (secrethashes_to_lockedlocks e))
    (delete h (secrethashes_to_unlockedlocks e)) e.

Definition unsigned_transfer (c : NettingChannelState) (initiator target : string)
    (amount payment expiration : Z) (h : string) : LockedTransferUnsignedState :=
  {| payment_identifier := payment; token := token_address c;
     balance_proof :=
       {| nonce := 1; transferred_amount := 0; locked_amount := amount;
          locksroot := h; channel_identifier := identifier c; sender := tt |};
     lock := {| amount := amount; expiration := expiration; lock_secrethash := h |};
     initiator := initiator; target := target |}.

#[export] Instance imports : Imports := {|
  Rng := Z;
  message_identifier_from_prng g := (g, g + 1);
  MAXIMUM_PENDING_TRANSFERS := 160;
  DEFAULT_NUMBER_OF_CONFIRMATIONS_BLOCK := 5;
  CHANNEL_IDENTIFIER_GLOBAL_QUEUE := 0;
  get_number_of_pending_transfers e :=
    Z.of_nat (size (secrethashes_to_lockedlocks e));
  get_distributable our partner := contract_balance our;
  get_status c := channel_status c;
  is_valid_amount e a := 0 <? a;
  is_secret_known e h := bool_decide (is_Some (secrethashes_to_unlockedlocks e !! h));
  get_secret e h := secrethashes_to_unlockedlocks e !! h;
  get_lock e h := secrethashes_to_lockedlocks e !! h;
  compute_proof_for_lock e s l := {| proof_lock := l; proof_secret := s |};
  register_secret := register_channel;
  register_onchain_secret := register_channel;
  delete_secrethash_endstate e h := remove_lock h e;
  send_lockedtransfer c initiator target amount message payment expiration h :=
    let t := unsigned_transfer c initiator target amount payment expiration h in
    ({| slt_recipient := address (partner_state c);
        slt_message_identifier := message; transfer := t |},
     with_our_state (add_lock (lock t) (our_state c)) c);
  send_refundtransfer c initiator target amount message payment expiration h :=
    let t := unsigned_transfer c initiator target amount payment expiration h in
    (SendRefundTransfer (address (partner_state c)) message t,
     with_our_state (add_lock (lock t) (our_state c)) c);
  send_unlock c payment message s h :=
    (SendUnlock (address (partner_state c)) message payment s h,
     with_our_state (remove_lock h (our_state c)) c);
  events_for_expired_lock c l g :=
    (SendLockExpired (address (partner_state c)) g (lock_secrethash l), c, g + 1);
  handle_receive_lockedtransfer c t :=
    if amount (lock t) <=? contract_balance (partner_state c)
    then (true, [], with_partner_state (add_lock (lock t) (partner_state c)) c)
    else (false, [ChannelEvent "invalid locked transfer"], c);
  channel_handle_refundtransfer received c refund :=
    if bool_decide (lock_secrethash (lock received) = refund_hashlock refund)
       && bool_decide (amount (lock received) = refund_amount refund)
    then (true, [], with_partner_state (add_lock (lock received) (partner_state c)) c)
    else (false, [ChannelEvent "invalid refund transfer"], c);
  channel_handle_unlock c unlock :=
    if existsb (fun kv => bool_decide (kv.2 = unlock_secret unlock))
         (map_to_list (secrethashes_to_unlockedlocks (partner_state c)))
    then (true, [], c)
    else (false, [ChannelEvent "invalid unlock"], c);
  handle_receive_lock_expired channel_state state_change :=
    match channel_state with
    | Some c =>
        Ok ([], Some (with_partner_state
                        (remove_lock (expired_secrethash state_change)
                           (partner_state c)) c))
    | None => Raise AttributeError
    end;
|}.

(** ** The states of the scenarios *)

Definition end_state (a : string) (balance : Z)
    (locked : gmap string HashTimeLockState) (unlocked : gmap string string) :=
  {| address := a; contract_balance := balance;
     secrethashes_to_lockedlocks := locked;
     secrethashes_to_unlockedlocks := unlocked |}.

Definition channel (id reveal settle : Z) (our partner : NettingChannelEndState) :=
  {| identifier := id; token_address := "token";
     token_network_identifier := "network";
     reveal_timeout := reveal; settle_timeout := settle;
     our_state := our; partner_state := partner;
     channel_status := CHANNEL_STATE_OPENED |}.

Definition unit_lock (expiration : Z) : HashTimeLockState :=
  {| amount := 10; expiration := expiration; lock_secrethash := "H" |}.

Definition unit_transfer {S} (channel_id : Z) (from : S) (expiration : Z)
  : LockedTransferState S :=
  {| payment_identifier := 1; token := "token";
     balance_proof :=
       {| nonce := 1; transferred_amount := 0; locked_amount := 10;
          locksroot := "H"; channel_identifier := channel_id; sender := from |};
     lock := unit_lock expiration;
     initiator := "initiator"; target := "target" |}.

Definition mediation_pair (payer_channel : Z) (payer : string) (payee_channel : Z)
    (payee : string) (expiration : Z) (payer_st payee_st : TransferState) :=
  {| payer_transfer := unit_transfer payer_channel payer expiration;
     payee_address := payee;
     payee_transfer := unit_transfer payee_channel tt expiration;
     payer_state := payer_st; payee_state := payee_st |}.

(** S6: one pair, payer lock expiring at block 100, payer channel with a
    reveal timeout of 10 whose partner end has registered the secret. *)
Definition s6_pair : MediationPairState :=
  mediation_pair 1 "payer" 2 "payee" 100 payer_secret_revealed payee_secret_revealed.

Definition s6_state : MediatorTransferState :=
  {| secrethash := "H"; secret := Some "S"; transfers_pair := [s6_pair] |}.

Definition s6_payer_channel : NettingChannelState :=
  channel 1 10 50 (end_state "us" 0 ∅ ∅) (end_state "payer" 10 ∅ {["H" := "S"]}).

Definition s6_payee_channel : NettingChannelState :=
  channel 2 10 50 (end_state "us" 10 ∅ {["H" := "S"]}) (end_state "payee" 0 ∅ ∅).

Definition s6_world : World :=
  {| channels := {[1 := s6_payer_channel; 2 := s6_payee_channel]}; prng := 0 |}.

(** What the Block transition returns on it from block 90 on. *)
Definition s6_reveal : TransitionResult :=
  {| new_state := Some s6_state;
     events := [ContractSendSecretReveal 100 (Some "S")] |}.

(** The same pair while our end of the payee channel still holds the lock
    as locked. *)
Definition locked_payee_channel : NettingChannelState :=
  channel 2 10 50 (end_state "us" 10 {["H" := unit_lock 100]} ∅)
    (end_state "payee" 0 ∅ ∅).

Definition locked_world : World :=
  {| channels := {[1 := s6_payer_channel; 2 := locked_payee_channel]}; prng := 0 |}.

(** S1: one pair whose locks expire at block 30, between a payer channel
    with a reveal timeout of 5 and a payee channel. *)
Definition s1_pair (payer_st payee_st : TransferState) : MediationPairState :=
  mediation_pair 1 "payer" 2 "payee" 30 payer_st payee_st.

Definition s1_state (known : option string) (payer_st payee_st : TransferState)
  : MediatorTransferState :=
  {| secrethash := "H"; secret := known;
     transfers_pair := [s1_pair payer_st payee_st] |}.

Definition s1_world (reveal : Z) : World :=
  {| channels :=
       {[1 := channel 1 reveal 50 (end_state "us" 0 ∅ ∅)
                (end_state "payer" 10 ∅ {["H" := "S"]});
         2 := channel 2 5 50 (end_state "us" 10 ∅ ∅) (end_state "payee" 0 ∅ ∅)]};
     prng := 0 |}.

(** The payee was paid, the payer has not paid yet. *)
Definition s1_paid : MediatorTransferState :=
  s1_state (Some "S") payer_secret_revealed payee_balance_proof.

(** What Block 31 returns on [s1_paid]. *)
Definition s1_expired : TransitionResult :=
  {| new_state := Some (s1_state (Some "S") payer_expired payee_expired);
     events := [EventUnlockClaimFailed 1 "H" "lock expired";
                EventUnlockFailed 1 "H" "lock expired";
                ContractSendSecretReveal 30 (Some "S")] |}.

(** [s1_world 5] while our end of channel 2 still holds the lock as
    locked. *)
Definition s1_locked_world : World :=
  {| channels :=
       {[1 := channel 1 5 50 (end_state "us" 0 ∅ ∅)
                (end_state "payer" 10 ∅ {["H" := "S"]});
         2 := channel 2 5 50 (end_state "us" 10 {["H" := unit_lock 30]} ∅)
                (end_state "payee" 0 ∅ ∅)]};
     prng := 0 |}.

(** [s1_world 5] once channel 2 is settled and gone from the channel
    map. *)
Definition s1_settled_world : World :=
  {| channels :=
       {[1 := channel 1 5 50 (end_state "us" 0 ∅ ∅)
                (end_state "payer" 10 ∅ {["H" := "S"]})]};
     prng := 0 |}.

(** The state changes of the payee of [s1_pair]: a refund and a reveal of
    the secret as [state_change.py] builds them, and the reveal of the
    secret seen on the chain. *)
Definition refund : ReceiveTransferRefund :=
  {| refund_identifier := 1; refund_hashlock := "H"; refund_amount := 10;
     refund_sender := "payee" |}.

Definition offchain_reveal : ReceiveSecretReveal :=
  {| reveal_identifier := 1; reveal_secret := "S"; reveal_target := "target";
     reveal_sender := "payee" |}.

Definition onchain_reveal : ContractReceiveSecretReveal :=
  {| onchain_secret := "S"; onchain_secrethash := "H"; onchain_sender := "payee" |}.

(** A transfer of 10 tokens expiring at block 30 offered on channel 1,
    with channel 2 as the only route; [reveal] is the reveal timeout of
    channel 1, [deposit] what we can still send on channel 2. *)
Definition offer : ActionInitMediator :=
  {| routes := [{| node_address := "payee"; route_channel_identifier := 2 |}];
     from_route := {| node_address := "payer"; route_channel_identifier := 1 |};
     from_transfer := unit_transfer 1 "payer" 30 |}.

Definition offer_world (reveal deposit : Z) : World :=
  {| channels :=
       {[1 := channel 1 reveal 50 (end_state "us" 0 ∅ ∅) (end_state "payer" 10 ∅ ∅);
         2 := channel 2 5 50 (end_state "us" deposit ∅ ∅) (end_state "payee" 0 ∅ ∅)]};
     prng := 0 |}.

(** The state and the channels once the offer is mediated over channel 2. *)
Definition mediating : MediatorTransferState :=
  s1_state None payer_pending payee_pending.

Definition mediating_world (reveal : Z) : World :=
  {| channels :=
       {[1 := channel 1 reveal 50 (end_state "us" 0 ∅ ∅)
                (end_state "payer" 10 {["H" := unit_lock 30]} ∅);
         2 := channel 2 5 50 (end_state "us" 10 {["H" := unit_lock 30]} ∅)
                (end_state "payee" 0 ∅ ∅)]};
     prng := 1 |}.

Definition mediated : TransitionResult :=
  {| new_state := Some mediating;
     events := [SendMediatedTransfer
                  {| slt_recipient := "payee"; slt_message_identifier := 0;
                     transfer := unit_transfer 2 tt 30 |}] |}.

(** The channels once the offer is received and no channel can carry it
    on or back. *)
Definition stuck_world : World :=
  {| channels :=
       {[1 := channel 1 5 50 (end_state "us" 0 ∅ ∅)
                (end_state "payer" 10 {["H" := unit_lock 30]} ∅);
         2 := channel 2 5 50 (end_state "us" 0 ∅ ∅) (end_state "payee" 0 ∅ ∅)]};
     prng := 0 |}.

Definition s1_payer_channel : NettingChannelState :=
  channel 1 5 50 (end_state "us" 0 ∅ ∅)
    (end_state "payer" 10 {["H" := unit_lock 30]} ∅).

Definition s1_payee_channel : NettingChannelState :=
  channel 2 5 50 (end_state "us" 10 {["H" := unit_lock 30]} ∅)
    (end_state "payee" 0 ∅ ∅).

End Example.

(** * A codec and a host for the transport *)

Module Wire.
Import Protocol.

(** A datagram is a letter for the kind of the message, the 20 bytes of
    the sender and the rest. *)
Definition wire_encode (message : Message) : string :=
  match message with
  | Ack a echo => "A" +:+ a +:+ echo
  | Ping a _ => "P" +:+ a
  | SignedMessage a _ body => "M" +:+ a +:+ body
  | UnsignedMessage body => "U" +:+ body
  end.

Definition wire_decode (data : string) : result Message :=
  match data with
  | String "A"%char rest => Ok (Ack (substring 0 20 rest) (substring 20 (String.length rest) rest))
  | String "P"%char rest => Ok (Ping (substring 0 20 rest) 0)
  | String "M"%char rest =>
      Ok (SignedMessage (substring 0 20 rest) None
            (substring 20 (String.length rest) rest))
  | String "U"%char rest => Ok (UnsignedMessage rest)
  | _ => Raise (OtherException "InvalidProtocolMessage")
  end.

(** The host counts the messages it handled and rejects the ones whose
    body is [stale] with [InvalidNonce]; the hash is the identity. *)
#[export] Instance imports : Imports := {|
  sha3 data := data;
  isaddress a := (String.length a =? 20)%nat;
  encode := wire_encode;
  decode := wire_decode;
  UDP_MAX_MESSAGE_SIZE := 1200;
  Host := nat;
  on_message handled message echohash :=
    match message with
    | SignedMessage _ _ "stale" => (handled, Some InvalidNonce)
    | _ => (S handled, None)
    end;
|}.

Definition us : string := "uuuuuuuuuuuuuuuuuuuu".
Definition peer : string := "pppppppppppppppppppp".

Definition fresh (ports : gmap string (string * Z)) : RaidenProtocol :=
  {| address := us; host := 0%nat; server_started := true; host_ports := ports;
     channel_queue := ∅; greenlets := []; addresses_events := ∅;
     receivedhashes_to_acks := ∅; senthashes_to_states := ∅;
     nodeaddresses_to_nonces := ∅; async_results := []; effects := [] |}.

Definition hello : Message := SignedMessage peer None "hello".
Definition stale : Message := SignedMessage peer None "stale".

Definition peer_at (port : Z) : gmap string (string * Z) :=
  {[peer := ("10.0.0.1", port)]}.

(** [fresh] after it sent [hello] to [peer]. *)
Definition hello_sent : RaidenProtocol :=
  {| address := us; host := 0%nat; server_started := true;
     host_ports := peer_at 4000;
     channel_queue := {[(peer, "") := [wire_encode hello]]};
     greenlets := [healthcheck peer; single_queue_send peer ""];
     addresses_events := {[peer := (false, false)]};
     receivedhashes_to_acks := ∅;
     senthashes_to_states :=
       {[wire_encode hello +:+ peer
         := {| async_result := 0; receiver_address := peer |}]};
     nodeaddresses_to_nonces := {[peer := 0]};
     async_results := [None]; effects := [] |}.

(** [fresh] after it received [hello] from [peer]. *)
Definition hello_ack : string := wire_encode (Ack us (wire_encode hello +:+ us)).

Definition hello_received (port : Z) : RaidenProtocol :=
  {| address := us; host := 1%nat; server_started := true;
     host_ports := peer_at port;
     channel_queue := ∅; greenlets := []; addresses_events := ∅;
     receivedhashes_to_acks :=
       {[wire_encode hello +:+ us := (("10.0.0.1", 4000), hello_ack)]};
     senthashes_to_states := ∅;
     nodeaddresses_to_nonces := ∅; async_results := [];
     effects := [CallOnMessage hello (wire_encode hello +:+ us);
                 TransportSend ("10.0.0.1", 4000) hello_ack] |}.

(** [fresh] after it received [stale] once and twice: the handler was
    called each time and nothing was sent. *)
Definition stale_once : RaidenProtocol :=
  with_effect (CallOnMessage stale (wire_encode stale +:+ us)) (fresh (peer_at 4000)).

Definition stale_twice : RaidenProtocol :=
  with_effect (CallOnMessage stale (wire_encode stale +:+ us)) stale_once.

(** [hello_received 5000], where discovery has moved the peer, after it
    received [hello] again. *)
Definition hello_received_again : RaidenProtocol :=
  {| address := us; host := 1%nat; server_started := true;
     host_ports := peer_at 5000;
     channel_queue := ∅; greenlets := []; addresses_events := ∅;
     receivedhashes_to_acks :=
       {[wire_encode hello +:+ us := (("10.0.0.1", 5000), hello_ack)]};
     senthashes_to_states := ∅;
     nodeaddresses_to_nonces := ∅; async_results := [];
     effects := [CallOnMessage hello (wire_encode hello +:+ us);
                 TransportSend ("10.0.0.1", 4000) hello_ack;
                 TransportSend ("10.0.0.1", 5000) hello_ack] |}.

End Wire.

(** * Vocabulary of the further properties *)

Module Laws.
Import Mediator.

(** Two pairs that differ at most by the states of their sides. *)
Definition same_transfers (p q : MediationPairState) : Prop :=
  payer_transfer p = payer_transfer q
  /\ payee_address p = payee_address q
  /\ payee_transfer p = payee_transfer q.

(** What a transition keeps of a mediator state: the secrethash, the
    secret once it is set, and the pairs with their transfers, to which at
    most one pair is added at the end. *)
Definition extends_history (before after : MediatorTransferState) : Prop :=
  secrethash after = secrethash before
  /\ (forall s, secret before = Some s -> secret after = Some s)
  /\ exists kept added,
       transfers_pair after = kept ++ added
       /\ Forall2 same_transfers (transfers_pair before) kept
       /\ (length added <= 1)%nat.

(** What [is_send_transfer_almost_equal] compares: the terms of a locked
    transfer that do not depend on the channel it travels on. *)
Definition transfer_terms {S} (t : LockedTransferState S)
  : Z * string * HashTimeLockState * string * string :=
  (payment_identifier t, token t, lock t, initiator t, target t).

(** The channel of the route is the payer or the payee channel of one of
    the pairs. *)
Definition route_is_used (transfers_pair : list MediationPairState)
    (route : RouteState) : bool :=
  existsb
    (fun pair_ =>
       bool_decide (route_channel_identifier route
                    = channel_identifier (balance_proof (payer_transfer pair_)))
       || bool_decide (route_channel_identifier route
                       = channel_identifier (balance_proof (payee_transfer pair_))))
    transfers_pair.

(** The payee of the pair has revealed the secret and the payer has not
    been sent it yet. *)
Definition owes_reveal (pair_ : MediationPairState) : bool :=
  state_in (payee_state pair_) STATE_SECRET_KNOWN
  && bool_decide (payer_state pair_ = payer_pending).

(** The pair once the secret is passed on to its payer. *)
Definition reveal_passed_on (pair_ : MediationPairState) : MediationPairState :=
  if owes_reveal pair_ then set_payer_state payer_secret_revealed pair_ else pair_.

Section laws.
Context `{Imports}.

(** What the loop of [events_for_revealsecret] adds at one pair to the
    events and takes from the generator. *)
Definition reveal_step (s : string) (pair_ : MediationPairState)
    (acc : list Event * World) : list Event * World :=
  if owes_reveal pair_
  then (acc.1 ++ [SendRevealSecret (sender (balance_proof (payer_transfer pair_)))
                    CHANNEL_IDENTIFIER_GLOBAL_QUEUE (next_message_identifier acc.2).1 s],
        (next_message_identifier acc.2).2)
  else acc.

End laws.

End Laws.

(** * Further states of the scenarios *)

Module Cases.
Import Mediator Vocabulary Example.

(** The channels once the offer of [offer] is received on channel 1 and
    before it is forwarded. *)
Definition received_world : World :=
  {| channels :=
       {[1 := s1_payer_channel;
         2 := channel 2 5 50 (end_state "us" 10 ∅ ∅) (end_state "payee" 0 ∅ ∅)]};
     prng := 0 |}.

(** The channels of [mediating_world 5] once the payee is paid: our end of
    channel 2 no longer holds the lock. *)
Definition paid_world : World :=
  {| channels :=
       {[1 := s1_payer_channel;
         2 := channel 2 5 50 (end_state "us" 10 ∅ ∅) (end_state "payee" 0 ∅ ∅)]};
     prng := 2 |}.

(** The channels of [mediating_world 5] once the payee has revealed the
    secret and is paid, and the transition result of that reveal. *)
Definition revealed_world : World :=
  {| channels := channels (s1_world 5); prng := 3 |}.

Definition revealed : TransitionResult :=
  {| new_state := Some s1_paid;
     events := [SendRevealSecret "payer" 0 1 "S";
                SendUnlock "payee" 2 1 "S" "H"; EventUnlockSuccess 1 "H"] |}.

(** The unlock of the payer of [s1_pair], and channels in which the payer
    end of channel 1 has registered the secret. *)
Definition payer_unlock : ReceiveUnlock :=
  {| unlock_message_identifier := 9; unlock_secret := "S";
     unlock_balance_proof :=
       {| nonce := 2; transferred_amount := 10; locked_amount := 0;
          locksroot := ""; channel_identifier := 1; sender := "payer" |} |}.

(** Channels without the channel of the payer. *)
Definition payee_only_world : World :=
  {| channels := {[2 := s1_payee_channel]}; prng := 1 |}.

(** Channels in which channel 1, on which the offer came, is the only one
    and can carry a refund, before and after the refund is sent on it. *)
Definition refundable_world : World :=
  {| channels :=
       {[1 := channel 1 5 50 (end_state "us" 10 ∅ ∅)
                (end_state "payer" 10 {["H" := unit_lock 30]} ∅)]};
     prng := 0 |}.

Definition refunded_world : World :=
  {| channels :=
       {[1 := channel 1 5 50 (end_state "us" 10 {["H" := unit_lock 30]} ∅)
                (end_state "payer" 10 {["H" := unit_lock 30]} ∅)]};
     prng := 1 |}.

End Cases.

(** * The timeouts of the retries *)

Module Backoff.

(** ** [timeout_exponential_backoff]

    The generator as the state it is suspended in: its arguments and
    locals, and the [yield] it resumes after.  Timeouts are integers. *)

Inductive Resume : Type :=
  | at_start        (* not started *)
  | after_first     (* after the first [yield timeout] *)
  | in_retries      (* after the [yield] of the first loop *)
  | in_doubling     (* after the [yield] of the second loop *)
  | in_maximum.     (* after the [yield] of the last loop *)

(** [tries] is unbound until the generator resumes after its first
    [yield]; it is 0 here until then. *)
Record Generator : Type := {
  retries : Z;
  timeout : Z;
  maximum : Z;
  tries : Z;
  resume : Resume;
}.

Definition timeout_exponential_backoff (retries timeout maximum : Z) : Generator :=
  {| retries := retries; timeout := timeout; maximum := maximum;
     tries := 0; resume := at_start |}.

(** The last loop, [while True: yield maximum]. *)
Definition forever (g : Generator) : Z * Generator :=
  (maximum g,
   {| retries := retries g; timeout := timeout g; maximum := maximum g;
      tries := tries g; resume := in_maximum |}).

(** The second loop, from its test. *)
Definition doubling (g : Generator) : Z * Generator :=
  if timeout g <? maximum g
  then
    let timeout1 := Z.min (timeout g * 2) (maximum g) in
    (timeout1,
     {| retries := retries g; timeout := timeout1; maximum := maximum g;
        tries := tries g; resume := in_doubling |})
  else forever g.

(** The first loop, from its test. *)
Definition retrying (g : Generator) : Z * Generator :=
  if tries g <? retries g
  then
    (timeout g,
     {| retries := retries g; timeout := timeout g; maximum := maximum g;
        tries := tries g + 1; resume := in_retries |})
  else doubling g.

(** [next(generator)]: the value of the next [yield] and the generator
    suspended there. *)
Definition next (g : Generator) : Z * Generator :=
  match resume g with
  | at_start =>
      (timeout g,
       {| retries := retries g; timeout := timeout g; maximum := maximum g;
          tries := tries g; resume := after_first |})
  | after_first =>
      retrying {| retries := retries g; timeout := timeout g; maximum := maximum g;
                  tries := 1; resume := after_first |}
  | in_retries => retrying g
  | in_doubling => doubling g
  | in_maximum => forever g
  end.

(** [list(itertools.islice(generator, n))]. *)
Fixpoint islice (g : Generator) (n : nat) : list Z :=
  match n with
  | O => []
  | S n' => let '(value, g1) := next g in value :: islice g1 n'
  end.

(** The [k]-th timeout, from 0, for a positive first timeout: [timeout]
    for the first [max(retries, 1)] tries, then doubled at each try and
    capped at [maximum]. *)
Definition kth_timeout (retries timeout maximum : Z) (k : Z) : Z :=
  if k <? Z.max retries 1
  then timeout
  else Z.min (timeout * 2 ^ (k - Z.max retries 1 + 1)) maximum.

(** What the generator of the arguments [r], [t] and [m] holds once it has
    yielded [k] values. *)
Definition yielded (r t m : Z) (k : Z) (g : Generator) : Prop :=
  retries g = r /\ maximum g = m
  /\ match resume g with
     | at_start => k = 0 /\ timeout g = t
     | after_first => k = 1 /\ timeout g = t
     | in_retries => k = tries g /\ 2 <= tries g <= r /\ timeout g = t
     | in_doubling =>
         Z.max r 1 < k /\ timeout g = Z.min (t * 2 ^ (k - Z.max r 1)) m
     | in_maximum => Z.max r 1 < k /\ m <= t * 2 ^ (k - Z.max r 1 + 1)
     end.

End Backoff.

(** * Vocabulary of the further properties of the transport *)

Module Delivery.
Import Protocol.

Section delivery.
Context `{Imports}.

(** Every future a sent message waits on has been created. *)
Definition futures_allocated (self : RaidenProtocol) : Prop :=
  forall echohash waitack,
    senthashes_to_states self !! echohash = Some waitack ->
    (async_result waitack < length (async_results self))%nat.

(** The tasks are the ones the tables call for: no task twice, a health
    check for exactly the addresses that have health events, a sending
    task for exactly the queues, and health events for the receiver of
    every queue. *)
Definition tasks_match (self : RaidenProtocol) : Prop :=
  NoDup (greenlets self)
  /\ (forall receiver,
        healthcheck receiver ∈ greenlets self
        <-> is_Some (addresses_events self !! receiver))
  /\ (forall receiver token,
        single_queue_send receiver token ∈ greenlets self
        <-> is_Some (channel_queue self !! (receiver, token)))
  /\ (forall receiver token,
        is_Some (channel_queue self !! (receiver, token)) ->
        is_Some (addresses_events self !! receiver)).

(** What [receive] leaves as it is: everything but the host, the cache of
    acks, the values of the futures and the effects. *)
Definition same_sending (self self1 : RaidenProtocol) : Prop :=
  address self1 = address self
  /\ server_started self1 = server_started self
  /\ host_ports self1 = host_ports self
  /\ channel_queue self1 = channel_queue self
  /\ greenlets self1 = greenlets self
  /\ addresses_events self1 = addresses_events self
  /\ nodeaddresses_to_nonces self1 = nodeaddresses_to_nonces self
  /\ senthashes_to_states self1 = senthashes_to_states self
  /\ length (async_results self1) = length (async_results self).

End delivery.

End Delivery.

(** * Properties of the mediator *)

Import Mediator Vocabulary Example.

(** C3: under the three assertions of [is_safe_to_wait], it returns true
    exactly when [lock_expiration - block_number > reveal_timeout]: true
    when the difference is [reveal_timeout + 1], false when it is
    [reveal_timeout]. *)
Theorem is_safe_to_wait_iff (lock_expiration reveal_timeout block_number : Z) :
  block_number > 0 -> reveal_timeout > 0 -> lock_expiration > reveal_timeout ->
  (exists safe msg,
      is_safe_to_wait lock_expiration reveal_timeout block_number = Ok (safe, msg)
      /\ (safe = true <-> lock_expiration - block_number > reveal_timeout))
  /\ (lock_expiration - block_number = reveal_timeout + 1 ->
      fst <$> is_safe_to_wait lock_expiration reveal_timeout block_number = Ok true)
  /\ (lock_expiration - block_number = reveal_timeout ->
      fst <$> is_safe_to_wait lock_expiration reveal_timeout block_number = Ok false).
Proof.
  intros Hb Hr He. unfold is_safe_to_wait, assert.
  destruct (Z.ltb_spec 0 block_number); [|lia].
  destruct (Z.ltb_spec 0 reveal_timeout); [|lia].
  destruct (Z.ltb_spec reveal_timeout lock_expiration); [|lia].
  cbn. destruct (Z.ltb_spec reveal_timeout (lock_expiration - block_number)).
  - split; [eexists _, _; split; [reflexivity|]; split; [lia|done]|].
    split; [done|lia].
  - split; [eexists _, _; split; [reflexivity|]; split; [done|lia]|].
    split; [lia|done].
Qed.

Lemma is_safe_to_wait_iff_witness :
  (exists safe msg,
      is_safe_to_wait 100 10 91 = Ok (safe, msg)
      /\ (safe = true <-> 100 - 91 > 10))
  /\ (100 - 91 = 10 + 1 -> fst <$> is_safe_to_wait 100 10 91 = Ok true)
  /\ (100 - 91 = 10 -> fst <$> is_safe_to_wait 100 10 91 = Ok false).
Proof. apply (is_safe_to_wait_iff 100 10 91); lia. Defined.

(** What [is_safe_to_wait] answers when it returns. *)
Lemma is_safe_to_wait_Ok lock_expiration reveal_timeout block_number safe msg :
  is_safe_to_wait lock_expiration reveal_timeout block_number = Ok (safe, msg) ->
  safe = (reveal_timeout <? lock_expiration - block_number)
  /\ 0 < block_number /\ 0 < reveal_timeout /\ reveal_timeout < lock_expiration.
Proof.
  unfold is_safe_to_wait, assert.
  destruct (Z.ltb_spec 0 block_number); [|done].
  destruct (Z.ltb_spec 0 reveal_timeout); [|done].
  destruct (Z.ltb_spec reveal_timeout lock_expiration); [|done].
  cbn. destruct (reveal_timeout <? lock_expiration - block_number);
    intros [= <- <-]; auto.
Qed.

Lemma is_safe_to_wait_total lock_expiration reveal_timeout block_number :
  0 < block_number -> 0 < reveal_timeout -> reveal_timeout < lock_expiration ->
  exists msg,
    is_safe_to_wait lock_expiration reveal_timeout block_number
    = Ok (reveal_timeout <? lock_expiration - block_number, msg).
Proof.
  intros. unfold is_safe_to_wait, assert.
  destruct (Z.ltb_spec 0 block_number); [|lia].
  destruct (Z.ltb_spec 0 reveal_timeout); [|lia].
  destruct (Z.ltb_spec reveal_timeout lock_expiration); [|lia].
  cbn. destruct (reveal_timeout <? lock_expiration - block_number); eauto.
Qed.

(** ** Expiring pairs *)

Lemma expire_pair_events block_number pair_ events :
  expire_pair block_number pair_ events
  = ((expire_pair block_number pair_ []).1,
     events ++ (expire_pair block_number pair_ []).2).
Proof.
  unfold expire_pair.
  repeat case_match; simplify_eq/=; rewrite ?app_nil_r, <-?app_assoc; done.
Qed.

Lemma set_expired_pairs_loop_seq (pairs0 : list MediationPairState) block_number n :
  forall k (pairs : list MediationPairState) events,
    (k + n)%nat = length pairs ->
    drop k pairs = drop k pairs0 ->
    set_expired_pairs_loop
      (List.filter
         (fun i => match pairs0 !! i with
                   | Some pair_ => is_pending pair_
                   | None => false
                   end)
         (seq k n))
      pairs block_number events
    = (take k pairs ++ map (expired block_number) (drop k pairs),
       events ++ flat_map (expiry_events block_number) (drop k pairs)).
Proof.
  induction n as [|n IH]; intros k pairs events Hlen Hdrop.
  - cbn. rewrite drop_ge by lia. cbn. rewrite !app_nil_r, take_ge by lia. done.
  - assert (Hk : (k < length pairs)%nat) by lia.
    destruct (lookup_lt_is_Some_2 pairs k Hk) as [pair_ Hpair].
    assert (Hpair0 : pairs0 !! k = Some pair_).
    { rewrite <-(Nat.add_0_r k), <-lookup_drop, <-Hdrop, lookup_drop, Nat.add_0_r. done. }
    rewrite (drop_S _ _ _ Hpair). cbn [seq List.filter map flat_map].
    rewrite Hpair0. unfold expired at 1, expiry_events at 1.
    destruct (is_pending pair_) eqn:Hpend.
    + cbn [set_expired_pairs_loop]. rewrite Hpair, expire_pair_events.
      rewrite IH.
      * rewrite take_insert_lt by lia.
        rewrite drop_insert_lt by lia.
        rewrite (take_S_r _ _ _ Hpair).
        rewrite insert_app_r_alt by (rewrite length_take; lia).
        rewrite length_take, Nat.min_l by lia. rewrite Nat.sub_diag. cbn.
        rewrite <-!app_assoc. done.
      * rewrite length_insert. lia.
      * rewrite drop_insert_lt by lia.
        replace (S k) with (k + 1)%nat by lia.
        rewrite <-!drop_drop, Hdrop. done.
    + rewrite IH.
      * rewrite (take_S_r _ _ _ Hpair), <-!app_assoc. done.
      * lia.
      * replace (S k) with (k + 1)%nat by lia.
        rewrite <-!drop_drop, Hdrop. done.
Qed.

Lemma set_expired_pairs_spec (transfers_pair : list MediationPairState) block_number :
  set_expired_pairs transfers_pair block_number
  = (map (expired block_number) transfers_pair,
     flat_map (expiry_events block_number) transfers_pair).
Proof.
  unfold set_expired_pairs, get_pending_transfer_pairs.
  rewrite (set_expired_pairs_loop_seq transfers_pair block_number
             (length transfers_pair) 0 transfers_pair []); done.
Qed.

(** What the loop of [set_expired_pairs] does to a pending pair: each side
    expires exactly when [block_number] is past the expiration of its lock
    and the side is not expired yet, with one event. *)
Lemma expired_strict (block_number : Z) (pair_ : MediationPairState) :
  is_pending pair_ = true ->
  (block_number > expiration (lock (payer_transfer pair_)) ->
   payer_state pair_ <> payer_expired ->
   payer_state (expired block_number pair_) = payer_expired
   /\ List.filter is_claim_failed (expiry_events block_number pair_)
      = [EventUnlockClaimFailed (payment_identifier (payer_transfer pair_))
           (lock_secrethash (lock (payer_transfer pair_))) "lock expired"])
  /\ (block_number > expiration (lock (payee_transfer pair_)) ->
      payee_state pair_ <> payee_expired ->
      payee_state (expired block_number pair_) = payee_expired
      /\ List.filter is_unlock_failed (expiry_events block_number pair_)
         = [EventUnlockFailed (payment_identifier (payee_transfer pair_))
              (lock_secrethash (lock (payee_transfer pair_))) "lock expired"])
  /\ (block_number = expiration (lock (payer_transfer pair_)) ->
      payer_state (expired block_number pair_) = payer_state pair_
      /\ List.filter is_claim_failed (expiry_events block_number pair_) = [])
  /\ (block_number = expiration (lock (payee_transfer pair_)) ->
      payee_state (expired block_number pair_) = payee_state pair_
      /\ List.filter is_unlock_failed (expiry_events block_number pair_) = []).
Proof.
  intros Hpend.
  unfold expired, expiry_events, expire_pair. rewrite Hpend.
  repeat split; intros;
    repeat (case_bool_decide || case_match); simplify_eq/=;
    try done; try lia;
    repeat match goal with
      | H : (_ <? _) = true |- _ => apply Z.ltb_lt in H
      | H : (_ <? _) = false |- _ => apply Z.ltb_ge in H
      | H : _ && _ = true |- _ => apply andb_true_iff in H as [? ?]
      | H : _ && _ = false |- _ => apply andb_false_iff in H as [?|?]
      | H : negb _ = true |- _ => apply negb_true_iff in H
      | H : negb _ = false |- _ => apply negb_false_iff in H
      | H : bool_decide _ = true |- _ => apply bool_decide_eq_true in H
      | H : bool_decide _ = false |- _ => apply bool_decide_eq_false in H
      end; try done; try lia.
Qed.

Lemma expired_fields block_number pair_ :
  payer_transfer (expired block_number pair_) = payer_transfer pair_
  /\ payee_transfer (expired block_number pair_) = payee_transfer pair_
  /\ payee_address (expired block_number pair_) = payee_address pair_
  /\ (payer_state (expired block_number pair_) = payer_state pair_
      \/ payer_state (expired block_number pair_) = payer_expired)
  /\ (payee_state (expired block_number pair_) = payee_state pair_
      \/ payee_state (expired block_number pair_) = payee_expired).
Proof.
  unfold expired, expire_pair. repeat case_match; simplify_eq/=; auto 10.
Qed.

(** ** The sanity check *)

Lemma assert_Ok cond : assert cond = Ok tt <-> cond = true.
Proof. destruct cond; cbn; split; done. Qed.

Lemma result_unit_bind_Ok (m : result unit) (k : unit -> result unit) :
  (m ≫= k) = Ok tt <-> m = Ok tt /\ k tt = Ok tt.
Proof. destruct m as [[]|]; cbn; split; [done|tauto|done|intros [? _]; done]. Qed.

Lemma for_each_Ok {A} (f : A -> result unit) (l : list A) :
  for_each f l = Ok tt <-> Forall (fun x => f x = Ok tt) l.
Proof.
  induction l as [|x l IH]; cbn.
  - split; [constructor|done].
  - rewrite result_unit_bind_Ok, IH, Forall_cons. done.
Qed.

Lemma existsb_paid_iff (state : MediatorTransferState) :
  existsb (fun st => state_in st STATE_TRANSFER_PAID)
    (map payee_state (transfers_pair state) ++ map payer_state (transfers_pair state))
  = true <-> some_transfer_paid state.
Proof.
  rewrite existsb_exists. unfold some_transfer_paid. split.
  - intros (st & Hin & Hst). apply in_app_or in Hin as [Hin|Hin];
      apply in_map_iff in Hin as (pair_ & <- & Hin);
      exists pair_; rewrite list_elem_of_In; auto.
  - intros (pair_ & Hin & [Hst|Hst]); rewrite list_elem_of_In in Hin.
    + exists (payee_state pair_). split; [|done].
      apply in_or_app. left. by apply in_map.
    + exists (payer_state pair_). split; [|done].
      apply in_or_app. right. by apply in_map.
Qed.

Lemma sanity_check_Ok `{Imports} (state : MediatorTransferState) :
  sanity_check state = Ok tt <->
  (some_transfer_paid state -> secret state <> None)
  /\ (forall first_pair rest, transfers_pair state = first_pair :: rest ->
        secrethash state = lock_secrethash (lock (payer_transfer first_pair)))
  /\ Forall pair_is_sane (transfers_pair state)
  /\ Forall refund_is_sane
       (zip (removelast (transfers_pair state)) (tail (transfers_pair state))).
Proof.
  unfold sanity_check. rewrite !result_unit_bind_Ok, !for_each_Ok.
  f_equiv; [|f_equiv; [|f_equiv]].
  - rewrite <-existsb_paid_iff.
    destruct (existsb _ _).
    + rewrite assert_Ok, bool_decide_eq_true. tauto.
    + split; [done|auto].
  - destruct (transfers_pair state) as [|first_pair rest].
    + split; [done|auto].
    + rewrite assert_Ok, bool_decide_eq_true. split.
      * intros ? ? ? [= <- <-]. done.
      * eauto.
  - apply Forall_proper; [|done]. intros pair_. unfold pair_is_sane.
    rewrite !result_unit_bind_Ok, !assert_Ok. done.
  - apply Forall_proper; [|done]. intros [original refund]. unfold refund_is_sane.
    rewrite !result_unit_bind_Ok, !assert_Ok, !bool_decide_eq_true. done.
Qed.

Lemma clear_if_finalized_Some `{Imports} (iteration : TransitionResult) state :
  new_state (clear_if_finalized iteration) = Some state ->
  new_state iteration = Some state
  /\ forallb both_paid (transfers_pair state) = false
  /\ clear_if_finalized iteration = iteration.
Proof.
  unfold clear_if_finalized. destruct (new_state iteration) as [state1|] eqn:Hs.
  - destruct (forallb _ _) eqn:Hall; cbn; [done|].
    rewrite Hs. intros [= ->]. done.
  - rewrite Hs. done.
Qed.

(** What [state_transition] guarantees of the state it returns. *)
Lemma state_transition_Some `{Imports} mediator_state state_change w block_number
    iteration w1 state :
  state_transition mediator_state state_change w block_number = Ok (iteration, w1) ->
  new_state iteration = Some state ->
  sanity_check state = Ok tt /\ forallb both_paid (transfers_pair state) = false.
Proof.
  unfold state_transition. intros Hstep Hstate.
  match type of Hstep with (?m ≫= _) = _ => destruct m as [[iteration0 w0]|] end;
    [|done].
  cbn in Hstep.
  destruct (new_state iteration0) as [state0|] eqn:Hs0.
  - destruct (sanity_check state0) as [[]|] eqn:Hsane; [|done].
    cbn in Hstep. injection Hstep as <- <-.
    apply clear_if_finalized_Some in Hstate as (Hs & Hall & _).
    rewrite Hs0 in Hs. injection Hs as ->. done.
  - cbn in Hstep. injection Hstep as <- <-.
    apply clear_if_finalized_Some in Hstate as (Hs & _). congruence.
Qed.

Lemma reachable_Some `{Imports} state :
  reachable (Some state) ->
  sanity_check state = Ok tt /\ forallb both_paid (transfers_pair state) = false.
Proof.
  intros Hreach. inversion Hreach as [|? ? ? ? ? ? _ Hstep Hstate].
  by eapply state_transition_Some.
Qed.

(** C2: whenever [state_transition] returns a state, whatever the state
    change, a paid side of a pair in it comes with the secret set; so it is
    in every state the machine reaches. *)
Theorem paid_implies_secret `{Imports} :
  (forall mediator_state state_change w block_number iteration w1 state,
      state_transition mediator_state state_change w block_number
      = Ok (iteration, w1) ->
      new_state iteration = Some state ->
      some_transfer_paid state ->
      secret state <> None)
  /\ (forall state,
        reachable (Some state) -> some_transfer_paid state -> secret state <> None).
Proof.
  split.
  - intros * Hstep Hstate Hpaid.
    destruct (state_transition_Some _ _ _ _ _ _ _ Hstep Hstate) as [Hsane _].
    apply sanity_check_Ok in Hsane as [Hsecret _]. auto.
  - intros state Hreach Hpaid.
    destruct (reachable_Some _ Hreach) as [Hsane _].
    apply sanity_check_Ok in Hsane as [Hsecret _]. auto.
Qed.

(** C7: [handle_refundtransfer] on a state whose secret is set returns the
    state as it is, no event, and touches neither the channels nor the
    generator; and so does [state_transition] on every state the machine
    reaches. *)
Theorem refund_ignored_once_secret_known `{Imports}
    (state : MediatorTransferState) (state_change : ReceiveTransferRefund)
    (w : World) (block_number : Z) :
  secret state <> None ->
  handle_refundtransfer state state_change w block_number
  = Ok ({| new_state := Some state; events := [] |}, w)
  /\ (reachable (Some state) ->
      state_transition (Some state) (SCReceiveTransferRefund state_change) w
        block_number
      = Ok ({| new_state := Some state; events := [] |}, w)).
Proof.
  intros Hsecret.
  assert (Hhandle : handle_refundtransfer state state_change w block_number
                    = Ok ({| new_state := Some state; events := [] |}, w)).
  { unfold handle_refundtransfer. destruct (secret state); done. }
  split; [done|]. intros Hreach.
  destruct (reachable_Some _ Hreach) as [Hsane Hall].
  unfold state_transition. cbn. rewrite Hhandle. cbn. rewrite Hsane. cbn.
  unfold clear_if_finalized. cbn. rewrite Hall. done.
Qed.

(** ** The Block handler *)

Lemma Forall2_rev {A B} (R : A -> B -> Prop) (l : list A) (k : list B) :
  Forall2 R l k -> Forall2 R (rev l) (rev k).
Proof.
  induction 1 as [|x y l k Hxy _ IH]; cbn; [constructor|].
  apply Forall2_app; [done|]. repeat constructor. done.
Qed.

(** The references to the pending pairs point to the pending pairs. *)
Lemma pending_refs_from (transfers_pair : list MediationPairState) :
  forall (l : list MediationPairState) k,
    (forall j pair_, l !! j = Some pair_ -> transfers_pair !! (k + j)%nat = Some pair_) ->
    Forall2 (fun i pair_ => transfers_pair !! i = Some pair_)
      (List.filter
         (fun i => match transfers_pair !! i with
                   | Some pair_ => is_pending pair_
                   | None => false
                   end)
         (seq k (length l)))
      (List.filter is_pending l).
Proof.
  induction l as [|pair_ l IH]; intros k Hl; cbn; [constructor|].
  pose proof (Hl 0%nat pair_ eq_refl) as Hk. rewrite Nat.add_0_r in Hk.
  rewrite Hk.
  assert (Hrest : Forall2 (fun i pair_ => transfers_pair !! i = Some pair_)
            (List.filter
               (fun i => match transfers_pair !! i with
                         | Some pair_ => is_pending pair_
                         | None => false
                         end)
               (seq (S k) (length l)))
            (List.filter is_pending l)).
  { apply IH. intros j q Hj. replace (S k + j)%nat with (k + S j)%nat by lia.
    apply Hl. done. }
  destruct (is_pending pair_); [constructor|]; done.
Qed.

Lemma pending_refs (transfers_pair : list MediationPairState) :
  Forall2 (fun i pair_ => transfers_pair !! i = Some pair_)
    (get_pending_transfer_pairs transfers_pair)
    (List.filter is_pending transfers_pair).
Proof. apply pending_refs_from. intros j pair_ Hj. done. Qed.

Lemma onchain_secretreveal_loop_Ok `{Imports} chans
    (transfers_pair : list MediationPairState) block_number refs pairs reveals :
  Forall2 (fun i pair_ => transfers_pair !! i = Some pair_) refs pairs ->
  onchain_secretreveal_loop chans transfers_pair block_number refs = Ok reveals ->
  reveals = match find (reveal_is_due chans block_number) pairs with
            | Some pair_ => onchain_reveal_of chans pair_
            | None => []
            end.
Proof.
  induction 1 as [|i pair_ refs pairs Hi _ IH]; cbn.
  - intros [= <-]. done.
  - rewrite Hi. unfold get_payer_channel, reveal_is_due at 1, onchain_reveal_of.
    destruct (chans !! _) as [payer_channel|] eqn:Hc; [|done]. cbn.
    destruct (is_safe_to_wait _ _ _) as [[safe msg]|] eqn:Hsafe; [|done]. cbn.
    apply is_safe_to_wait_Ok in Hsafe as [-> _].
    destruct (negb _ && _) eqn:Hdue.
    + rewrite Hc. intros [= <-]. done.
    + done.
Qed.

Lemma events_for_onchain_secretreveal_Ok `{Imports} chans
    (transfers_pair : list MediationPairState) block_number reveals :
  events_for_onchain_secretreveal chans transfers_pair block_number = Ok reveals ->
  reveals = selected_onchain_reveal chans transfers_pair block_number.
Proof.
  unfold events_for_onchain_secretreveal, selected_onchain_reveal.
  apply onchain_secretreveal_loop_Ok, Forall2_rev, pending_refs.
Qed.

Lemma expiry_events_no_reveal block_number (transfers_pair : list MediationPairState) :
  List.filter is_onchain_reveal (flat_map (expiry_events block_number) transfers_pair)
  = [].
Proof.
  induction transfers_pair as [|pair_ l IH]; cbn; [done|].
  rewrite List.filter_app, IH, app_nil_r.
  unfold expiry_events, expire_pair. repeat case_match; simplify_eq/=; done.
Qed.

Lemma selected_onchain_reveal_filter `{Imports} chans
    (transfers_pair : list MediationPairState) block_number :
  List.filter is_onchain_reveal (selected_onchain_reveal chans transfers_pair block_number)
  = selected_onchain_reveal chans transfers_pair block_number.
Proof.
  unfold selected_onchain_reveal, onchain_reveal_of. repeat case_match; done.
Qed.

(** [handle_block] past its cleanup: the on-chain reveal, then the
    expiry of the pairs. *)
Lemma handle_block_main `{Imports} (state : MediatorTransferState)
    state_change_block_number (w : World) block_number first_pair rest channel_state :
  transfers_pair state = first_pair :: rest ->
  channels w !! channel_identifier (balance_proof (payee_transfer first_pair))
  = Some channel_state ->
  expired_locked_lock channel_state (secrethash state) state_change_block_number
  = None ->
  handle_block state state_change_block_number w block_number
  = (reveals ← events_for_onchain_secretreveal (channels w) (transfers_pair state)
                 block_number;
     Ok ({| new_state :=
              Some (with_pairs (map (expired block_number) (transfers_pair state))
                      state);
            events := flat_map (expiry_events block_number) (transfers_pair state)
                      ++ reveals |}, w)).
Proof.
  intros Hpairs Hc Hcleanup. unfold handle_block.
  rewrite Hpairs, Hc, Hcleanup, <-Hpairs.
  destruct (events_for_onchain_secretreveal _ _ _); [|done]. cbn.
  rewrite set_expired_pairs_spec. done.
Qed.

Lemma handle_block_Ok `{Imports} (state : MediatorTransferState)
    state_change_block_number (w : World) block_number iteration w1 :
  handle_block state state_change_block_number w block_number = Ok (iteration, w1) ->
  lock_cleanup_due state state_change_block_number w = false ->
  events_for_onchain_secretreveal (channels w) (transfers_pair state) block_number
  = Ok (selected_onchain_reveal (channels w) (transfers_pair state) block_number)
  /\ iteration
     = {| new_state :=
            Some (with_pairs (map (expired block_number) (transfers_pair state)) state);
          events := flat_map (expiry_events block_number) (transfers_pair state)
                    ++ selected_onchain_reveal (channels w) (transfers_pair state)
                         block_number |}
  /\ w1 = w.
Proof.
  intros Hblock Hdue. unfold lock_cleanup_due in Hdue.
  destruct (transfers_pair state) as [|first_pair rest] eqn:Hpairs.
  { unfold handle_block in Hblock. rewrite Hpairs in Hblock. done. }
  destruct (channels w !! _) as [channel_state|] eqn:Hc.
  2:{ unfold handle_block in Hblock. rewrite Hpairs, Hc in Hblock. done. }
  destruct (expired_locked_lock _ _ _) eqn:Hcleanup.
  { rewrite bool_decide_eq_false in Hdue. destruct Hdue. eauto. }
  rewrite (handle_block_main _ _ _ _ _ _ _ Hpairs Hc Hcleanup) in Hblock.
  rewrite <-Hpairs in *.
  destruct (events_for_onchain_secretreveal _ _ _) as [reveals|] eqn:Hreveals; [|done].
  cbn in Hblock. injection Hblock as <- <-.
  apply events_for_onchain_secretreveal_Ok in Hreveals as ->. done.
Qed.

Lemma clear_if_finalized_events `{Imports} (iteration : TransitionResult) :
  events (clear_if_finalized iteration) = events iteration.
Proof. unfold clear_if_finalized. repeat case_match; done. Qed.

Lemma state_transition_block_Ok `{Imports} (state : MediatorTransferState)
    state_change_block_number (w : World) block_number iteration w1 :
  state_transition (Some state) (SCBlock state_change_block_number) w block_number
  = Ok (iteration, w1) ->
  exists iteration0,
    handle_block state state_change_block_number w block_number
    = Ok (iteration0, w1)
    /\ iteration = clear_if_finalized iteration0.
Proof.
  unfold state_transition. cbn.
  destruct (handle_block _ _ _ _) as [[iteration0 w0]|]; [|done]. cbn.
  destruct (match new_state iteration0 with
            | Some s => sanity_check s
            | None => Ok tt
            end); [|done].
  cbn. intros [= <- <-]. eauto.
Qed.

Lemma find_existsb {A} (f : A -> bool) (l : list A) :
  existsb f l = match find f l with Some _ => true | None => false end.
Proof. induction l as [|x l IH]; cbn; [done|]. destruct (f x); done. Qed.

Lemma selected_onchain_reveal_length `{Imports} chans
    (transfers_pair : list MediationPairState) block_number :
  length (selected_onchain_reveal chans transfers_pair block_number)
  = if existsb (reveal_is_due chans block_number)
         (rev (List.filter is_pending transfers_pair))
    then 1%nat else 0%nat.
Proof.
  unfold selected_onchain_reveal. rewrite find_existsb.
  destruct (find _ _) as [pair_|] eqn:Hfind; [|done].
  apply find_some in Hfind as [_ Hdue].
  unfold reveal_is_due in Hdue. unfold onchain_reveal_of.
  destruct (chans !! _); done.
Qed.

(** C1, amended: when [state_transition] returns from a Block that does
    not go through the cleanup of an expired lock, its events hold the
    on-chain reveal of the first pending pair, from the latest to the
    earliest, whose payer lock is not safe to wait for and whose secret the
    payer channel's partner end has registered, and no other on-chain
    reveal: exactly one if there is such a pair, none otherwise.  For a
    single pending pair with payer expiration 100 and reveal timeout 10
    whose secret is registered, that is one reveal from block 90 on and
    none before. *)
Theorem onchain_reveal_selection `{Imports} (state : MediatorTransferState)
    (state_change_block_number : Z) (w : World) (block_number : Z)
    (iteration : TransitionResult) (w1 : World) :
  state_transition (Some state) (SCBlock state_change_block_number) w block_number
  = Ok (iteration, w1) ->
  lock_cleanup_due state state_change_block_number w = false ->
  List.filter is_onchain_reveal (events iteration)
  = selected_onchain_reveal (channels w) (transfers_pair state) block_number
  /\ length (List.filter is_onchain_reveal (events iteration))
     = (if existsb (reveal_is_due (channels w) block_number)
             (rev (List.filter is_pending (transfers_pair state)))
        then 1%nat else 0%nat)
  /\ (forall pair_ payer_channel,
        transfers_pair state = [pair_] ->
        is_pending pair_ = true ->
        expiration (lock (payer_transfer pair_)) = 100 ->
        channels w !! channel_identifier (balance_proof (payer_transfer pair_))
        = Some payer_channel ->
        reveal_timeout payer_channel = 10 ->
        is_secret_known (partner_state payer_channel)
          (lock_secrethash (lock (payer_transfer pair_))) = true ->
        List.filter is_onchain_reveal (events iteration)
        = if bool_decide (90 <= block_number)
          then [ContractSendSecretReveal 100
                  (get_secret (partner_state payer_channel)
                     (lock_secrethash (lock (payer_transfer pair_))))]
          else []).
Proof.
  intros Hstep Hdue.
  apply state_transition_block_Ok in Hstep as (iteration0 & Hblock & ->).
  apply handle_block_Ok in Hblock as (_ & -> & ->); [|done].
  rewrite clear_if_finalized_events. cbn [events].
  rewrite List.filter_app, expiry_events_no_reveal, selected_onchain_reveal_filter.
  cbn [app]. split; [done|]. split; [apply selected_onchain_reveal_length|].
  intros pair_ payer_channel Hpairs Hpend Hexp Hc Htimeout Hknown.
  unfold selected_onchain_reveal. rewrite Hpairs. cbn. rewrite Hpend. cbn.
  unfold reveal_is_due, onchain_reveal_of. rewrite Hc, Hexp, Htimeout, Hknown.
  rewrite andb_true_r.
  case_bool_decide; destruct (Z.ltb_spec 10 (100 - block_number)); cbn;
    rewrite ?Hc, ?Hexp; try done; lia.
Qed.

Lemma onchain_reveal_selection_witness :
  state_transition (Some s6_state) (SCBlock 91) s6_world 91
  = Ok (s6_reveal, s6_world)
  /\ lock_cleanup_due s6_state 91 s6_world = false
  /\ List.filter is_onchain_reveal (events s6_reveal)
     = selected_onchain_reveal (channels s6_world) (transfers_pair s6_state) 91
  /\ length (List.filter is_onchain_reveal (events s6_reveal)) = 1%nat.
Proof.
  assert (Hstep : state_transition (Some s6_state) (SCBlock 91) s6_world 91
                  = Ok (s6_reveal, s6_world)) by reflexivity.
  assert (Hdue : lock_cleanup_due s6_state 91 s6_world = false)
    by reflexivity.
  split; [exact Hstep|]. split; [exact Hdue|].
  split; [|reflexivity].
  exact (proj1 (onchain_reveal_selection s6_state 91 s6_world 91 s6_reveal s6_world
                  Hstep Hdue)).
Defined.

(** C1 as stated fails at block 90 of S6: waiting is no longer safe when
    exactly [reveal_timeout] blocks are left, so the reveal is emitted
    there too; and a Block that goes through the cleanup of an expired lock
    emits no reveal although one is due. *)
Lemma onchain_reveal_at_block_90 :
  state_transition (Some s6_state) (SCBlock 90) s6_world 90
  = Ok (s6_reveal, s6_world)
  /\ List.filter is_onchain_reveal (events s6_reveal)
     = [ContractSendSecretReveal 100 (Some "S")]
  /\ fst <$> state_transition (Some s6_state) (SCBlock 106) locked_world 106
     = Ok {| new_state := None; events := [SendLockExpired "payee" 0 "H"] |}
  /\ selected_onchain_reveal (channels locked_world) (transfers_pair s6_state) 106
     = [ContractSendSecretReveal 100 (Some "S")].
Proof. repeat split; reflexivity. Qed.

(** A pending pair is not paid on both sides once the loop of
    [set_expired_pairs] has visited it, so a state that holds one is not
    cleared. *)
Lemma expired_not_both_paid (block_number : Z) (pair_ : MediationPairState) :
  is_pending pair_ = true -> both_paid (expired block_number pair_) = false.
Proof.
  intros Hpend. unfold is_pending in Hpend. unfold both_paid.
  destruct (expired_fields block_number pair_)
    as (_ & _ & _ & [Hpayer|Hpayer] & [Hpayee|Hpayee]);
    rewrite Hpayer, Hpayee;
    destruct (payer_state pair_), (payee_state pair_);
    try reflexivity; vm_compute in Hpend; discriminate Hpend.
Qed.

Lemma expired_keeps_the_state `{Imports} (state : MediatorTransferState)
    (block_number : Z) (i : nat) (pair_ : MediationPairState) (events : list Event) :
  transfers_pair state !! i = Some pair_ ->
  is_pending pair_ = true ->
  clear_if_finalized
    {| new_state :=
         Some (with_pairs (map (expired block_number) (transfers_pair state)) state);
       events := events |}
  = {| new_state :=
         Some (with_pairs (map (expired block_number) (transfers_pair state)) state);
       events := events |}.
Proof.
  intros Hi Hpend. unfold clear_if_finalized. cbn.
  destruct (forallb both_paid _) eqn:Hall; [|done].
  rewrite forallb_forall in Hall.
  pose proof (expired_not_both_paid block_number pair_ Hpend) as Hnot.
  rewrite Hall in Hnot; [done|].
  apply in_map, list_elem_of_In. by eapply list_elem_of_lookup_2.
Qed.




Lemma paid_implies_secret_witness :
  state_transition (Some s1_paid) (SCBlock 20) (s1_world 5) 20
  = Ok (unchanged s1_paid, s1_world 5)
  /\ some_transfer_paid s1_paid
  /\ secret s1_paid <> None.
Proof.
  assert (Hstep : state_transition (Some s1_paid) (SCBlock 20) (s1_world 5) 20
                  = Ok (unchanged s1_paid, s1_world 5)) by reflexivity.
  assert (Hpaid : some_transfer_paid s1_paid).
  { exists (s1_pair payer_secret_revealed payee_balance_proof).
    split; [apply list_elem_of_here|left; reflexivity]. }
  split; [exact Hstep|]. split; [exact Hpaid|].
  exact (proj1 paid_implies_secret _ _ _ _ _ _ _ Hstep eq_refl Hpaid).
Defined.

Lemma refund_ignored_once_secret_known_witness :
  secret s1_paid <> None
  /\ handle_refundtransfer s1_paid refund (s1_world 5) 20
     = Ok (unchanged s1_paid, s1_world 5).
Proof.
  assert (Hsecret : secret s1_paid <> None) by discriminate.
  split; [exact Hsecret|].
  exact (proj1 (refund_ignored_once_secret_known s1_paid refund (s1_world 5) 20
                  Hsecret)).
Defined.

(** ** Expiry keeps a sane state sane *)

Lemma zip_expired block_number (l k : list MediationPairState) :
  zip (map (expired block_number) l) (map (expired block_number) k)
  = map (fun both => (expired block_number both.1, expired block_number both.2))
      (zip l k).
Proof.
  revert k. induction l as [|x l IH]; intros [|y k]; cbn; [done..|].
  by rewrite IH.
Qed.

Lemma removelast_map {A B} (f : A -> B) (l : list A) :
  removelast (map f l) = map f (removelast l).
Proof.
  induction l as [|x l IH]; cbn; [done|].
  destruct l; cbn in *; [done|]. by rewrite IH.
Qed.

Lemma tail_map {A B} (f : A -> B) (l : list A) : tail (map f l) = map f (tail l).
Proof. destruct l; done. Qed.

Lemma sanity_check_expired `{Imports} (state : MediatorTransferState) block_number :
  sanity_check state = Ok tt ->
  sanity_check (with_pairs (map (expired block_number) (transfers_pair state)) state)
  = Ok tt.
Proof.
  rewrite !sanity_check_Ok. cbn [transfers_pair secret secrethash with_pairs].
  intros (Hsecret & Hfirst & Hpairs & Hrefunds). repeat split.
  - intros (pair1 & Hin & Hpaid). apply Hsecret.
    apply list_elem_of_fmap in Hin as (pair_ & -> & Hin).
    exists pair_. split; [done|].
    destruct (expired_fields block_number pair_)
      as (_ & _ & _ & [Hpayer|Hpayer] & [Hpayee|Hpayee]);
      rewrite Hpayer, Hpayee in Hpaid; destruct Hpaid as [Hp|Hp];
      auto; discriminate Hp.
  - intros first_pair rest Heq.
    destruct (transfers_pair state) as [|first0 rest0] eqn:Hstate; [done|].
    cbn in Heq. injection Heq as <- <-.
    destruct (expired_fields block_number first0) as (-> & _). eauto.
  - rewrite Forall_fmap. eapply Forall_impl; [exact Hpairs|].
    intros pair_ (Halmost & Hpayer & Hpayee). unfold pair_is_sane, compose.
    destruct (expired_fields block_number pair_)
      as (-> & -> & _ & [->| ->] & [->| ->]); done.
  - rewrite tail_map, removelast_map, zip_expired, Forall_fmap.
    eapply Forall_impl; [exact Hrefunds|].
    intros [original refund]. unfold refund_is_sane, compose, payer_address. cbn.
    destruct (expired_fields block_number original) as (_ & -> & -> & _).
    destruct (expired_fields block_number refund) as (-> & _). done.
Qed.

Lemma onchain_secretreveal_loop_total `{Imports} chans
    (transfers_pair : list MediationPairState) block_number refs pairs :
  0 < block_number ->
  Forall2 (fun i pair_ => transfers_pair !! i = Some pair_) refs pairs ->
  Forall (fun pair_ =>
            exists payer_channel,
              chans !! channel_identifier (balance_proof (payer_transfer pair_))
              = Some payer_channel
              /\ 0 < reveal_timeout payer_channel
                 < expiration (lock (payer_transfer pair_))) pairs ->
  exists reveals,
    onchain_secretreveal_loop chans transfers_pair block_number refs = Ok reveals.
Proof.
  intros Hblock. induction 1 as [|i pair_ refs pairs Hi _ IH]; cbn.
  - eauto.
  - rewrite Forall_cons. intros [(payer_channel & Hc & Hlow & Hhigh) Hrest].
    rewrite Hi. unfold get_payer_channel. rewrite Hc. cbn.
    destruct (is_safe_to_wait_total (expiration (lock (payer_transfer pair_)))
                (reveal_timeout payer_channel) block_number) as [msg ->]; [done..|].
    cbn. destruct (negb _ && _); eauto.
Qed.

Lemma handle_block_total `{Imports} (state : MediatorTransferState)
    state_change_block_number (w : World) block_number first_pair rest :
  transfers_pair state = first_pair :: rest ->
  is_Some (channels w !! channel_identifier (balance_proof (payee_transfer first_pair))) ->
  0 < block_number ->
  (forall pair_,
      pair_ ∈ transfers_pair state -> is_pending pair_ = true ->
      exists payer_channel,
        channels w !! channel_identifier (balance_proof (payer_transfer pair_))
        = Some payer_channel
        /\ 0 < reveal_timeout payer_channel
           < expiration (lock (payer_transfer pair_))) ->
  (exists iteration w1,
      handle_block state state_change_block_number w block_number
      = Ok (iteration, w1) /\ new_state iteration = None)
  \/ events_for_onchain_secretreveal (channels w) (transfers_pair state) block_number
     = Ok (selected_onchain_reveal (channels w) (transfers_pair state) block_number)
     /\ handle_block state state_change_block_number w block_number
        = Ok ({| new_state :=
                   Some (with_pairs (map (expired block_number) (transfers_pair state))
                           state);
                 events := flat_map (expiry_events block_number) (transfers_pair state)
                           ++ selected_onchain_reveal (channels w)
                                (transfers_pair state) block_number |}, w).
Proof.
  intros Hpairs [channel_state Hc] Hblock Hpending.
  destruct (expired_locked_lock channel_state (secrethash state)
              state_change_block_number) as [locked_lock|] eqn:Hcleanup.
  - left. unfold handle_block. rewrite Hpairs, Hc, Hcleanup.
    destruct (events_for_expired_lock _ _ _) as [[expired_lock_event channel2] g].
    eauto.
  - right.
    destruct (onchain_secretreveal_loop_total (channels w) (transfers_pair state)
                block_number
                (rev (get_pending_transfer_pairs (transfers_pair state)))
                (rev (List.filter is_pending (transfers_pair state))) Hblock)
      as [reveals Hreveals].
    { apply Forall2_rev, pending_refs. }
    { apply Forall_forall. intros pair_ Hin.
      apply list_elem_of_In in Hin. rewrite <-in_rev in Hin.
      apply filter_In in Hin as [Hin Hpend].
      apply Hpending; [by apply list_elem_of_In|done]. }
    assert (Hev : events_for_onchain_secretreveal (channels w) (transfers_pair state)
                    block_number = Ok reveals) by exact Hreveals.
    pose proof (events_for_onchain_secretreveal_Ok _ _ _ _ Hev) as ->.
    split; [done|].
    rewrite (handle_block_main _ _ _ _ _ _ _ Hpairs Hc Hcleanup), Hev. done.
Qed.

(** C10, amended: [state_transition] returns on a Block when the state
    has a pair, the payer and payee channels of every pair are in the
    channel map, [block_number] is positive, the payer channel of every
    pending pair has a positive reveal timeout below the expiration of the
    payer lock, and the state passes [sanity_check]. *)
Theorem block_transition_total `{Imports} (state : MediatorTransferState)
    (state_change_block_number : Z) (w : World) (block_number : Z) :
  transfers_pair state <> [] ->
  (forall pair_,
      pair_ ∈ transfers_pair state ->
      is_Some (channels w !! channel_identifier (balance_proof (payer_transfer pair_)))
      /\ is_Some (channels w
                  !! channel_identifier (balance_proof (payee_transfer pair_)))) ->
  0 < block_number ->
  (forall pair_ payer_channel,
      pair_ ∈ transfers_pair state ->
      is_pending pair_ = true ->
      channels w !! channel_identifier (balance_proof (payer_transfer pair_))
      = Some payer_channel ->
      0 < reveal_timeout payer_channel < expiration (lock (payer_transfer pair_))) ->
  sanity_check state = Ok tt ->
  exists iteration w1,
    state_transition (Some state) (SCBlock state_change_block_number) w block_number
    = Ok (iteration, w1).
Proof.
  intros Hpairs Hchannels Hblock Htimeouts Hsane.
  assert (exists first_pair rest, transfers_pair state = first_pair :: rest)
    as (first_pair & rest & Hstate)
    by (destruct (transfers_pair state); [done|eauto]).
  destruct (handle_block_total state state_change_block_number w block_number
              first_pair rest Hstate) as [(iteration & w1 & Hhandle & Hnone)|[_ Hhandle]].
  - apply Hchannels. rewrite Hstate. apply list_elem_of_here.
  - done.
  - intros pair_ Hin Hpend.
    destruct (Hchannels pair_ Hin) as [[payer_channel Hc] _].
    exists payer_channel. split; [done|]. eapply Htimeouts; done.
  - unfold state_transition. cbn. rewrite Hhandle. cbn. rewrite Hnone. cbn. eauto.
  - unfold state_transition. cbn. rewrite Hhandle. cbn -[sanity_check].
    rewrite (sanity_check_expired state block_number Hsane). cbn. eauto.
Qed.

Lemma block_transition_total_witness :
  exists iteration w1,
    state_transition (Some mediating) (SCBlock 6) (mediating_world 5) 6
    = Ok (iteration, w1).
Proof.
  apply (block_transition_total mediating 6 (mediating_world 5) 6).
  - discriminate.
  - intros pair_ Hin. apply list_elem_of_singleton in Hin as ->.
    split; eexists; reflexivity.
  - reflexivity.
  - intros pair_ payer_channel Hin _ Hc. apply list_elem_of_singleton in Hin as ->.
    injection Hc as <-. split; reflexivity.
  - reflexivity.
Defined.

(** C10 as stated fails: the offer of 10 tokens expiring at block 30 comes
    in on a channel with a reveal timeout of 50 and is mediated at block
    5; at the next Block the state has its pair and both channels are in
    the map, and the assertion of [is_safe_to_wait] that the expiration is
    above the reveal timeout fails. *)
Lemma block_raises_on_wide_reveal_timeout :
  state_transition None (SCActionInitMediator offer) (offer_world 50 10) 5
  = Ok (mediated, mediating_world 50)
  /\ transfers_pair mediating = [s1_pair payer_pending payee_pending]
  /\ is_Some (channels (mediating_world 50) !! 1)
  /\ is_Some (channels (mediating_world 50) !! 2)
  /\ state_transition (Some mediating) (SCBlock 6) (mediating_world 50) 6
     = Raise AssertionError.
Proof. repeat split; try reflexivity; eexists; reflexivity. Qed.

(** [handle_block] returns, with the pairs expired and the on-chain
    reveal, when its cleanup is not due and the assertions of the on-chain
    reveal hold. *)
Lemma handle_block_no_cleanup `{Imports} (state : MediatorTransferState)
    state_change_block_number (w : World) block_number :
  transfers_pair state <> [] ->
  (forall pair_,
      pair_ ∈ transfers_pair state ->
      is_Some (channels w !! channel_identifier (balance_proof (payer_transfer pair_)))
      /\ is_Some (channels w
                  !! channel_identifier (balance_proof (payee_transfer pair_)))) ->
  0 < block_number ->
  (forall pair_ payer_channel,
      pair_ ∈ transfers_pair state ->
      is_pending pair_ = true ->
      channels w !! channel_identifier (balance_proof (payer_transfer pair_))
      = Some payer_channel ->
      0 < reveal_timeout payer_channel < expiration (lock (payer_transfer pair_))) ->
  lock_cleanup_due state state_change_block_number w = false ->
  handle_block state state_change_block_number w block_number
  = Ok ({| new_state :=
             Some (with_pairs (map (expired block_number) (transfers_pair state)) state);
           events := flat_map (expiry_events block_number) (transfers_pair state)
                     ++ selected_onchain_reveal (channels w) (transfers_pair state)
                          block_number |}, w).
Proof.
  intros Hpairs Hchannels Hblock Htimeouts Hdue.
  assert (exists first_pair rest, transfers_pair state = first_pair :: rest)
    as (first_pair & rest & Hstate)
    by (destruct (transfers_pair state); [done|eauto]).
  destruct (handle_block_total state state_change_block_number w block_number
              first_pair rest Hstate) as [(iteration & w1 & Hhandle & Hnone)|[_ Hhandle]].
  - apply Hchannels. rewrite Hstate. apply list_elem_of_here.
  - done.
  - intros pair_ Hin Hpend.
    destruct (Hchannels pair_ Hin) as [[payer_channel Hc] _].
    exists payer_channel. split; [done|]. eapply Htimeouts; done.
  - apply handle_block_Ok in Hhandle as (_ & -> & _); [|done]. done.
  - done.
Qed.

(** C5, amended: a Block whose [block_number] is past the expiration of
    the payer lock of a pair whose payee side is [payee_balance_proof] and
    whose payer has neither paid nor expired makes [state_transition]
    return, with no assertion hit: the state is kept, the payer side of
    the pair is set to [payer_expired] and [EventUnlockClaimFailed] is
    emitted for it, though the payee side was paid and not expired.  This
    holds when the channels of every pair are in the channel map, the
    payer channel of every pending pair has a positive reveal timeout
    below the expiration of the payer lock, the state passes
    [sanity_check] and the cleanup of [handle_block] is not due.  The
    payee side of the pair, whose lock expires with the payer's, is set to
    [payee_expired] by the same Block. *)
Theorem block_completes_though_payee_paid `{Imports} (state : MediatorTransferState)
    (state_change_block_number : Z) (w : World) (block_number : Z) (i : nat)
    (pair_ : MediationPairState) :
  transfers_pair state !! i = Some pair_ ->
  payee_state pair_ = payee_balance_proof ->
  state_in (payer_state pair_) STATE_TRANSFER_FINAL = false ->
  block_number > expiration (lock (payer_transfer pair_)) ->
  (forall pair_,
      pair_ ∈ transfers_pair state ->
      is_Some (channels w !! channel_identifier (balance_proof (payer_transfer pair_)))
      /\ is_Some (channels w
                  !! channel_identifier (balance_proof (payee_transfer pair_)))) ->
  (forall pair_ payer_channel,
      pair_ ∈ transfers_pair state ->
      is_pending pair_ = true ->
      channels w !! channel_identifier (balance_proof (payer_transfer pair_))
      = Some payer_channel ->
      0 < reveal_timeout payer_channel < expiration (lock (payer_transfer pair_))) ->
  sanity_check state = Ok tt ->
  lock_cleanup_due state state_change_block_number w = false ->
  exists state1 pair1 emitted,
    state_transition (Some state) (SCBlock state_change_block_number) w block_number
    = Ok ({| new_state := Some state1; events := emitted |}, w)
    /\ transfers_pair state1 !! i = Some pair1
    /\ payer_transfer pair1 = payer_transfer pair_
    /\ payee_transfer pair1 = payee_transfer pair_
    /\ payer_state pair1 = payer_expired
    /\ payee_state pair1 = payee_expired
    /\ EventUnlockClaimFailed (payment_identifier (payer_transfer pair_))
         (lock_secrethash (lock (payer_transfer pair_))) "lock expired"
       ∈ emitted.
Proof.
  intros Hi Hpayee Hpayer Hblock Hchannels Htimeouts Hsane Hdue.
  assert (Hin : pair_ ∈ transfers_pair state) by (by eapply list_elem_of_lookup_2).
  assert (Hpend : is_pending pair_ = true).
  { unfold is_pending. rewrite Hpayer. apply orb_true_r. }
  assert (Hnot : payer_state pair_ <> payer_expired).
  { intros Heq. rewrite Heq in Hpayer. discriminate Hpayer. }
  assert (Hpositive : 0 < block_number).
  { destruct (Hchannels pair_ Hin) as [[payer_channel Hc] _].
    pose proof (Htimeouts pair_ payer_channel Hin Hpend Hc). lia. }
  assert (Href : expiration (lock (payee_transfer pair_))
                 = expiration (lock (payer_transfer pair_))).
  { apply sanity_check_Ok in Hsane as (_ & _ & Hpairs & _).
    rewrite Forall_forall in Hpairs. destruct (Hpairs pair_ Hin) as (Halmost & _).
    unfold is_send_transfer_almost_equal in Halmost.
    repeat (apply andb_true_iff in Halmost as [Halmost ?]).
    repeat match goal with
      | H : bool_decide _ = true |- _ => apply bool_decide_eq_true in H
      end. done. }
  assert (Hhandle := handle_block_no_cleanup state state_change_block_number w
                       block_number ltac:(by intros Heq; rewrite Heq in Hi)
                       Hchannels Hpositive Htimeouts Hdue).
  destruct (expired_strict block_number pair_ Hpend) as (Hpayer1 & Hpayee1 & _).
  destruct (Hpayer1 Hblock Hnot) as [Hpayer2 Hevent].
  destruct Hpayee1 as [Hpayee2 _]; [lia|by rewrite Hpayee|].
  destruct (expired_fields block_number pair_) as (Hpt & Hpe & _).
  eexists _, (expired block_number pair_), _. split.
  { unfold state_transition. cbn -[clear_if_finalized]. rewrite Hhandle.
    cbn -[sanity_check clear_if_finalized].
    rewrite (sanity_check_expired state block_number Hsane).
    cbn -[clear_if_finalized].
    rewrite (expired_keeps_the_state state block_number i pair_ _ Hi Hpend).
    reflexivity. }
  cbn [transfers_pair with_pairs].
  split; [by rewrite list_lookup_fmap, Hi|].
  repeat (split; [done|]).
  apply elem_of_app. left.
  apply list_elem_of_In, in_flat_map. exists pair_.
  split; [by apply list_elem_of_In|].
  assert (Hfiltered : In (EventUnlockClaimFailed
                            (payment_identifier (payer_transfer pair_))
                            (lock_secrethash (lock (payer_transfer pair_)))
                            "lock expired")
                        (List.filter is_claim_failed
                           (expiry_events block_number pair_)))
    by (rewrite Hevent; left; done).
  apply filter_In in Hfiltered as [? _]. done.
Qed.

Lemma block_completes_though_payee_paid_witness :
  state_transition (Some s1_paid) (SCBlock 31) (s1_world 5) 31
  = Ok (s1_expired, s1_world 5)
  /\ exists state1 pair1 emitted,
      state_transition (Some s1_paid) (SCBlock 31) (s1_world 5) 31
      = Ok ({| new_state := Some state1; events := emitted |}, s1_world 5)
      /\ transfers_pair state1 !! 0%nat = Some pair1
      /\ payer_state pair1 = payer_expired
      /\ EventUnlockClaimFailed 1 "H" "lock expired" ∈ emitted.
Proof.
  split; [reflexivity|].
  destruct (block_completes_though_payee_paid s1_paid 31 (s1_world 5) 31 0
              (s1_pair payer_secret_revealed payee_balance_proof)
              eq_refl eq_refl eq_refl eq_refl)
    as (state1 & pair1 & emitted & Hstep & Hlookup & _ & _ & Hpayer & _ & Hevent).
  - intros pair_ Hin. apply list_elem_of_singleton in Hin as ->.
    split; eexists; reflexivity.
  - intros pair_ payer_channel Hin _ Hc. apply list_elem_of_singleton in Hin as ->.
    injection Hc as <-. split; reflexivity.
  - reflexivity.
  - reflexivity.
  - exists state1, pair1, emitted. auto.
Defined.

(** C5 as stated fails on the state of its scenario, the payee of the
    pair paid and its payer not, at a Block past the expiration of the
    payer lock, which is 30.  When the payee channel, settled since the
    payee was paid, is gone from the channel map, [handle_block] reads an
    attribute of the channel it did not find and raises [AttributeError].
    When the payer channel has a reveal timeout of 50, the assertion of
    [is_safe_to_wait] that the expiration is above the reveal timeout
    fails in the selection of the on-chain reveal, which comes before the
    expiry.  When our end of the payee channel still holds the lock and
    the block is past the threshold of the cleanup, [handle_block] returns
    through the cleanup: no state, no pair set to [payer_expired], no
    [EventUnlockClaimFailed]. *)
Lemma paid_payee_block_raises_or_cleans_up :
  transfers_pair s1_paid = [s1_pair payer_secret_revealed payee_balance_proof]
  /\ 31 > expiration (lock (payer_transfer
                              (s1_pair payer_secret_revealed payee_balance_proof)))
  /\ state_transition (Some s1_paid) (SCBlock 31) s1_settled_world 31
     = Raise AttributeError
  /\ state_transition (Some s1_paid) (SCBlock 31) (s1_world 50) 31
     = Raise AssertionError
  /\ fst <$> state_transition (Some s1_paid) (SCBlock 36) s1_locked_world 36
     = Ok {| new_state := None; events := [SendLockExpired "payee" 0 "H"] |}.
Proof. repeat split; reflexivity. Qed.

(** ** Mediation without a route *)

Lemma unpaid_without_secret `{Imports} (state : MediatorTransferState) :
  transfers_pair state <> [] ->
  secret state = None ->
  sanity_check state = Ok tt ->
  forallb both_paid (transfers_pair state) = false.
Proof.
  intros Hpairs Hsecret Hsane. apply sanity_check_Ok in Hsane as [Hpaid _].
  destruct (transfers_pair state) as [|pair_ rest] eqn:Hstate; [done|].
  cbn. destruct (both_paid pair_) eqn:Hboth; [|done].
  destruct Hpaid; [|done]. exists pair_. rewrite Hstate.
  split; [apply list_elem_of_here|].
  unfold both_paid in Hboth. apply andb_true_iff in Hboth as [-> _]. auto.
Qed.

(** What [mediate_transfer] does without a route and without a channel to
    refund on: past its assertion on the sender, it returns the mediator
    state as it is, with no event and the channels untouched; and what
    [clear_if_finalized] then makes of it. *)
Lemma mediate_transfer_without_route `{Imports} (state : MediatorTransferState)
    (possible_routes : list RouteState) (payer_channel : ChannelRef) (w : World)
    (payer_transfer : LockedTransferSignedState) (block_number : Z)
    (refund_channel : ChannelRef) (refunded : LockedTransferSignedState) :
  address (partner_state payer_channel.2) = sender (balance_proof payer_transfer) ->
  next_channel_from_routes
    (filter_used_routes (transfers_pair state) possible_routes) (channels w)
    (amount (lock payer_transfer))
    (expiration (lock payer_transfer) - block_number) = None ->
  refund_target state payer_channel (channels w) payer_transfer
  = Ok (refund_channel, refunded) ->
  is_channel_usable refund_channel.2 (amount (lock refunded))
    (expiration (lock refunded) - block_number) = false ->
  mediate_transfer state possible_routes payer_channel w payer_transfer block_number
  = Ok (state, unchanged state, w)
  /\ clear_if_finalized (unchanged state)
     = {| new_state := if forallb both_paid (transfers_pair state)
                       then None else Some state;
          events := [] |}
  /\ (transfers_pair state = [] ->
      clear_if_finalized (unchanged state) = {| new_state := None; events := [] |})
  /\ (transfers_pair state <> [] -> secret state = None ->
      sanity_check state = Ok tt ->
      clear_if_finalized (unchanged state) = unchanged state).
Proof.
  intros Hsender Hroute Hrefund Hunusable.
  assert (Hclear : clear_if_finalized (unchanged state)
                   = {| new_state := if forallb both_paid (transfers_pair state)
                                     then None else Some state;
                        events := [] |}).
  { unfold clear_if_finalized, unchanged. cbn. destruct (forallb _ _); done. }
  split; [|split; [exact Hclear|split]].
  - unfold mediate_transfer, next_transfer_pair.
    rewrite (bool_decide_eq_true_2 _ Hsender). cbn. rewrite Hroute. cbn.
    rewrite Hrefund. cbn. unfold events_for_refund_transfer.
    rewrite Hunusable. done.
  - intros Hempty. rewrite Hclear, Hempty. done.
  - intros Hpairs Hsecret Hsane.
    rewrite Hclear, (unpaid_without_secret state Hpairs Hsecret Hsane). done.
Qed.

(** C6 at the offer that no channel can carry on or back: the offer of 10
    tokens is valid, channel 2, the only route, has no deposit left and
    channel 1, on which the offer came, has none to refund with.
    [mediate_transfer] returns the fresh state and no event, as C6 says,
    but [state_transition] then returns no state: [clear_if_finalized]
    takes a state without pairs for one whose pairs are all paid, and the
    transfer whose lock runs until block 30 is forgotten at block 5.  When
    the state has a pair, the same outcome of [mediate_transfer] is kept. *)
Lemma stuck_offer_is_dropped :
  next_channel_from_routes (routes offer) (channels stuck_world) 10 (30 - 5) = None
  /\ is_channel_usable s1_payer_channel 10 (30 - 5) = false
  /\ mediate_transfer (new_MediatorTransferState "H") (routes offer)
       (1, s1_payer_channel) stuck_world (from_transfer offer) 5
     = Ok (new_MediatorTransferState "H",
           unchanged (new_MediatorTransferState "H"), stuck_world)
  /\ state_transition None (SCActionInitMediator offer) (offer_world 5 0) 5
     = Ok ({| new_state := None; events := [] |}, stuck_world)
  /\ mediate_transfer mediating [] (2, s1_payee_channel) (mediating_world 5)
       (unit_transfer 2 "payee" 30) 29
     = Ok (mediating, unchanged mediating, mediating_world 5)
  /\ clear_if_finalized (unchanged mediating) = unchanged mediating.
Proof. repeat split; reflexivity. Qed.

(** * Properties of the transport *)

Import Protocol Wire.

Lemma get_channel_queue_sent `{Protocol.Imports} (self : RaidenProtocol)
    (receiver token : string) :
  senthashes_to_states (get_channel_queue self receiver token).2
  = senthashes_to_states self
  /\ async_results (get_channel_queue self receiver token).2 = async_results self.
Proof.
  unfold get_channel_queue, get_health_events, start_health_check.
  repeat (case_match; cbn); done.
Qed.

(** C9: once [send_async] has returned a future for a message and a
    receiver, calling it again with the same two returns the same future
    and leaves the protocol, its queues included, as it is; so does every
    call made while the echohash is in [senthashes_to_states], and
    [send_raw_with_result] answers with the same future too. *)
Theorem send_async_idempotent `{Protocol.Imports} (self : RaidenProtocol)
    (receiver : string) (message : Message) (future : nat) (self1 : RaidenProtocol) :
  send_async self receiver message = Ok (future, self1) ->
  send_async self1 receiver message = Ok (future, self1)
  /\ (exists waitack,
        senthashes_to_states self1 !! sha3 (encode message +:+ receiver)
        = Some waitack
        /\ async_result waitack = future)
  /\ (forall self2 waitack,
        senthashes_to_states self2 !! sha3 (encode message +:+ receiver)
        = Some waitack ->
        send_async self2 receiver message = Ok (async_result waitack, self2))
  /\ (forall self2 waitack future2 self3,
        senthashes_to_states self2 !! sha3 (encode message +:+ receiver)
        = Some waitack ->
        send_raw_with_result self2 (encode message) receiver = Ok (future2, self3) ->
        future2 = async_result waitack
        /\ channel_queue self3 = channel_queue self2).
Proof.
  intros Hsend.
  assert (Hvalid : isaddress receiver = true
                   /\ is_ack message || is_ping message = false
                   /\ (UDP_MAX_MESSAGE_SIZE <? String.length (encode message))%nat
                      = false).
  { unfold send_async in Hsend.
    destruct (isaddress receiver); [|done].
    destruct (is_ack message || is_ping message); [done|].
    destruct (UDP_MAX_MESSAGE_SIZE <? String.length (encode message))%nat; done. }
  destruct Hvalid as (Haddress & Hkind & Hsize).
  assert (Hagain : forall self2 waitack,
             senthashes_to_states self2 !! sha3 (encode message +:+ receiver)
             = Some waitack ->
             send_async self2 receiver message = Ok (async_result waitack, self2)).
  { intros self2 waitack Hstored. unfold send_async.
    rewrite Haddress, Hkind, Hsize, Hstored. done. }
  assert (Hstored : exists waitack,
             senthashes_to_states self1 !! sha3 (encode message +:+ receiver)
             = Some waitack
             /\ async_result waitack = future).
  { unfold send_async in Hsend. rewrite Haddress, Hkind, Hsize in Hsend. cbn in Hsend.
    destruct (senthashes_to_states self !! _) as [waitack|] eqn:Hlookup.
    - injection Hsend as <- <-. eauto.
    - destruct (get_channel_queue _ _ _) as [queue self2] eqn:Hqueue.
      injection Hsend as <- <-.
      exists {| async_result := length (async_results self);
                receiver_address := receiver |}.
      split; [|reflexivity]. cbn.
      pose proof (get_channel_queue_sent
                    (with_sent
                       (<[sha3 (encode message +:+ receiver)
                          := {| async_result := length (async_results self);
                                receiver_address := receiver |}]>
                          (senthashes_to_states self))
                       (async_results self ++ [None]) self)
                    receiver (message_token message)) as [Hsent _].
      rewrite Hqueue in Hsent. cbn in Hsent. rewrite Hsent.
      apply lookup_insert_eq. }
  split; [|split; [exact Hstored|split; [exact Hagain|]]].
  - destruct Hstored as (waitack & Hlookup & <-). by apply Hagain.
  - intros self2 waitack future2 self3 Hlookup. unfold send_raw_with_result.
    destruct (get_host_port self2 receiver) as [host_port|]; [|done]. cbn.
    rewrite Hlookup. repeat case_match; intros [= <- <-]; done.
Qed.

Lemma send_async_idempotent_witness :
  send_async (fresh (peer_at 4000)) peer hello = Ok (0%nat, hello_sent)
  /\ send_async hello_sent peer hello = Ok (0%nat, hello_sent).
Proof.
  assert (Hsend : send_async (fresh (peer_at 4000)) peer hello
                  = Ok (0%nat, hello_sent)) by reflexivity.
  split; [exact Hsend|].
  exact (proj1 (send_async_idempotent (fresh (peer_at 4000)) peer hello 0 hello_sent
                  Hsend)).
Defined.

Lemma on_message_effects_app (l k : list Effect) :
  List.filter is_on_message (l ++ k)
  = List.filter is_on_message l ++ List.filter is_on_message k.
Proof. apply List.filter_app. Qed.

Lemma _maybe_send_ack_fields `{Protocol.Imports} (self : RaidenProtocol)
    (host_port : string * Z) (messagedata : string) :
  effects (_maybe_send_ack self host_port messagedata)
  = effects self ++ (if server_started self
                     then [TransportSend host_port messagedata] else [])
  /\ host (_maybe_send_ack self host_port messagedata) = host self
  /\ receivedhashes_to_acks (_maybe_send_ack self host_port messagedata)
     = receivedhashes_to_acks self.
Proof.
  unfold _maybe_send_ack. destruct (server_started self); cbn;
    rewrite ?app_nil_r; done.
Qed.

(** What the branch of [receive] for a signed message does, once the
    handler has answered. *)
Lemma receive_signed `{Protocol.Imports} (self : RaidenProtocol) (data : string)
    (message : Message) (from : string) :
  (String.length data <= UDP_MAX_MESSAGE_SIZE)%nat ->
  decode data = Ok message ->
  is_signed message = true ->
  message_sender message = Ok from ->
  receivedhashes_to_acks self !! sha3 (data +:+ address self) = None ->
  let echohash := sha3 (data +:+ address self) in
  let self1 := with_effect (CallOnMessage message echohash) self in
  let handled := on_message (host self) message echohash in
  let self2 := with_host handled.1 self1 in
  receive self data
  = match handled.2 with
    | Some e => (self2, if swallowed_by_receive e then None else Some e)
    | None =>
        let acked := maybe_send_ack self2 from (Ack (address self) echohash) in
        (acked.1,
         match acked.2 with
         | Some InvalidAddress | Some UnknownAddress => None
         | Some e => if swallowed_by_receive e then None else Some e
         | None => None
         end)
    end.
Proof.
  intros Hsize Hdecode Hsigned Hfrom Hcache. cbn zeta.
  assert (Hlen : (UDP_MAX_MESSAGE_SIZE <? String.length data)%nat = false)
    by (apply Nat.ltb_ge; lia).
  unfold receive. rewrite Hlen, Hdecode, Hcache.
  destruct message as [| a n | a t body |]; try discriminate Hsigned;
    injection Hfrom as ->; cbn [host with_effect];
    destruct (on_message _ _ _) as [host1 [e|]];
    cbn -[maybe_send_ack swallowed_by_receive].
  all: try (destruct (swallowed_by_receive e); done).
  all: destruct (maybe_send_ack _ _ _) as [self3 [e|]];
    cbn -[swallowed_by_receive]; [|done].
  all: destruct e; try done; destruct (swallowed_by_receive _); done.
Qed.

Lemma maybe_send_ack_fields `{Protocol.Imports} (self : RaidenProtocol)
    (receiver : string) (ack_message : Message) :
  List.filter is_on_message (effects (maybe_send_ack self receiver ack_message).1)
  = List.filter is_on_message (effects self)
  /\ host (maybe_send_ack self receiver ack_message).1 = host self.
Proof.
  unfold maybe_send_ack, _maybe_send_ack, get_host_port.
  repeat (case_match; cbn [fst snd]); simplify_eq/=;
    rewrite ?on_message_effects_app, ?app_nil_r; done.
Qed.

(** C8, amended: a datagram of a signed message whose echohash is not in
    the cache of acks makes [receive] call [on_message] exactly once.  If
    the handler returns and the sender is an address that discovery knows,
    the ack is cached under the echohash; from then on a receipt of the
    same bytes does not call [on_message]: it sends the cached ack, when
    the server is started, to the endpoint discovery gives now and caches
    that endpoint.  If the handler raises, nothing is cached, so that a
    second receipt calls the handler again. *)
Theorem duplicate_receive_resends_ack `{Protocol.Imports} (self : RaidenProtocol)
    (data : string) (message : Message) (from : string) :
  (String.length data <= UDP_MAX_MESSAGE_SIZE)%nat ->
  decode data = Ok message ->
  is_signed message = true ->
  message_sender message = Ok from ->
  receivedhashes_to_acks self !! sha3 (data +:+ address self) = None ->
  let echohash := sha3 (data +:+ address self) in
  List.filter is_on_message (effects (receive self data).1)
  = List.filter is_on_message (effects self) ++ [CallOnMessage message echohash]
  /\ (forall host_port,
        (on_message (host self) message echohash).2 = None ->
        isaddress from = true ->
        host_ports self !! from = Some host_port ->
        (receive self data).2 = None
        /\ receivedhashes_to_acks (receive self data).1 !! echohash
           = Some (host_port, encode (Ack (address self) echohash)))
  /\ (forall e,
        (on_message (host self) message echohash).2 = Some e ->
        receivedhashes_to_acks (receive self data).1 = receivedhashes_to_acks self)
  /\ (forall self2 host_port messagedata current,
        address self2 = address self ->
        receivedhashes_to_acks self2 !! echohash = Some (host_port, messagedata) ->
        host_ports self2 !! from = Some current ->
        (receive self2 data).2 = None
        /\ effects (receive self2 data).1
           = effects self2 ++ (if server_started self2
                               then [TransportSend current messagedata] else [])
        /\ host (receive self2 data).1 = host self2
        /\ receivedhashes_to_acks (receive self2 data).1 !! echohash
           = Some (current, messagedata)).
Proof.
  intros Hsize Hdecode Hsigned Hfrom Hcache echohash.
  pose proof (receive_signed self data message from Hsize Hdecode Hsigned Hfrom
                Hcache) as Hreceive.
  cbn zeta in Hreceive. fold echohash in Hreceive.
  split; [|split; [|split]].
  - rewrite Hreceive. destruct (on_message _ _ _) as [host1 [e|]]; cbn [fst snd].
    + cbn. rewrite on_message_effects_app. done.
    + rewrite (proj1 (maybe_send_ack_fields _ _ _)). cbn.
      rewrite on_message_effects_app. done.
  - intros host_port Hhandled Haddress Hport. rewrite Hreceive, Hhandled.
    unfold maybe_send_ack, get_host_port. cbn [host_ports with_host with_effect].
    rewrite Haddress, Hport. cbn [negb fst snd]. split; [done|].
    rewrite (proj2 (proj2 (_maybe_send_ack_fields _ _ _))). cbn.
    apply lookup_insert_eq.
  - intros e Hhandled. rewrite Hreceive, Hhandled. done.
  - intros self2 host_port messagedata current Haddress Hcached Hport.
    assert (Hlen : (UDP_MAX_MESSAGE_SIZE <? String.length data)%nat = false)
      by (apply Nat.ltb_ge; lia).
    unfold receive. rewrite Hlen, Hdecode, Haddress. fold echohash.
    rewrite Hcached, Hfrom. cbn [mbind result_bind]. unfold get_host_port.
    rewrite Hport. cbn [fst snd].
    destruct (_maybe_send_ack_fields
                (if bool_decide (host_port <> current)
                 then with_acks (<[echohash := (current, messagedata)]>
                                   (receivedhashes_to_acks self2)) self2
                 else self2) current messagedata) as (-> & -> & ->).
    split; [done|]. case_bool_decide as Hmoved; cbn.
    + rewrite lookup_insert_eq. done.
    + rewrite <-Hmoved. done.
Qed.

Lemma duplicate_receive_resends_ack_witness :
  receive (fresh (peer_at 4000)) (wire_encode hello) = (hello_received 4000, None)
  /\ receive (hello_received 5000) (wire_encode hello) = (hello_received_again, None)
  /\ List.filter is_on_message (effects (receive (hello_received 5000)
                                           (wire_encode hello)).1)
     = [CallOnMessage hello (wire_encode hello +:+ us)]
  /\ effects (receive (hello_received 5000) (wire_encode hello)).1
     = effects (hello_received 5000)
       ++ [TransportSend ("10.0.0.1", 5000) hello_ack].
Proof.
  split; [reflexivity|]. split; [reflexivity|]. split; [reflexivity|].
  destruct (duplicate_receive_resends_ack (fresh (peer_at 4000))
              (wire_encode hello) hello peer)
    as (_ & _ & _ & Hagain); [apply Nat.leb_le; reflexivity|reflexivity..|].
  destruct (Hagain (hello_received 5000) ("10.0.0.1", 4000) hello_ack
              ("10.0.0.1", 5000) eq_refl eq_refl eq_refl) as (_ & Heffects & _).
  exact Heffects.
Defined.

(** C8 as stated fails when the handler rejects the message: [receive]
    swallows [InvalidNonce] and caches no ack, and the second receipt of
    the same bytes calls [on_message] again and sends nothing. *)
Lemma rejected_message_is_handled_twice :
  receive (fresh (peer_at 4000)) (wire_encode stale) = (stale_once, None)
  /\ receive stale_once (wire_encode stale) = (stale_twice, None)
  /\ effects stale_twice
     = [CallOnMessage stale (wire_encode stale +:+ us);
        CallOnMessage stale (wire_encode stale +:+ us)].
Proof. repeat split; reflexivity. Qed.

(** * Further properties of the mediator *)

Import Mediator Vocabulary Example Laws Cases.

Lemma same_transfers_refl p : same_transfers p p.
Proof. unfold same_transfers. done. Qed.

Lemma same_transfers_trans p q r :
  same_transfers p q -> same_transfers q r -> same_transfers p r.
Proof.
  intros (? & ? & ?) (? & ? & ?). unfold same_transfers.
  repeat split; congruence.
Qed.

Lemma Forall2_same_transfers_refl l : Forall2 same_transfers l l.
Proof. apply Forall_Forall2_diag, Forall_forall. intros. apply same_transfers_refl. Qed.

Lemma Forall2_same_transfers_trans l k m :
  Forall2 same_transfers l k -> Forall2 same_transfers k m ->
  Forall2 same_transfers l m.
Proof.
  intros Hlk. revert m. induction Hlk as [|p q l k Hpq _ IH]; intros m Hkm.
  - inversion Hkm. constructor.
  - inversion Hkm as [|? r ? m' Hqr Hrest]; subst. constructor.
    + by eapply same_transfers_trans.
    + by apply IH.
Qed.

Lemma Forall2_same_transfers_insert (l : list MediationPairState) i p q :
  l !! i = Some p -> same_transfers p q -> Forall2 same_transfers l (<[i:=q]> l).
Proof.
  intros Hi Hpq. apply Forall2_same_length_lookup. split.
  - by rewrite length_insert.
  - intros j a b Ha Hb. destruct (decide (i = j)) as [->|Hne].
    + rewrite list_lookup_insert_eq in Hb by (by eapply lookup_lt_Some).
      congruence.
    + rewrite list_lookup_insert_ne in Hb by done.
      replace b with a by congruence. apply same_transfers_refl.
Qed.

(** A loop over references whose body keeps the transfers of the pair it
    visits keeps the transfers of every pair. *)
Lemma for_each_pair_same_transfers {S}
    (body : MediationPairState -> S -> result (MediationPairState * S)) :
  (forall p s p1 s1, body p s = Ok (p1, s1) -> same_transfers p p1) ->
  forall refs pairs s pairs1 s1,
    for_each_pair body refs pairs s = Ok (pairs1, s1) ->
    Forall2 same_transfers pairs pairs1.
Proof.
  intros Hbody. induction refs as [|i refs IH]; intros pairs s pairs1 s1; cbn.
  - intros [= <- <-]. apply Forall2_same_transfers_refl.
  - destruct (pairs !! i) as [p|] eqn:Hi; [|done].
    destruct (body p s) as [[p1 s0]|] eqn:Hp; [|done]. cbn.
    intros Hrest. eapply Forall2_same_transfers_trans; [|by eapply IH].
    eapply Forall2_same_transfers_insert; eauto.
Qed.

Lemma set_payer_state_same st p : same_transfers p (set_payer_state st p).
Proof. done. Qed.

Lemma set_payee_state_same st p : same_transfers p (set_payee_state st p).
Proof. done. Qed.

Lemma events_for_unlock_if_closed_same `{Imports} chans tp s h pairs ev :
  events_for_unlock_if_closed chans tp s h = Ok (pairs, ev) ->
  Forall2 same_transfers tp pairs.
Proof.
  unfold events_for_unlock_if_closed. apply for_each_pair_same_transfers.
  intros p e p1 e1. destruct (get_payer_channel chans p); [|done]. cbn.
  case_match; intros [= <- <-]; [apply set_payer_state_same|apply same_transfers_refl].
Qed.

Lemma reveal_order_loop_same refs tp payee st wrong :
  Forall2 same_transfers tp (reveal_order_loop refs tp payee st wrong).1.
Proof.
  revert wrong. induction refs as [|i refs IH]; intros wrong; cbn.
  - apply Forall2_same_transfers_refl.
  - destruct (tp !! i) as [back|] eqn:Hi; [|apply Forall2_same_transfers_refl].
    repeat case_match; try apply IH. cbn.
    eapply Forall2_same_transfers_insert; [done|apply set_payee_state_same].
Qed.

Lemma set_payee_state_and_check_reveal_order_same tp payee st pairs ev :
  set_payee_state_and_check_reveal_order tp payee st = Ok (pairs, ev) ->
  Forall2 same_transfers tp pairs /\ ev = [].
Proof.
  unfold set_payee_state_and_check_reveal_order.
  destruct (assert _); [|done]. cbn.
  pose proof (reveal_order_loop_same (reversed_refs tp) tp payee st false) as Hsame.
  destruct (reveal_order_loop _ _ _ _ _) as [pairs0 wrong].
  destruct wrong; intros [= <- <-]; done.
Qed.

Lemma events_for_revealsecret_same `{Imports} tp s w pairs out :
  events_for_revealsecret tp s w = Ok (pairs, out) ->
  Forall2 same_transfers tp pairs.
Proof.
  unfold events_for_revealsecret. apply for_each_pair_same_transfers.
  intros p [e w0] p1 s1. case_match.
  - destruct (next_message_identifier w0). intros [= <- <-]. apply set_payer_state_same.
  - intros [= <- <-]. apply same_transfers_refl.
Qed.

Lemma events_for_balanceproof_same `{Imports} w tp block_number s h pairs out :
  events_for_balanceproof w tp block_number s h = Ok (pairs, out) ->
  Forall2 same_transfers tp pairs.
Proof.
  unfold events_for_balanceproof. apply for_each_pair_same_transfers.
  intros p [e w0] p1 s1.
  destruct (get_payee_channel _ _); [|done]. cbn.
  destruct (get_payer_channel _ _); [|done]. cbn.
  destruct (is_safe_to_wait _ _ _) as [[safe msg]|]; [|done]. cbn.
  case_match.
  - destruct (next_message_identifier w0). destruct (send_unlock _ _ _ _ _).
    intros [= <- <-]. apply set_payee_state_same.
  - intros [= <- <-]. apply same_transfers_refl.
Qed.

Lemma set_expired_pairs_same tp block_number :
  Forall2 same_transfers tp (set_expired_pairs tp block_number).1.
Proof.
  rewrite set_expired_pairs_spec. cbn.
  induction tp as [|p tp IH]; constructor; [|done].
  destruct (expired_fields block_number p) as (? & ? & ? & _).
  unfold same_transfers. done.
Qed.

Lemma extends_history_pairs (state : MediatorTransferState) pairs :
  Forall2 same_transfers (transfers_pair state) pairs ->
  extends_history state (with_pairs pairs state).
Proof.
  intros Hsame. split; [done|]. split; [done|].
  exists pairs, []. rewrite app_nil_r. cbn. split; [done|]. split; [done|lia].
Qed.

Lemma set_secret_with_secret `{Imports} state w s h state1 w1 :
  set_secret state w s h = Ok (state1, w1) -> state1 = with_secret s state.
Proof.
  unfold set_secret. destruct (register_on_pairs _ _ _ _ _); [|done].
  cbn. by intros [= <- <-].
Qed.

Lemma set_onchain_secret_with_secret `{Imports} state w s h state1 w1 :
  set_onchain_secret state w s h = Ok (state1, w1) -> state1 = with_secret s state.
Proof.
  unfold set_onchain_secret. destruct (register_on_pairs _ _ _ _ _); [|done].
  cbn. by intros [= <- <-].
Qed.

Lemma secret_learned_history `{Imports} state w block_number s h payee st from_chain
    iteration w1 state1 :
  secret_learned state w block_number s h payee st from_chain = Ok (iteration, w1) ->
  new_state iteration = Some state1 ->
  extends_history state state1
  /\ (secret state = None -> secret state1 = Some s).
Proof.
  unfold secret_learned. destruct (assert _); [|done]. cbn.
  match goal with |- (?m ≫= _) = _ -> _ =>
    destruct m as [[[state0 w0] unlock]|] eqn:Hfirst end; [|done]. cbn.
  destruct (set_payee_state_and_check_reveal_order _ _ _)
    as [[pairs2 wrong]|] eqn:H2; [|done]. cbn.
  destruct (events_for_revealsecret _ _ _) as [[pairs3 [reveal w2]]|] eqn:H3; [|done].
  cbn.
  destruct (events_for_balanceproof _ _ _ _ _) as [[pairs4 [proof w3]]|] eqn:H4;
    [|done]. cbn.
  intros [= <- <-]. cbn. intros [= <-].
  apply set_payee_state_and_check_reveal_order_same in H2 as [H2 _].
  apply events_for_revealsecret_same in H3.
  apply events_for_balanceproof_same in H4.
  assert (Forall2 same_transfers (transfers_pair state0) pairs4) as H04.
  { eapply Forall2_same_transfers_trans; [done|].
    by eapply Forall2_same_transfers_trans. }
  destruct (secret state) as [known|] eqn:Hknown.
  - injection Hfirst as <- <- <-. split; [|done].
    split; [done|]. split; [cbn; congruence|].
    by apply extends_history_pairs.
  - assert (exists pairs1,
              state0 = with_pairs pairs1 (with_secret s state)
              /\ Forall2 same_transfers (transfers_pair state) pairs1)
      as (pairs1 & -> & H01).
    { destruct (if from_chain then set_onchain_secret state w s h
                else set_secret state w s h) as [[state' w']|] eqn:Hset; [|done].
      cbn in Hfirst.
      assert (state' = with_secret s state) as ->.
      { destruct from_chain;
          eauto using set_secret_with_secret, set_onchain_secret_with_secret. }
      destruct (events_for_unlock_if_closed _ _ _ _) as [[pairs1 ev]|] eqn:H1; [|done].
      cbn in Hfirst. injection Hfirst as <- <- <-.
      apply events_for_unlock_if_closed_same in H1. eauto. }
    cbn in *. split; [|done].
    split; [done|]. split; [intros; congruence|].
    exists pairs4, []. rewrite app_nil_r. cbn. split; [done|].
    split; [by eapply Forall2_same_transfers_trans|lia].
Qed.

Lemma mediate_transfer_history `{Imports} state routes payer_channel w payer_transfer
    block_number state1 iteration w1 :
  mediate_transfer state routes payer_channel w payer_transfer block_number
  = Ok (state1, iteration, w1) ->
  new_state iteration = Some state1
  /\ (state1 = state
      \/ exists transfer_pair,
           state1 = with_pairs (transfers_pair state ++ [transfer_pair]) state
           /\ payer_state transfer_pair = payer_pending
           /\ payee_state transfer_pair = payee_pending
           /\ Mediator.payer_transfer transfer_pair = payer_transfer
           /\ exists sent, events iteration = [SendMediatedTransfer sent]
                           /\ payee_transfer transfer_pair = transfer sent).
Proof.
  unfold mediate_transfer. destruct (assert _); [|done]. cbn.
  destruct (next_transfer_pair _ _ _ _) as [[[[transfer_pair|] ev] w0]|] eqn:Hnext;
    [| |done]; cbn.
  - intros [= <- <- <-]. split; [done|]. right. exists transfer_pair. split; [done|].
    unfold next_transfer_pair in Hnext.
    destruct (next_channel_from_routes _ _ _ _) as [[key c]|]; [|done].
    repeat match type of Hnext with
           | (assert ?c ≫= _) = _ => destruct c; [cbn in Hnext|done]
           end.
    destruct (next_message_identifier w).
    destruct (send_lockedtransfer _ _ _ _ _ _ _ _) as [sent c1].
    injection Hnext as <- <- _. cbn. eauto 10.
  - destruct (refund_target _ _ _ _) as [[c t]|]; [|done]. cbn.
    destruct (events_for_refund_transfer _ _ _ _). intros [= <- <- <-]. auto.
Qed.

Lemma extends_history_refl state : extends_history state state.
Proof.
  split; [done|]. split; [done|]. exists (transfers_pair state), [].
  rewrite app_nil_r. split; [done|]. split; [apply Forall2_same_transfers_refl|cbn; lia].
Qed.

Lemma handle_refundtransfer_history `{Imports} state sc w block_number iteration w1
    state1 :
  handle_refundtransfer state sc w block_number = Ok (iteration, w1) ->
  new_state iteration = Some state1 ->
  extends_history state state1.
Proof.
  unfold handle_refundtransfer. destruct (secret state) eqn:Hsecret.
  { intros [= <- <-] [= <-]. apply extends_history_refl. }
  destruct (last _); done.
Qed.

Lemma handle_unlock_history `{Imports} state sc w iteration w1 state1 :
  handle_unlock state sc w = Ok (iteration, w1) ->
  new_state iteration = Some state1 ->
  extends_history state state1.
Proof.
  unfold handle_unlock.
  destruct (for_each_pair _ _ _ _) as [[pairs [ev w0]]|] eqn:Hloop; [|done]. cbn.
  intros [= <- <-] [= <-]. apply extends_history_pairs.
  revert Hloop. apply for_each_pair_same_transfers.
  intros p [e w2] p1 s1. repeat case_match; intros [= <- <-];
    try apply same_transfers_refl; apply set_payer_state_same.
Qed.

Lemma handle_block_history `{Imports} state n w block_number iteration w1 state1 :
  handle_block state n w block_number = Ok (iteration, w1) ->
  new_state iteration = Some state1 ->
  extends_history state state1.
Proof.
  unfold handle_block. destruct (transfers_pair state) as [|first_pair rest] eqn:Hpairs;
    [done|].
  destruct (channels w !! _); [|done].
  destruct (expired_locked_lock _ _ _).
  { destruct (events_for_expired_lock _ _ _) as [[e c] g]. by intros [= <- <-]. }
  destruct (events_for_onchain_secretreveal _ _ _); [|done]. cbn -[set_expired_pairs].
  pose proof (set_expired_pairs_same (first_pair :: rest) block_number) as Hsame.
  destruct (set_expired_pairs _ _) as [pairs ev]. intros [= <- <-] [= <-].
  apply extends_history_pairs. by rewrite Hpairs.
Qed.

Lemma handle_secretreveal_history `{Imports} state sc w block_number
    iteration w1 state1 :
  handle_secretreveal state sc w block_number = Ok (iteration, w1) ->
  new_state iteration = Some state1 ->
  extends_history state state1.
Proof.
  unfold handle_secretreveal. destruct (reveal_secrethash sc); [|done]. cbn.
  case_match.
  - intros Hlearned Hstate. by eapply secret_learned_history.
  - intros [= <- <-] [= <-]. apply extends_history_refl.
Qed.

(** X1: a transition of a mediator state never rewrites its history.  The
    state [state_transition] returns has the secrethash of the state it
    was given, the same secret if one was set, and the same pairs with the
    same payer transfer, payee address and payee transfer, in the same
    order, followed by at most one new pair. *)
Theorem transition_keeps_history `{Imports} (state : MediatorTransferState)
    (state_change : StateChange) (w : World) (block_number : Z)
    (iteration : TransitionResult) (w1 : World) (state1 : MediatorTransferState) :
  state_transition (Some state) state_change w block_number = Ok (iteration, w1) ->
  new_state iteration = Some state1 ->
  extends_history state state1.
Proof.
  unfold state_transition. intros Hstep Hstate.
  match type of Hstep with (?m ≫= _) = _ =>
    destruct m as [[iteration0 w0]|] eqn:Hhandler end; [|done].
  cbn in Hstep.
  assert (new_state iteration0 = Some state1) as Hstate0.
  { destruct (new_state iteration0) as [state0|] eqn:Hs0.
    - destruct (sanity_check state0); [|done]. cbn in Hstep. injection Hstep as <- <-.
      apply clear_if_finalized_Some in Hstate as (Hs & _). congruence.
    - cbn in Hstep. injection Hstep as <- <-.
      apply clear_if_finalized_Some in Hstate as (Hs & _). congruence. }
  clear Hstep Hstate.
  destruct state_change;
    cbn -[handle_block handle_refundtransfer handle_secretreveal handle_unlock]
      in Hhandler.
  - injection Hhandler as <- <-. injection Hstate0 as <-. apply extends_history_refl.
  - by eapply handle_block_history.
  - by eapply handle_refundtransfer_history.
  - by eapply handle_secretreveal_history.
  - by eapply handle_secretreveal_history.
  - by eapply handle_unlock_history.
  - unfold handle_lock_expired in Hhandler.
    destruct (handle_receive_lock_expired _ _) as [[ev c]|]; [|done].
    cbn in Hhandler. by simplify_eq/=.
  - injection Hhandler as <- <-. injection Hstate0 as <-. apply extends_history_refl.
Qed.

Lemma transition_keeps_history_witness :
  state_transition (Some s1_paid) (SCBlock 31) (s1_world 5) 31
  = Ok (s1_expired, s1_world 5)
  /\ extends_history s1_paid (s1_state (Some "S") payer_expired payee_expired).
Proof.
  assert (Hstep : state_transition (Some s1_paid) (SCBlock 31) (s1_world 5) 31
                  = Ok (s1_expired, s1_world 5)) by reflexivity.
  split; [exact Hstep|].
  exact (transition_keeps_history s1_paid (SCBlock 31) (s1_world 5) 31 s1_expired
           (s1_world 5) _ Hstep eq_refl).
Defined.

(** ** One lock for all the pairs *)

Lemma almost_equal_terms (send : LockedTransferUnsignedState)
    (received : LockedTransferSignedState) :
  is_send_transfer_almost_equal send received = true <->
  transfer_terms send = transfer_terms received.
Proof.
  unfold is_send_transfer_almost_equal, transfer_terms.
  rewrite !andb_true_iff, !bool_decide_eq_true.
  destruct (lock send), (lock received). cbn. split.
  - intros [[[[[[-> ->] ->] ->] ->] ->] ->]. done.
  - intros [= -> -> -> -> -> -> ->]. done.
Qed.

Lemma sane_chain_terms (first_pair : MediationPairState) rest :
  Forall pair_is_sane (first_pair :: rest) ->
  Forall refund_is_sane (zip (removelast (first_pair :: rest)) rest) ->
  Forall (fun pair_ =>
            transfer_terms (payer_transfer pair_)
            = transfer_terms (payer_transfer first_pair)
            /\ transfer_terms (payee_transfer pair_)
               = transfer_terms (payer_transfer first_pair))
    (first_pair :: rest).
Proof.
  revert first_pair. induction rest as [|next rest IH]; intros first_pair Hsane Hchain.
  - constructor; [|constructor]. split; [done|].
    apply Forall_inv in Hsane as (Heq & _). by apply almost_equal_terms.
  - change (zip (removelast (first_pair :: next :: rest)) (next :: rest))
      with ((first_pair, next) :: zip (removelast (next :: rest)) rest) in Hchain.
    apply Forall_cons in Hchain as [(Hrefund & _) Hchain].
    apply Forall_cons in Hsane as [(Heq & _) Hsane].
    apply almost_equal_terms in Heq, Hrefund. cbn in Hrefund.
    constructor; [done|].
    specialize (IH next Hsane Hchain).
    eapply Forall_impl; [exact IH|]. cbn. intros pair_ [-> ->]. split; congruence.
Qed.

(** X2: in every state [state_transition] returns, all the transfers of
    all the pairs, received and sent, carry the same payment identifier,
    token, lock (amount, expiration and secrethash), initiator and target,
    and the secrethash of that lock is the one of the state. *)
Theorem pairs_share_one_lock `{Imports} (mediator_state : option MediatorTransferState)
    (state_change : StateChange) (w : World) (block_number : Z)
    (iteration : TransitionResult) (w1 : World) (state : MediatorTransferState)
    (pair_ other : MediationPairState) :
  state_transition mediator_state state_change w block_number = Ok (iteration, w1) ->
  new_state iteration = Some state ->
  pair_ ∈ transfers_pair state ->
  other ∈ transfers_pair state ->
  transfer_terms (payee_transfer pair_) = transfer_terms (payer_transfer pair_)
  /\ transfer_terms (payer_transfer pair_) = transfer_terms (payer_transfer other)
  /\ lock_secrethash (lock (payer_transfer pair_)) = secrethash state.
Proof.
  intros Hstep Hstate Hpair Hother.
  destruct (state_transition_Some _ _ _ _ _ _ _ Hstep Hstate) as [Hsane _].
  apply sanity_check_Ok in Hsane as (_ & Hhash & Hsane & Hchain).
  destruct (transfers_pair state) as [|first_pair rest] eqn:Hpairs.
  { by apply elem_of_nil in Hpair. }
  specialize (Hhash first_pair rest eq_refl). cbn in Hchain.
  pose proof (sane_chain_terms first_pair rest Hsane Hchain) as Hterms.
  rewrite Forall_forall in Hterms.
  destruct (Hterms _ Hpair) as [Hp1 Hp2], (Hterms _ Hother) as [Ho1 _].
  split; [congruence|]. split; [congruence|].
  rewrite Hhash. unfold transfer_terms in Hp1. congruence.
Qed.

Lemma pairs_share_one_lock_witness :
  state_transition (Some s1_paid) (SCBlock 31) (s1_world 5) 31
  = Ok (s1_expired, s1_world 5)
  /\ lock_secrethash (lock (payer_transfer (s1_pair payer_expired payee_expired)))
     = "H"%string.
Proof.
  assert (Hstep : state_transition (Some s1_paid) (SCBlock 31) (s1_world 5) 31
                  = Ok (s1_expired, s1_world 5)) by reflexivity.
  split; [exact Hstep|].
  exact (proj2 (proj2 (pairs_share_one_lock (Some s1_paid) (SCBlock 31) (s1_world 5) 31
                         s1_expired (s1_world 5) _
                         (s1_pair payer_expired payee_expired)
                         (s1_pair payer_expired payee_expired)
                         Hstep eq_refl (list_elem_of_here _ _) (list_elem_of_here _ _)))).
Defined.

(** ** The routes that are left *)

Lemma dict_set_elem {V} (k k1 : Z) (v v1 : V) d :
  (k1, v1) ∈ dict_set k v d -> (k1, v1) = (k, v) \/ (k1, v1) ∈ d.
Proof.
  induction d as [|[k2 v2] d IH]; cbn.
  - intros Hin. apply list_elem_of_singleton in Hin. auto.
  - case_decide as Hk.
    + intros [->|Hin]%elem_of_cons; [auto|]. right. by apply elem_of_cons; right.
    + intros [->|Hin]%elem_of_cons.
      * right. apply list_elem_of_here.
      * destruct (IH Hin); [auto|]. right. by apply elem_of_cons; right.
Qed.

Lemma dict_set_fresh {V} (k : Z) (v : V) d :
  k ∉ map fst d -> dict_set k v d = d ++ [(k, v)].
Proof.
  induction d as [|[k2 v2] d IH]; cbn; [done|].
  intros Hfresh. apply not_elem_of_cons in Hfresh as [Hne Hfresh].
  case_decide; [done|]. by rewrite IH.
Qed.

Lemma routes_dict_elem (routes : list RouteState) d k v :
  (k, v) ∈ fold_left (fun d r => dict_set (route_channel_identifier r) r d) routes d ->
  (k, v) ∈ d \/ (v ∈ routes /\ route_channel_identifier v = k).
Proof.
  revert d. induction routes as [|r routes IH]; intros d; cbn; [auto|].
  intros Hin. destruct (IH _ Hin) as [Hd|[Hv Hk]].
  - apply dict_set_elem in Hd as [[= -> ->]|Hd]; [|auto].
    right. split; [apply list_elem_of_here|done].
  - right. split; [by apply elem_of_cons; right|done].
Qed.

Lemma routes_dict_fresh (routes : list RouteState) d :
  NoDup (map fst d ++ map route_channel_identifier routes) ->
  fold_left (fun d r => dict_set (route_channel_identifier r) r d) routes d
  = d ++ map (fun r => (route_channel_identifier r, r)) routes.
Proof.
  revert d. induction routes as [|r routes IH]; intros d; cbn.
  - intros _. by rewrite app_nil_r.
  - intros Hnodup. rewrite dict_set_fresh.
    + rewrite IH.
      * by rewrite <-app_assoc.
      * rewrite map_app. cbn. by rewrite <-app_assoc.
    + apply NoDup_app in Hnodup as (_ & Hdisjoint & _).
      intros Hin. eapply Hdisjoint; [done|]. apply list_elem_of_here.
Qed.

Lemma list_filter_filter {A} (f g : A -> bool) (l : list A) :
  List.filter f (List.filter g l) = List.filter (fun x => g x && f x) l.
Proof.
  induction l as [|x l IH]; cbn; [done|].
  destruct (g x); cbn; [|done]. destruct (f x); by rewrite IH.
Qed.

Lemma used_routes_deleted (transfers_pair : list MediationPairState)
    (d : list (Z * RouteState)) :
  fold_left
    (fun d pair_ =>
       dict_del (channel_identifier (balance_proof (payee_transfer pair_)))
         (dict_del (channel_identifier (balance_proof (payer_transfer pair_))) d))
    transfers_pair d
  = List.filter
      (fun kv =>
         negb (existsb
                 (fun pair_ =>
                    bool_decide
                      (kv.1 = channel_identifier (balance_proof (payer_transfer pair_)))
                    || bool_decide
                         (kv.1 = channel_identifier
                                   (balance_proof (payee_transfer pair_))))
                 transfers_pair))
      d.
Proof.
  revert d. induction transfers_pair as [|pair_ rest IH]; intros d; cbn.
  - induction d as [|kv d IHd]; cbn; [done|]. by rewrite <-IHd.
  - rewrite IH. unfold dict_del. rewrite !list_filter_filter.
    apply List.filter_ext. intros kv. rewrite !negb_orb. by rewrite andb_assoc.
Qed.

(** X3: [filter_used_routes] returns only routes of the list it is given
    whose channel is neither the payer nor the payee channel of a pair;
    when no two routes of the list share a channel it returns all of them,
    in the order of the list. *)
Theorem filter_used_routes_unused (transfers_pair : list MediationPairState)
    (routes : list RouteState) :
  (forall route, route ∈ filter_used_routes transfers_pair routes ->
     route ∈ routes /\ route_is_used transfers_pair route = false)
  /\ (NoDup (map route_channel_identifier routes) ->
      filter_used_routes transfers_pair routes
      = List.filter (fun route => negb (route_is_used transfers_pair route)) routes).
Proof.
  unfold filter_used_routes, dict_values. rewrite used_routes_deleted. split.
  - intros route Hin. apply list_elem_of_In, in_map_iff in Hin as ([k v] & <- & Hin).
    apply filter_In in Hin as [Hin Hunused]. cbn in *.
    apply list_elem_of_In, routes_dict_elem in Hin as [Hin|[Hin <-]].
    + by apply elem_of_nil in Hin.
    + split; [done|]. by apply negb_true_iff.
  - intros Hnodup. rewrite routes_dict_fresh by done. cbn.
    induction routes as [|r routes IH]; cbn; [done|].
    apply NoDup_cons in Hnodup as [_ Hnodup].
    unfold route_is_used at 1. destruct (negb _); cbn; by rewrite IH.
Qed.

Lemma filter_used_routes_unused_witness :
  NoDup (map route_channel_identifier
           [{| node_address := "payee"; route_channel_identifier := 2 |};
            {| node_address := "next"; route_channel_identifier := 3 |}])
  /\ filter_used_routes [s1_pair payer_pending payee_pending]
       [{| node_address := "payee"; route_channel_identifier := 2 |};
        {| node_address := "next"; route_channel_identifier := 3 |}]
     = [{| node_address := "next"; route_channel_identifier := 3 |}].
Proof.
  assert (Hnodup : NoDup (map route_channel_identifier
                     [{| node_address := "payee"; route_channel_identifier := 2 |};
                      {| node_address := "next"; route_channel_identifier := 3 |}])).
  { apply NoDup_cons. split; [|apply NoDup_singleton].
    intros Hin. apply list_elem_of_singleton in Hin. discriminate. }
  split; [exact Hnodup|].
  exact (eq_trans
           (proj2 (filter_used_routes_unused [s1_pair payer_pending payee_pending] _)
              Hnodup)
           eq_refl).
Defined.

(** ** Forwarding a transfer *)

(** X4: [next_channel_from_routes] returns the channel of the first route
    whose channel is in the channel map and usable for the amount and the
    lock timeout, under the key of that route; it returns nothing exactly
    when no route has such a channel. *)
Theorem next_channel_from_routes_first `{Imports} (available_routes : list RouteState)
    (channelidentifiers_to_channels : gmap Z NettingChannelState)
    (transfer_amount lock_timeout : Z) :
  let unusable route :=
    forall channel_state,
      channelidentifiers_to_channels !! route_channel_identifier route
      = Some channel_state ->
      is_channel_usable channel_state transfer_amount lock_timeout = false in
  match next_channel_from_routes available_routes channelidentifiers_to_channels
          transfer_amount lock_timeout with
  | Some (key, channel_state) =>
      exists skipped route rest,
        available_routes = skipped ++ route :: rest
        /\ Forall unusable skipped
        /\ key = route_channel_identifier route
        /\ channelidentifiers_to_channels !! key = Some channel_state
        /\ is_channel_usable channel_state transfer_amount lock_timeout = true
  | None => Forall unusable available_routes
  end.
Proof.
  intros unusable. induction available_routes as [|route rest IH]; cbn; [constructor|].
  destruct (channelidentifiers_to_channels !! route_channel_identifier route)
    as [channel_state|] eqn:Hlookup.
  - destruct (is_channel_usable channel_state transfer_amount lock_timeout) eqn:Husable.
    + exists [], route, rest. split; [done|]. split; [constructor|]. done.
    + assert (unusable route) as Hroute.
      { intros c Hc. congruence. }
      destruct (next_channel_from_routes rest _ _ _) as [[key c]|].
      * destruct IH as (skipped & r & rest1 & -> & Hskipped & Hrest).
        exists (route :: skipped), r, rest1. split; [done|].
        split; [by constructor|done].
      * by constructor.
  - assert (unusable route) as Hroute.
    { intros c Hc. congruence. }
    destruct (next_channel_from_routes rest _ _ _) as [[key c]|].
    + destruct IH as (skipped & r & rest1 & -> & Hskipped & Hrest).
      exists (route :: skipped), r, rest1. split; [done|].
      split; [by constructor|done].
    + by constructor.
Qed.

Lemma next_channel_from_routes_usable `{Imports} routes chans amount lock_timeout key c :
  next_channel_from_routes routes chans amount lock_timeout = Some (key, c) ->
  chans !! key = Some c /\ is_channel_usable c amount lock_timeout = true.
Proof.
  induction routes as [|route rest IH]; cbn; [done|].
  destruct (chans !! route_channel_identifier route) as [channel_state|] eqn:Hlookup;
    [|done].
  destruct (is_channel_usable channel_state amount lock_timeout) eqn:Husable; [|done].
  intros [= <- <-]. done.
Qed.

(** X5: when the sender of the transfer is the partner of the payer
    channel and [next_channel_from_routes] finds a channel of the token of
    the transfer among the routes that are left, [mediate_transfer] does
    not raise: it appends one pair to the state, made of the received
    transfer and of the transfer that [channel.send_lockedtransfer] sent on
    that channel, with both sides pending, emits that one
    [SendMediatedTransfer], and writes the channel back under its key. *)
Theorem mediate_transfer_forwards `{Imports} (state : MediatorTransferState)
    (possible_routes : list RouteState) (payer_channel : ChannelRef) (w : World)
    (payer_transfer : LockedTransferSignedState) (block_number : Z)
    (key : Z) (payee_channel : NettingChannelState) :
  address (partner_state payer_channel.2) = sender (balance_proof payer_transfer) ->
  next_channel_from_routes
    (filter_used_routes (transfers_pair state) possible_routes) (channels w)
    (amount (lock payer_transfer)) (expiration (lock payer_transfer) - block_number)
  = Some (key, payee_channel) ->
  token_address payee_channel = token payer_transfer ->
  let sent :=
    send_lockedtransfer payee_channel
      (initiator payer_transfer) (target payer_transfer)
      (amount (lock payer_transfer)) (next_message_identifier w).1
      (payment_identifier payer_transfer)
      (expiration (lock payer_transfer))
      (lock_secrethash (lock payer_transfer)) in
  let transfer_pair :=
    {| Mediator.payer_transfer := payer_transfer;
       payee_address := address (partner_state sent.2);
       payee_transfer := transfer sent.1;
       payer_state := payer_pending;
       payee_state := payee_pending |} in
  let state1 := with_pairs (transfers_pair state ++ [transfer_pair]) state in
  mediate_transfer state possible_routes payer_channel w payer_transfer block_number
  = Ok (state1,
        {| new_state := Some state1; events := [SendMediatedTransfer sent.1] |},
        set_channel key sent.2 (next_message_identifier w).2).
Proof.
  intros Hsender Hnext Htoken. cbn zeta.
  unfold mediate_transfer, next_transfer_pair.
  rewrite bool_decide_eq_true_2 by done. cbn [assert mbind result_bind].
  rewrite Hnext.
  apply next_channel_from_routes_usable in Hnext as [_ Husable].
  unfold is_channel_usable in Husable. rewrite !andb_true_iff in Husable.
  destruct Husable as [[[[[[_ _] Hsettle] _] _] _] _].
  rewrite Hsettle, bool_decide_eq_true_2 by done. cbn [assert mbind result_bind].
  destruct (next_message_identifier w) as [message_identifier w1].
  destruct (send_lockedtransfer _ _ _ _ _ _ _ _) as [event payee_channel1].
  reflexivity.
Qed.

Lemma mediate_transfer_forwards_witness :
  mediate_transfer (new_MediatorTransferState "H") (routes offer) (1, s1_payer_channel)
    received_world (from_transfer offer) 5
  = Ok (mediating, mediated, mediating_world 5).
Proof.
  exact (eq_trans
           (mediate_transfer_forwards (new_MediatorTransferState "H") (routes offer)
              (1, s1_payer_channel) received_world (from_transfer offer) 5
              2 (channel 2 5 50 (end_state "us" 10 ∅ ∅) (end_state "payee" 0 ∅ ∅))
              eq_refl eq_refl eq_refl)
           eq_refl).
Defined.

Lemma next_channel_from_routes_first_witness :
  exists skipped route rest,
    routes offer = skipped ++ route :: rest
    /\ Forall
         (fun route =>
            forall channel_state,
              channels received_world !! route_channel_identifier route
              = Some channel_state ->
              is_channel_usable channel_state 10 25 = false)
         skipped
    /\ 2 = route_channel_identifier route
    /\ channels received_world !! 2
       = Some (channel 2 5 50 (end_state "us" 10 ∅ ∅) (end_state "payee" 0 ∅ ∅))
    /\ is_channel_usable
         (channel 2 5 50 (end_state "us" 10 ∅ ∅) (end_state "payee" 0 ∅ ∅)) 10 25
       = true.
Proof.
  exact (next_channel_from_routes_first (routes offer) (channels received_world) 10 25).
Defined.

(** ** The payee that revealed the secret *)

Lemma reveal_order_loop_pairs refs (tp : list MediationPairState) payee st wrong wrong1 :
  (reveal_order_loop refs tp payee st wrong).1
  = (reveal_order_loop refs tp payee st wrong1).1.
Proof.
  revert wrong wrong1. induction refs as [|i refs IH]; intros wrong wrong1; cbn; [done|].
  destruct (tp !! i) as [back|]; [|done]. repeat case_match; cbn; auto.
Qed.

Lemma reveal_order_loop_skip (earlier later : list MediationPairState) payee st :
  forall (j : nat) wrong,
    (j <= length later)%nat ->
    Forall (fun pair_ => payee_address pair_ <> payee) (take j later) ->
    (reveal_order_loop (rev (seq 0 (length earlier + j))) (earlier ++ later)
       payee st wrong).1
    = (reveal_order_loop (rev (seq 0 (length earlier))) (earlier ++ later)
         payee st false).1.
Proof.
  induction j as [|j IH]; intros wrong Hj Hlater.
  - rewrite Nat.add_0_r. apply reveal_order_loop_pairs.
  - replace (length earlier + S j)%nat with (S (length earlier + j)) by lia.
    rewrite seq_S, rev_app_distr. cbn.
    destruct (lookup_lt_is_Some_2 later j) as [back Hback]; [lia|].
    rewrite lookup_app_r by lia.
    replace (length earlier + j - length earlier)%nat with j by lia.
    rewrite Hback.
    rewrite (take_S_r _ _ _ Hback) in Hlater.
    apply Forall_app in Hlater as [Hlater Hne]. rewrite Forall_singleton in Hne.
    rewrite bool_decide_eq_false_2 by done.
    destruct (negb _); apply IH; done || lia.
Qed.

Lemma reveal_order_loop_none (transfers_pair : list MediationPairState) payee st :
  Forall (fun pair_ => payee_address pair_ <> payee) transfers_pair ->
  (reveal_order_loop (reversed_refs transfers_pair) transfers_pair payee st false).1
  = transfers_pair.
Proof.
  intros Hnone. unfold reversed_refs.
  pose proof (reveal_order_loop_skip [] transfers_pair payee st
                (length transfers_pair) false) as Hskip.
  cbn in Hskip. rewrite firstn_all in Hskip. by rewrite Hskip.
Qed.

Lemma reveal_order_loop_latest (earlier later : list MediationPairState) pair_ payee st :
  payee_address pair_ = payee ->
  Forall (fun pair_ => payee_address pair_ <> payee) later ->
  (reveal_order_loop (reversed_refs (earlier ++ pair_ :: later))
     (earlier ++ pair_ :: later) payee st false).1
  = earlier ++ set_payee_state st pair_ :: later.
Proof.
  intros Hpayee Hlater. unfold reversed_refs.
  replace (earlier ++ pair_ :: later) with ((earlier ++ [pair_]) ++ later)
    by (by rewrite <-app_assoc).
  rewrite (length_app (earlier ++ [pair_]) later).
  rewrite reveal_order_loop_skip by (by rewrite ?firstn_all).
  rewrite length_app. cbn. rewrite Nat.add_1_r, seq_S, rev_app_distr. cbn.
  rewrite <-app_assoc. cbn.
  rewrite list_lookup_middle by done. rewrite bool_decide_eq_true_2 by done. cbn.
  rewrite insert_app_r_alt by lia. by rewrite Nat.sub_diag.
Qed.

(** X6: [set_payee_state_and_check_reveal_order] raises [AssertionError]
    for a state that is not a payee state; otherwise it emits no event and
    sets the payee state of the latest pair whose payee address is
    [payee], of that pair only, and leaves the pairs as they are when no
    pair has that payee address. *)
Theorem set_payee_state_of_latest_pair (transfers_pair : list MediationPairState)
    (payee : string) (new_payee_state : TransferState) :
  (state_in new_payee_state valid_payee_states = false ->
   set_payee_state_and_check_reveal_order transfers_pair payee new_payee_state
   = Raise AssertionError)
  /\ (state_in new_payee_state valid_payee_states = true ->
      Forall (fun pair_ => payee_address pair_ <> payee) transfers_pair ->
      set_payee_state_and_check_reveal_order transfers_pair payee new_payee_state
      = Ok (transfers_pair, []))
  /\ (state_in new_payee_state valid_payee_states = true ->
      forall earlier pair_ later,
        transfers_pair = earlier ++ pair_ :: later ->
        payee_address pair_ = payee ->
        Forall (fun pair_ => payee_address pair_ <> payee) later ->
        set_payee_state_and_check_reveal_order transfers_pair payee new_payee_state
        = Ok (earlier ++ set_payee_state new_payee_state pair_ :: later, [])).
Proof.
  unfold set_payee_state_and_check_reveal_order.
  split; [by intros ->|]. split.
  - intros -> Hnone. cbn.
    pose proof (reveal_order_loop_none transfers_pair payee new_payee_state Hnone)
      as Hloop.
    destruct (reveal_order_loop _ _ _ _ _) as [pairs wrong]. cbn in Hloop. subst pairs.
    by destruct wrong.
  - intros -> earlier pair_ later -> Hpayee Hlater. cbn.
    pose proof (reveal_order_loop_latest earlier later pair_ payee new_payee_state
                  Hpayee Hlater) as Hloop.
    destruct (reveal_order_loop _ _ _ _ _) as [pairs wrong]. cbn in Hloop. subst pairs.
    by destruct wrong.
Qed.

Lemma set_payee_state_of_latest_pair_witness :
  set_payee_state_and_check_reveal_order
    [s1_pair payer_pending payee_pending;
     mediation_pair 2 "payee" 3 "next" 30 payer_pending payee_pending]
    "payee" payee_secret_revealed
  = Ok ([s1_pair payer_pending payee_secret_revealed;
         mediation_pair 2 "payee" 3 "next" 30 payer_pending payee_pending], []).
Proof.
  refine (proj2 (proj2 (set_payee_state_of_latest_pair _ "payee" payee_secret_revealed))
            eq_refl [] (s1_pair payer_pending payee_pending)
            [mediation_pair 2 "payee" 3 "next" 30 payer_pending payee_pending]
            eq_refl eq_refl _).
  apply Forall_singleton. discriminate.
Defined.

(** ** Passing the secret on *)

(** A loop from the latest pair to the earliest whose body does not raise
    and depends on the pair it visits only. *)
Lemma for_each_pair_reversed_prefix {S}
    (body : MediationPairState -> S -> result (MediationPairState * S))
    (g : MediationPairState -> MediationPairState) (h : MediationPairState -> S -> S) :
  (forall p s, body p s = Ok (g p, h p s)) ->
  forall (k : nat) pairs s,
    (k <= length pairs)%nat ->
    for_each_pair body (rev (seq 0 k)) pairs s
    = Ok (map g (take k pairs) ++ drop k pairs, fold_right h s (take k pairs)).
Proof.
  intros Hbody. induction k as [|k IH]; intros pairs s Hk.
  - cbn. by rewrite drop_0.
  - rewrite seq_S, rev_app_distr. cbn.
    destruct (lookup_lt_is_Some_2 pairs k) as [p Hp]; [lia|].
    rewrite Hp, Hbody. cbn.
    rewrite IH by (rewrite length_insert; lia).
    rewrite take_insert_ge by lia.
    rewrite drop_insert_ge by lia. rewrite Nat.sub_diag.
    rewrite (drop_S _ _ _ Hp). cbn.
    rewrite (take_S_r _ _ _ Hp), map_app, fold_right_app, <-app_assoc. done.
Qed.

Lemma for_each_pair_reversed {S}
    (body : MediationPairState -> S -> result (MediationPairState * S))
    (g : MediationPairState -> MediationPairState) (h : MediationPairState -> S -> S) :
  (forall p s, body p s = Ok (g p, h p s)) ->
  forall pairs s,
    for_each_pair body (reversed_refs pairs) pairs s
    = Ok (map g pairs, fold_right h s pairs).
Proof.
  intros Hbody pairs s. unfold reversed_refs.
  rewrite (for_each_pair_reversed_prefix body g h Hbody) by done.
  by rewrite firstn_all, drop_all, app_nil_r.
Qed.

Lemma owes_reveal_passed_on pair_ : owes_reveal (reveal_passed_on pair_) = false.
Proof.
  unfold reveal_passed_on. destruct (owes_reveal pair_) eqn:Howes; [|done].
  unfold owes_reveal. cbn. by rewrite andb_false_r.
Qed.

Lemma events_for_revealsecret_fold `{Imports} (transfers_pair : list MediationPairState)
    s w :
  events_for_revealsecret transfers_pair s w
  = Ok (map reveal_passed_on transfers_pair,
        fold_right (reveal_step s) ([], w) transfers_pair).
Proof.
  unfold events_for_revealsecret. apply for_each_pair_reversed.
  intros p [ev w0]. unfold reveal_passed_on, reveal_step, owes_reveal.
  destruct (bool_decide (payer_state p = payer_pending)) eqn:Hpending.
  - apply bool_decide_eq_true in Hpending. rewrite Hpending. cbn.
    rewrite !andb_true_r.
    destruct (state_in (payee_state p) STATE_SECRET_KNOWN); cbn; [|done].
    by destruct (next_message_identifier w0).
  - by rewrite !andb_false_r.
Qed.

Lemma reveal_step_events `{Imports} (transfers_pair : list MediationPairState)
    s events w :
  exists revealed w1,
    fold_right (reveal_step s) (events, w) transfers_pair = (events ++ revealed, w1)
    /\ channels w1 = channels w
    /\ Forall2
         (fun e pair_ =>
            exists message_identifier,
              e = SendRevealSecret (sender (balance_proof (payer_transfer pair_)))
                    CHANNEL_IDENTIFIER_GLOBAL_QUEUE message_identifier s)
         revealed (rev (List.filter owes_reveal transfers_pair)).
Proof.
  induction transfers_pair as [|p rest IH]; cbn.
  - exists [], w. rewrite app_nil_r. split; [done|]. split; [done|constructor].
  - destruct IH as (revealed & w1 & -> & Hchannels & Hevents).
    unfold reveal_step at 1. destruct (owes_reveal p); cbn.
    + eexists (revealed ++ [_]), _. rewrite app_assoc. split; [done|].
      split.
      * unfold next_message_identifier.
        by destruct (message_identifier_from_prng (prng w1)).
      * apply Forall2_app; [done|]. constructor; [eauto|constructor].
    + eauto.
Qed.

(** X7: [events_for_revealsecret] never raises.  It moves the payer side
    of every pair whose payee knows the secret from [payer_pending] to
    [payer_secret_revealed] and changes nothing else; it emits one
    [SendRevealSecret] with the secret for each of these pairs, to the
    sender of its payer transfer, from the latest pair to the earliest;
    and it leaves the channels alone.  Run again on its result it changes
    nothing and emits nothing. *)
Theorem events_for_revealsecret_once `{Imports}
    (transfers_pair : list MediationPairState) (s : string) (w : World) :
  exists revealed w1,
    events_for_revealsecret transfers_pair s w
    = Ok (map reveal_passed_on transfers_pair, (revealed, w1))
    /\ Forall2
         (fun e pair_ =>
            exists message_identifier,
              e = SendRevealSecret (sender (balance_proof (payer_transfer pair_)))
                    CHANNEL_IDENTIFIER_GLOBAL_QUEUE message_identifier s)
         revealed (rev (List.filter owes_reveal transfers_pair))
    /\ channels w1 = channels w
    /\ events_for_revealsecret (map reveal_passed_on transfers_pair) s w1
       = Ok (map reveal_passed_on transfers_pair, ([], w1)).
Proof.
  destruct (reveal_step_events transfers_pair s [] w)
    as (revealed & w1 & Hfold & Hchannels & Hevents).
  exists revealed, w1. rewrite !events_for_revealsecret_fold, Hfold. cbn.
  split; [done|]. split; [done|]. split; [done|].
  f_equal. f_equal.
  - rewrite map_map. apply map_ext. intros p. unfold reveal_passed_on at 1.
    by rewrite owes_reveal_passed_on.
  - clear. induction transfers_pair as [|p rest IH]; cbn; [done|].
    rewrite IH. unfold reveal_step. by rewrite owes_reveal_passed_on.
Qed.

(** ** Paying the payee *)

Lemma for_each_pair_outside {S}
    (body : MediationPairState -> S -> result (MediationPairState * S)) :
  forall refs pairs s pairs1 s1 (j : nat),
    for_each_pair body refs pairs s = Ok (pairs1, s1) ->
    j ∉ refs -> pairs1 !! j = pairs !! j.
Proof.
  induction refs as [|i refs IH]; intros pairs s pairs1 s1 j; cbn.
  - by intros [= <- <-].
  - destruct (pairs !! i) as [p|] eqn:Hi; [|done].
    destruct (body p s) as [[p1 s0]|]; [|done]. cbn.
    intros Hloop Hj. apply not_elem_of_cons in Hj as [Hne Hj].
    rewrite (IH _ _ _ _ _ Hloop Hj). by apply list_lookup_insert_ne.
Qed.

(** A loop that visits no pair twice relates each pair after it to the
    pair before it as its body does. *)
Lemma for_each_pair_pointwise {S} (R : relation MediationPairState)
    (body : MediationPairState -> S -> result (MediationPairState * S)) :
  (forall p, R p p) ->
  (forall p s p1 s1, body p s = Ok (p1, s1) -> R p p1) ->
  forall refs pairs s pairs1 s1,
    NoDup refs ->
    for_each_pair body refs pairs s = Ok (pairs1, s1) ->
    Forall2 R pairs pairs1.
Proof.
  intros Hrefl Hbody.
  induction refs as [|i refs IH]; intros pairs s pairs1 s1 Hnodup; cbn.
  - intros [= <- <-]. apply Forall_Forall2_diag, Forall_forall. auto.
  - destruct (pairs !! i) as [p|] eqn:Hi; [|done].
    destruct (body p s) as [[p1 s0]|] eqn:Hp; [|done]. cbn.
    apply NoDup_cons in Hnodup as [Hfresh Hnodup]. intros Hloop.
    pose proof (IH _ _ _ _ Hnodup Hloop) as Hrest.
    pose proof (for_each_pair_outside body _ _ _ _ _ i Hloop Hfresh) as Hkept.
    rewrite list_lookup_insert_eq in Hkept by (by eapply lookup_lt_Some).
    apply Forall2_same_length_lookup. split.
    + apply Forall2_length in Hrest. by rewrite length_insert in Hrest.
    + intros j a b Ha Hb. destruct (decide (i = j)) as [<-|Hne].
      * replace a with p by congruence. replace b with p1 by congruence. eauto.
      * eapply Forall2_lookup_lr; [exact Hrest| |exact Hb].
        by rewrite list_lookup_insert_ne.
Qed.

Lemma NoDup_reversed_refs (transfers_pair : list MediationPairState) :
  NoDup (reversed_refs transfers_pair).
Proof. unfold reversed_refs. apply NoDup_ListNoDup, NoDup_rev, seq_NoDup. Qed.

Lemma events_for_balanceproof_pays `{Imports} (w : World)
    (transfers_pair : list MediationPairState) (block_number : Z) (s h : string)
    (pairs : list MediationPairState) (out : list Event * World) :
  events_for_balanceproof w transfers_pair block_number s h = Ok (pairs, out) ->
  Forall2
    (fun before after =>
       after = before \/ after = set_payee_state payee_balance_proof before)
    transfers_pair pairs.
Proof.
  unfold events_for_balanceproof. intros Hloop.
  eapply for_each_pair_pointwise; [| |apply NoDup_reversed_refs|exact Hloop].
  { auto. }
  intros p [ev w0] p1 s1. cbn.
  destruct (get_payee_channel _ _) as [payee_channel|]; [|done]. cbn.
  destruct (get_payer_channel _ _) as [payer_channel|]; [|done]. cbn.
  destruct (is_safe_to_wait _ _ _) as [[safe msg]|]; [|done]. cbn.
  match goal with |- context [if ?c then _ else _] => destruct c end.
  - destruct (next_message_identifier w0). destruct (send_unlock _ _ _ _ _).
    intros [= <- <-]. auto.
  - intros [= <- <-]. auto.
Qed.

(** X8: [events_for_balanceproof], when it returns, has changed a pair
    only by setting its payee side to [payee_balance_proof], and only for
    a payee that knew the secret and was not paid yet, at a positive block
    number that leaves more than one block before the lock of the payer
    transfer expires. *)
Theorem balance_proof_only_in_time `{Imports} (w : World)
    (transfers_pair : list MediationPairState) (block_number : Z) (s h : string)
    (pairs : list MediationPairState) (out : list Event * World) :
  events_for_balanceproof w transfers_pair block_number s h = Ok (pairs, out) ->
  Forall2
    (fun before after =>
       after = before
       \/ (after = set_payee_state payee_balance_proof before
           /\ state_in (payee_state before) STATE_SECRET_KNOWN = true
           /\ state_in (payee_state before) STATE_TRANSFER_PAID = false
           /\ 0 < block_number
           /\ block_number + 1 < expiration (lock (payer_transfer before))))
    transfers_pair pairs.
Proof.
  unfold events_for_balanceproof. intros Hloop.
  eapply for_each_pair_pointwise; [| |apply NoDup_reversed_refs|exact Hloop].
  { auto. }
  intros p [ev w0] p1 s1. cbn.
  destruct (get_payee_channel _ _) as [payee_channel|]; [|done]. cbn.
  destruct (get_payer_channel _ _) as [payer_channel|]; [|done]. cbn.
  destruct (is_safe_to_wait _ _ _) as [[safe msg]|] eqn:Hsafe; [|done]. cbn.
  apply is_safe_to_wait_Ok in Hsafe as (-> & Hblock & Hreveal & _).
  match goal with |- context [if ?c then _ else _] => destruct c eqn:Hsend end.
  - destruct (next_message_identifier w0). destruct (send_unlock _ _ _ _ _).
    intros [= <- <-]. right.
    rewrite !andb_true_iff, negb_true_iff in Hsend.
    destruct Hsend as [[[_ Hknown] Hpaid] Hlate%Z.ltb_lt].
    repeat split; try done; lia.
  - intros [= <- <-]. auto.
Qed.

Lemma balance_proof_only_in_time_witness :
  events_for_balanceproof (mediating_world 5)
    [s1_pair payer_secret_revealed payee_secret_revealed] 7 "S" "H"
  = Ok ([s1_pair payer_secret_revealed payee_balance_proof],
        ([SendUnlock "payee" 1 1 "S" "H"; EventUnlockSuccess 1 "H"], paid_world))
  /\ 7 + 1 < expiration (lock (payer_transfer
                                 (s1_pair payer_secret_revealed payee_secret_revealed))).
Proof.
  assert (Hpaid : events_for_balanceproof (mediating_world 5)
                    [s1_pair payer_secret_revealed payee_secret_revealed] 7 "S" "H"
                  = Ok ([s1_pair payer_secret_revealed payee_balance_proof],
                        ([SendUnlock "payee" 1 1 "S" "H"; EventUnlockSuccess 1 "H"],
                         paid_world))) by reflexivity.
  split; [exact Hpaid|].
  pose proof (balance_proof_only_in_time _ _ _ _ _ _ _ Hpaid) as Hpairs.
  apply Forall2_cons_1 in Hpairs as [[Hsame|(_ & _ & _ & _ & Htime)] _].
  - discriminate Hsame.
  - exact Htime.
Defined.

(** ** Secret reveals *)

(** X9: a reveal of the secret seen on the chain is ignored once the
    secret is set, and when it is of another secrethash:
    [handle_secretreveal] returns the state as it is, no event, and touches
    neither the channels nor the generator; and so does [state_transition]
    on every state the machine reaches.  The reveal of a message does not
    get that far: [ReceiveSecretReveal] has no [secrethash], and
    [state_transition] raises [AttributeError] on it whatever the state
    is. *)
Theorem secretreveal_ignored_unless_new `{Imports} (state : MediatorTransferState)
    (state_change : ContractReceiveSecretReveal) (w : World) (block_number : Z) :
  secret state <> None \/ onchain_secrethash state_change <> secrethash state ->
  handle_secretreveal state (OnChain state_change) w block_number
  = Ok (unchanged state, w)
  /\ (reachable (Some state) ->
      state_transition (Some state) (SCContractReceiveSecretReveal state_change) w
        block_number
      = Ok (unchanged state, w))
  /\ (forall mediator_state (message : ReceiveSecretReveal),
        state_transition mediator_state (SCReceiveSecretReveal message) w
          block_number
        = Raise AttributeError).
Proof.
  intros Hold.
  assert (handle_secretreveal state (OnChain state_change) w block_number
          = Ok (unchanged state, w)) as Hhandle.
  { unfold handle_secretreveal. cbn.
    destruct Hold as [Hknown|Hother].
    - by rewrite (bool_decide_eq_false_2 _ Hknown).
    - by rewrite (bool_decide_eq_false_2 _ Hother), andb_false_r. }
  split; [done|]. split.
  - intros Hreach.
    destruct (reachable_Some _ Hreach) as [Hsane Hall].
    unfold state_transition. cbn -[handle_secretreveal]. rewrite Hhandle. cbn.
    rewrite Hsane. cbn. unfold clear_if_finalized. cbn. rewrite Hall. done.
  - intros [mediator_state|] message; reflexivity.
Qed.

Lemma secretreveal_ignored_unless_new_witness :
  handle_secretreveal s1_paid (OnChain onchain_reveal) (s1_world 5) 20
  = Ok (unchanged s1_paid, s1_world 5)
  /\ state_transition (Some s1_paid) (SCReceiveSecretReveal offchain_reveal)
       (s1_world 5) 20
     = Raise AttributeError.
Proof.
  destruct (secretreveal_ignored_unless_new s1_paid onchain_reveal (s1_world 5) 20)
    as (Hhandle & _ & Hmessage).
  - left. discriminate.
  - split; [exact Hhandle|apply Hmessage].
Defined.

(** A loop over references whose body keeps a property of the pair it
    visits keeps it of every pair. *)
Lemma for_each_pair_Forall {S} (P : MediationPairState -> Prop)
    (body : MediationPairState -> S -> result (MediationPairState * S)) :
  (forall p s p1 s1, P p -> body p s = Ok (p1, s1) -> P p1) ->
  forall refs pairs s pairs1 s1,
    Forall P pairs ->
    for_each_pair body refs pairs s = Ok (pairs1, s1) ->
    Forall P pairs1.
Proof.
  intros Hbody. induction refs as [|i refs IH]; intros pairs s pairs1 s1 Hall; cbn.
  - by intros [= <- <-].
  - destruct (pairs !! i) as [p|] eqn:Hi; [|done].
    destruct (body p s) as [[p1 s0]|] eqn:Hp; [|done]. cbn.
    apply IH. apply Forall_insert; [done|].
    eapply Hbody; [|done]. by eapply Forall_lookup_1.
Qed.

Lemma owes_reveal_payer_state st pair_ :
  st <> payer_pending -> owes_reveal (set_payer_state st pair_) = false.
Proof.
  intros Hst. unfold owes_reveal. cbn.
  by rewrite (bool_decide_eq_false_2 _ Hst), andb_false_r.
Qed.

Lemma secret_learned_owes_nothing `{Imports} state w block_number s h payee st from_chain
    iteration w1 state1 :
  secret_learned state w block_number s h payee st from_chain = Ok (iteration, w1) ->
  new_state iteration = Some state1 ->
  Forall (fun pair_ => owes_reveal pair_ = false) (transfers_pair state1).
Proof.
  unfold secret_learned. destruct (assert _); [|done]. cbn.
  match goal with |- (?m ≫= _) = _ -> _ =>
    destruct m as [[[state0 w0] unlock]|] end; [|done]. cbn.
  destruct (set_payee_state_and_check_reveal_order _ _ _)
    as [[pairs2 wrong]|]; [|done]. cbn.
  rewrite events_for_revealsecret_fold.
  destruct (fold_right _ _ _) as [reveal w2]. cbn.
  destruct (events_for_balanceproof _ _ _ _ _) as [[pairs4 [proof w3]]|] eqn:H4;
    [|done]. cbn.
  intros [= <- <-]. cbn. intros [= <-]. cbn.
  revert H4. unfold events_for_balanceproof. apply for_each_pair_Forall.
  - intros p [e w4] p1 s1 Hp.
    destruct (get_payee_channel _ _); [|done]. cbn.
    destruct (get_payer_channel _ _); [|done]. cbn.
    destruct (is_safe_to_wait _ _ _) as [[safe msg]|]; [|done]. cbn.
    match goal with |- context [if ?c then _ else _] => destruct c eqn:Hsend end.
    + destruct (next_message_identifier w4). destruct (send_unlock _ _ _ _ _).
      intros [= <- <-]. rewrite !andb_true_iff in Hsend.
      destruct Hsend as [[[_ Hknown] _] _].
      unfold owes_reveal in *. cbn. by rewrite Hknown in Hp.
    + by intros [= <- <-].
  - apply Forall_map, Forall_forall. intros. apply owes_reveal_passed_on.
Qed.

(** ** No secret is sat on *)

Lemma owes_reveal_expired block_number pair_ :
  owes_reveal pair_ = false -> owes_reveal (expired block_number pair_) = false.
Proof.
  destruct (expired_fields block_number pair_) as (_ & _ & _ & Hpayer & Hpayee).
  unfold owes_reveal. destruct Hpayer as [-> | ->], Hpayee as [-> | ->]; try done;
    intros _; apply andb_false_r.
Qed.

Lemma mediate_transfer_owes_nothing `{Imports} state routes payer_channel w
    payer_transfer block_number state1 iteration w1 :
  Forall (fun pair_ => owes_reveal pair_ = false) (transfers_pair state) ->
  mediate_transfer state routes payer_channel w payer_transfer block_number
  = Ok (state1, iteration, w1) ->
  Forall (fun pair_ => owes_reveal pair_ = false) (transfers_pair state1).
Proof.
  intros Hall Hm.
  apply mediate_transfer_history in Hm
    as [_ [->|(transfer_pair & -> & Hpayer & Hpayee & _)]]; [done|].
  cbn. apply Forall_app. split; [done|]. apply Forall_singleton.
  unfold owes_reveal. by rewrite Hpayee.
Qed.

Lemma transition_owes_nothing `{Imports} mediator_state state_change w block_number
    iteration w1 state1 :
  (forall state, mediator_state = Some state ->
     Forall (fun pair_ => owes_reveal pair_ = false) (transfers_pair state)) ->
  state_transition mediator_state state_change w block_number = Ok (iteration, w1) ->
  new_state iteration = Some state1 ->
  Forall (fun pair_ => owes_reveal pair_ = false) (transfers_pair state1).
Proof.
  unfold state_transition. intros Hbefore Hstep Hstate.
  match type of Hstep with (?m ≫= _) = _ =>
    destruct m as [[iteration0 w0]|] eqn:Hhandler end; [|done].
  cbn in Hstep.
  assert (new_state iteration0 = Some state1) as Hstate0.
  { destruct (new_state iteration0) as [state0|] eqn:Hs0.
    - destruct (sanity_check state0); [|done]. cbn in Hstep. injection Hstep as <- <-.
      apply clear_if_finalized_Some in Hstate as (Hs & _). congruence.
    - cbn in Hstep. injection Hstep as <- <-.
      apply clear_if_finalized_Some in Hstate as (Hs & _). congruence. }
  clear Hstep Hstate.
  destruct state_change as [sc|n|sc|sc|sc|sc|sc|].
  - destruct mediator_state as [state|].
    { injection Hhandler as <- <-. injection Hstate0 as <-. auto. }
    unfold handle_init in Hhandler. destruct (channels w !! _); [|by simplify_eq/=].
    destruct (handle_receive_lockedtransfer _ _) as [[valid ev] c].
    destruct valid; cbn in Hhandler; [|by simplify_eq/=].
    destruct (mediate_transfer _ _ _ _ _ _) as [[[state0 it0] w2]|] eqn:Hm; [|done].
    cbn in Hhandler. injection Hhandler as <- <-. cbn in Hstate0.
    pose proof (mediate_transfer_history _ _ _ _ _ _ _ _ _ Hm) as [Hnew _].
    replace state1 with state0 by congruence.
    eapply mediate_transfer_owes_nothing; [|exact Hm]. constructor.
  - destruct mediator_state as [state|]; [|done]. cbn in Hhandler.
    specialize (Hbefore state eq_refl). unfold handle_block in Hhandler.
    destruct (transfers_pair state) as [|first_pair rest] eqn:Hpairs; [done|].
    destruct (channels w !! _); [|done].
    destruct (expired_locked_lock _ _ _).
    { destruct (events_for_expired_lock _ _ _) as [[e c] g]. by simplify_eq/=. }
    destruct (events_for_onchain_secretreveal _ _ _); [|done].
    cbn -[set_expired_pairs] in Hhandler. rewrite set_expired_pairs_spec in Hhandler.
    injection Hhandler as <- <-. injection Hstate0 as <-.
    apply (proj2 (Forall_map (expired block_number) _ (first_pair :: rest))).
    eapply Forall_impl; [exact Hbefore|].
    intros p. apply owes_reveal_expired.
  - destruct mediator_state as [state|]; [|done]. cbn in Hhandler.
    specialize (Hbefore state eq_refl). unfold handle_refundtransfer in Hhandler.
    destruct (secret state). { by simplify_eq/=. }
    destruct (last _); done.
  - destruct mediator_state as [state|]; done.
  - destruct mediator_state as [state|]; [|done]. cbn in Hhandler.
    specialize (Hbefore state eq_refl). unfold handle_secretreveal in Hhandler.
    cbn in Hhandler.
    destruct (_ && _); [by eapply secret_learned_owes_nothing|by simplify_eq/=].
  - destruct mediator_state as [state|]; [|done]. cbn in Hhandler.
    specialize (Hbefore state eq_refl). unfold handle_unlock in Hhandler.
    destruct (for_each_pair _ _ _ _) as [[pairs [ev w2]]|] eqn:Hloop; [|done].
    cbn in Hhandler. injection Hhandler as <- <-. injection Hstate0 as <-. cbn.
    revert Hloop. apply for_each_pair_Forall; [|done].
    intros p [e w3] p1 s1 Hp. repeat case_match; intros [= <- <-]; try done.
    by apply owes_reveal_payer_state.
  - cbn in Hhandler. unfold handle_lock_expired in Hhandler.
    destruct (handle_receive_lock_expired _ _) as [[ev c]|]; [|done].
    cbn in Hhandler. by simplify_eq/=.
  - injection Hhandler as <- <-. cbn in Hstate0. auto.
Qed.

(** X10: in every state the machine reaches, a pair whose payee side
    knows the secret has a payer side that is not [payer_pending]: the
    payer was sent the secret, its channel is closed and waits for the
    unlock, it has paid, or its lock has expired.  No reachable state pairs
    a payee that knows the secret with a payer that has heard nothing. *)
Theorem payer_not_pending_once_payee_knows `{Imports} (state : MediatorTransferState)
    (pair_ : MediationPairState) :
  reachable (Some state) ->
  pair_ ∈ transfers_pair state ->
  state_in (payee_state pair_) STATE_SECRET_KNOWN = true ->
  payer_state pair_ <> payer_pending
  /\ payer_state pair_ ∈ [payer_secret_revealed; payer_waiting_close;
                          payer_waiting_unlock; payer_balance_proof; payer_expired].
Proof.
  intros Hreach Hpair Hknown.
  assert (payer_state pair_ <> payer_pending) as Hpending.
  { intros Hpending.
    assert (forall mediator_state,
              reachable mediator_state ->
              forall state, mediator_state = Some state ->
                Forall (fun pair_ => owes_reveal pair_ = false) (transfers_pair state))
      as Hinv.
    { clear. induction 1 as [|mediator_state sc w bn it w1 _ IH Hstep]; [done|].
      intros state Hstate. by eapply transition_owes_nothing. }
    specialize (Hinv _ Hreach state eq_refl). rewrite Forall_forall in Hinv.
    specialize (Hinv _ Hpair). unfold owes_reveal in Hinv.
    rewrite Hknown, Hpending in Hinv. done. }
  split; [done|].
  destruct (reachable_Some _ Hreach) as [Hsane _].
  apply sanity_check_Ok in Hsane as (_ & _ & Hpairs & _).
  rewrite Forall_forall in Hpairs. destruct (Hpairs _ Hpair) as (_ & Hvalid & _).
  destruct (payer_state pair_); try done;
    try (vm_compute in Hvalid; discriminate Hvalid); repeat constructor.
Qed.

Lemma payer_not_pending_once_payee_knows_witness :
  state_transition None (SCActionInitMediator offer) (offer_world 5 10) 5
  = Ok (mediated, mediating_world 5)
  /\ state_transition (Some mediating) (SCContractReceiveSecretReveal onchain_reveal)
       (mediating_world 5) 7
     = Ok (revealed, revealed_world)
  /\ payer_state (s1_pair payer_secret_revealed payee_balance_proof) <> payer_pending.
Proof.
  assert (Hinit : state_transition None (SCActionInitMediator offer) (offer_world 5 10) 5
                  = Ok (mediated, mediating_world 5)) by reflexivity.
  assert (Hreveal : state_transition (Some mediating)
                      (SCContractReceiveSecretReveal onchain_reveal)
                      (mediating_world 5) 7
                    = Ok (revealed, revealed_world)) by reflexivity.
  split; [exact Hinit|]. split; [exact Hreveal|].
  refine (proj1 (payer_not_pending_once_payee_knows s1_paid _ _
                   (list_elem_of_here _ _) eq_refl)).
  exact (reachable_step _ _ _ _ _ _
           (reachable_step _ _ _ _ _ _ reachable_init Hinit) Hreveal).
Defined.

(** ** Unlocks *)

Lemma for_each_pair_app {S}
    (body : MediationPairState -> S -> result (MediationPairState * S))
    (refs1 refs2 : list nat) :
  forall pairs s,
    for_each_pair body (refs1 ++ refs2) pairs s
    = '(pairs1, s1) ← for_each_pair body refs1 pairs s;
      for_each_pair body refs2 pairs1 s1.
Proof.
  induction refs1 as [|i refs1 IH]; intros pairs s; cbn; [done|].
  destruct (pairs !! i) as [p|]; [|done].
  destruct (body p s) as [[p1 s1]|]; [|done]. cbn. apply IH.
Qed.

(** A loop whose body leaves the pairs it visits and what it carries as
    they are changes nothing. *)
Lemma for_each_pair_id {S}
    (body : MediationPairState -> S -> result (MediationPairState * S))
    (refs : list nat) (pairs : list MediationPairState) (s : S) :
  Forall (fun i => exists p, pairs !! i = Some p /\ body p s = Ok (p, s)) refs ->
  for_each_pair body refs pairs s = Ok (pairs, s).
Proof.
  induction 1 as [|i refs (p & Hi & Hp) _ IH]; cbn; [done|].
  rewrite Hi, Hp. cbn. by rewrite list_insert_id.
Qed.

(** A loop over references to pairs of the list whose body does not raise
    does not raise. *)
Lemma for_each_pair_total {S}
    (body : MediationPairState -> S -> result (MediationPairState * S)) :
  (forall p s, exists p1 s1, body p s = Ok (p1, s1)) ->
  forall refs pairs s,
    Forall (fun i => (i < length pairs)%nat) refs ->
    exists pairs1 s1, for_each_pair body refs pairs s = Ok (pairs1, s1).
Proof.
  intros Hbody. induction refs as [|i refs IH]; intros pairs s Hrefs; cbn; [eauto|].
  apply Forall_cons in Hrefs as [Hi Hrefs].
  destruct (lookup_lt_is_Some_2 pairs i Hi) as [p ->].
  destruct (Hbody p s) as (p1 & s1 & ->). cbn.
  apply IH. by rewrite length_insert.
Qed.

(** X11: [handle_unlock] ignores an unlock whose sender is the sender of
    no payer transfer, and an unlock for a channel that is not in the
    channel map: it returns the state as it is, no event, and touches
    neither the channels nor the generator. *)
Theorem unlock_of_stranger_is_ignored `{Imports} (state : MediatorTransferState)
    (state_change : ReceiveUnlock) (w : World) :
  Forall (fun pair_ => sender (balance_proof (payer_transfer pair_))
                       <> sender (unlock_balance_proof state_change))
    (transfers_pair state)
  \/ channels w !! channel_identifier (unlock_balance_proof state_change) = None ->
  handle_unlock state state_change w = Ok (unchanged state, w).
Proof.
  intros Hstranger. unfold handle_unlock. rewrite for_each_pair_id.
  - cbn. unfold unchanged. by destruct state.
  - apply Forall_forall. intros i Hi%list_elem_of_In%in_seq.
    destruct (lookup_lt_is_Some_2 (transfers_pair state) i) as [p Hp]; [lia|].
    exists p. split; [done|]. destruct Hstranger as [Hsender|Hchannel].
    + rewrite bool_decide_eq_false_2; [done|].
      eapply (proj1 (Forall_forall _ _) Hsender), list_elem_of_lookup_2. done.
    + rewrite Hchannel. by case_bool_decide.
Qed.

Lemma unlock_of_stranger_is_ignored_witness :
  handle_unlock mediating payer_unlock payee_only_world
  = Ok (unchanged mediating, payee_only_world).
Proof.
  apply (unlock_of_stranger_is_ignored mediating payer_unlock payee_only_world).
  right. reflexivity.
Defined.

Lemma sanity_check_paid_without_secret `{Imports} (state : MediatorTransferState) pair_ :
  secret state = None ->
  pair_ ∈ transfers_pair state ->
  payer_state pair_ = payer_balance_proof ->
  sanity_check state = Raise AssertionError.
Proof.
  intros Hsecret Hpair Hpaid. unfold sanity_check.
  assert (some_transfer_paid state) as Hsome.
  { exists pair_. split; [done|]. right. by rewrite Hpaid. }
  apply existsb_paid_iff in Hsome. rewrite Hsome, Hsecret. done.
Qed.

(** X12: an unlock that the channel accepts before the mediator has the
    secret makes the machine raise.  When the secret of the state is not
    set, a pair has a payer transfer sent by the sender of the unlock, no
    earlier pair has, and [channel.handle_unlock] accepts the unlock on the
    channel of its balance proof, [handle_unlock] marks that pair
    [payer_balance_proof] and [state_transition] raises [AssertionError]
    from [sanity_check]. *)
Theorem unlock_before_secret_raises `{Imports} (state : MediatorTransferState)
    (state_change : ReceiveUnlock) (w : World) (block_number : Z)
    (earlier later : list MediationPairState) (pair_ : MediationPairState)
    (channel_state channel_state1 : NettingChannelState)
    (channel_events : list Event) :
  secret state = None ->
  transfers_pair state = earlier ++ pair_ :: later ->
  Forall (fun pair_ => sender (balance_proof (payer_transfer pair_))
                       <> sender (unlock_balance_proof state_change))
    earlier ->
  sender (balance_proof (payer_transfer pair_))
  = sender (unlock_balance_proof state_change) ->
  channels w !! channel_identifier (unlock_balance_proof state_change)
  = Some channel_state ->
  channel_handle_unlock channel_state state_change
  = (true, channel_events, channel_state1) ->
  (exists iteration w1 state1,
     handle_unlock state state_change w = Ok (iteration, w1)
     /\ new_state iteration = Some state1
     /\ transfers_pair state1 !! length earlier
        = Some (set_payer_state payer_balance_proof pair_))
  /\ state_transition (Some state) (SCReceiveUnlock state_change) w block_number
     = Raise AssertionError.
Proof.
  intros Hsecret Hpairs Hearlier Hsender Hchannel Hvalid.
  assert (exists iteration w1 state1,
            handle_unlock state state_change w = Ok (iteration, w1)
            /\ new_state iteration = Some state1
            /\ secret state1 = None
            /\ transfers_pair state1 !! length earlier
               = Some (set_payer_state payer_balance_proof pair_))
    as (iteration & w1 & state1 & Hhandle & Hstate & Hsecret1 & Hpaid).
  { unfold handle_unlock. rewrite Hpairs, length_app. cbn [length].
    rewrite seq_app, for_each_pair_app, for_each_pair_id; cycle 1.
    { apply Forall_forall. intros i Hi%list_elem_of_In%in_seq.
      destruct (lookup_lt_is_Some_2 earlier i) as [p Hp]; [lia|].
      exists p. split; [by apply lookup_app_l_Some|].
      rewrite bool_decide_eq_false_2; [done|].
      eapply (proj1 (Forall_forall _ _) Hearlier), list_elem_of_lookup_2. done. }
    cbn [mbind result_bind seq for_each_pair]. rewrite Nat.add_0_l.
    rewrite list_lookup_middle by done.
    rewrite bool_decide_eq_true_2 by done. rewrite Hchannel, Hvalid.
    cbn [mbind result_bind].
    match goal with |- context [for_each_pair ?body ?rs ?ps ?s0] =>
      assert (exists pairs1 s1, for_each_pair body rs ps s0 = Ok (pairs1, s1))
        as (pairs1 & [ev1 w1] & Hloop) end.
    { apply for_each_pair_total.
      - intros p [e w0]. repeat case_match; eauto.
      - apply Forall_forall. intros i Hi%list_elem_of_In%in_seq.
        rewrite length_insert, length_app. cbn. lia. }
    rewrite Hloop. cbn. eexists _, _, _. split; [done|]. split; [done|].
    split; [done|]. cbn.
    erewrite for_each_pair_outside; [|exact Hloop|].
    - rewrite list_lookup_insert_eq; [done|]. rewrite length_app. cbn. lia.
    - intros Hi%list_elem_of_In%in_seq. lia. }
  split; [by exists iteration, w1, state1|].
  unfold state_transition. cbn. rewrite Hhandle. cbn. rewrite Hstate.
  erewrite sanity_check_paid_without_secret; [done|done| |].
  - eapply list_elem_of_lookup_2. exact Hpaid.
  - done.
Qed.

Lemma unlock_before_secret_raises_witness :
  state_transition (Some mediating) (SCReceiveUnlock payer_unlock) (s1_world 5) 8
  = Raise AssertionError.
Proof.
  exact (proj2 (unlock_before_secret_raises mediating payer_unlock (s1_world 5) 8
                  [] [] (s1_pair payer_pending payee_pending)
                  (channel 1 5 50 (end_state "us" 0 ∅ ∅)
                     (end_state "payer" 10 ∅ {["H" := "S"]}))
                  _ []
                  eq_refl eq_refl (Forall_nil_2 _) eq_refl eq_refl eq_refl)).
Defined.

(** ** Expiry, once *)

Lemma expired_states block_number pair_ :
  expired block_number pair_
  = {| payer_transfer := payer_transfer pair_;
       payee_address := payee_address pair_;
       payee_transfer := payee_transfer pair_;
       payer_state :=
         if is_pending pair_ && (expiration (lock (payer_transfer pair_)) <? block_number)
         then payer_expired else payer_state pair_;
       payee_state :=
         if is_pending pair_ && (expiration (lock (payee_transfer pair_)) <? block_number)
         then payee_expired else payee_state pair_ |}
  /\ expiry_events block_number pair_
     = (if is_pending pair_ && (expiration (lock (payer_transfer pair_)) <? block_number)
           && negb (bool_decide (payer_state pair_ = payer_expired))
        then [EventUnlockClaimFailed (payment_identifier (payer_transfer pair_))
                (lock_secrethash (lock (payer_transfer pair_))) "lock expired"]
        else [])
       ++ (if is_pending pair_
              && (expiration (lock (payee_transfer pair_)) <? block_number)
              && negb (bool_decide (payee_state pair_ = payee_expired))
           then [EventUnlockFailed (payment_identifier (payee_transfer pair_))
                   (lock_secrethash (lock (payee_transfer pair_))) "lock expired"]
           else []).
Proof.
  destruct pair_ as [payer_t payee_a payee_t payer_s payee_s].
  unfold expired, expiry_events, expire_pair, is_pending.
  cbn [payer_transfer payee_transfer payer_state payee_state payee_address].
  generalize (expiration (lock payer_t) <? block_number).
  generalize (expiration (lock payee_t) <? block_number).
  intros b1 b2.
  destruct b1, b2, payer_s, payee_s; split; reflexivity.
Qed.

Lemma expired_twice block_number pair_ :
  expired block_number (expired block_number pair_) = expired block_number pair_
  /\ expiry_events block_number (expired block_number pair_) = [].
Proof.
  rewrite (proj1 (expired_states block_number (expired block_number pair_))).
  rewrite (proj2 (expired_states block_number (expired block_number pair_))).
  rewrite !(proj1 (expired_states block_number pair_)).
  destruct pair_ as [payer_t payee_a payee_t payer_s payee_s].
  unfold is_pending.
  cbn [payer_transfer payee_transfer payer_state payee_state payee_address].
  generalize (expiration (lock payer_t) <? block_number).
  generalize (expiration (lock payee_t) <? block_number).
  intros b1 b2.
  destruct b1, b2, payer_s, payee_s; split; reflexivity.
Qed.

(** X13: [set_expired_pairs] is idempotent: run again at the same block on
    the pairs it returned, it changes no pair and emits no event. *)
Theorem set_expired_pairs_idempotent (transfers_pair : list MediationPairState)
    (block_number : Z) :
  set_expired_pairs (set_expired_pairs transfers_pair block_number).1 block_number
  = ((set_expired_pairs transfers_pair block_number).1, []).
Proof.
  rewrite !set_expired_pairs_spec. cbn [fst]. f_equal.
  - rewrite map_map. apply map_ext. intros p. apply expired_twice.
  - induction transfers_pair as [|p rest IH]; [done|].
    cbn [map flat_map]. rewrite IH, app_nil_r. apply expired_twice.
Qed.

(** ** State changes that do not apply *)

(** X14: on a state the machine has reached, [state_transition] ignores an
    [ActionInitMediator] and a state change of a class it does not handle:
    it returns the state as it is, no event, and touches neither the
    channels nor the generator. *)
Theorem init_is_ignored_on_a_state `{Imports} (state : MediatorTransferState)
    (state_change : ActionInitMediator) (w : World) (block_number : Z) :
  reachable (Some state) ->
  state_transition (Some state) (SCActionInitMediator state_change) w block_number
  = Ok (unchanged state, w)
  /\ state_transition (Some state) OtherStateChange w block_number
     = Ok (unchanged state, w).
Proof.
  intros Hreach. destruct (reachable_Some _ Hreach) as [Hsane Hall].
  unfold state_transition. cbn. rewrite Hsane. cbn.
  unfold clear_if_finalized. cbn. rewrite Hall. done.
Qed.

Lemma init_is_ignored_on_a_state_witness :
  state_transition None (SCActionInitMediator offer) (offer_world 5 10) 5
  = Ok (mediated, mediating_world 5)
  /\ state_transition (Some mediating) (SCActionInitMediator offer)
       (mediating_world 5) 6
     = Ok (unchanged mediating, mediating_world 5).
Proof.
  assert (Hinit : state_transition None (SCActionInitMediator offer) (offer_world 5 10) 5
                  = Ok (mediated, mediating_world 5)) by reflexivity.
  split; [exact Hinit|].
  exact (proj1 (init_is_ignored_on_a_state mediating offer (mediating_world 5) 6
                  (reachable_step _ _ _ _ _ _ reachable_init Hinit))).
Defined.

(** X15: a state [state_transition] returns is never settled: it holds at
    least one pair, and a pair that is not paid on both sides.  So
    [handle_block], which reads the first pair, finds one on every state
    the machine reaches. *)
Theorem returned_state_is_unsettled `{Imports}
    (mediator_state : option MediatorTransferState) (state_change : StateChange)
    (w : World) (block_number : Z) (iteration : TransitionResult) (w1 : World)
    (state : MediatorTransferState) :
  state_transition mediator_state state_change w block_number = Ok (iteration, w1) ->
  new_state iteration = Some state ->
  transfers_pair state <> []
  /\ exists pair_, pair_ ∈ transfers_pair state /\ both_paid pair_ = false.
Proof.
  intros Hstep Hstate.
  destruct (state_transition_Some _ _ _ _ _ _ _ Hstep Hstate) as [_ Hall].
  split.
  - intros Hnil. by rewrite Hnil in Hall.
  - induction (transfers_pair state) as [|p rest IH]; [done|].
    cbn in Hall. destruct (both_paid p) eqn:Hp.
    + destruct (IH Hall) as (q & Hq & Hunpaid). exists q.
      split; [by apply elem_of_cons; right|done].
    + exists p. split; [apply list_elem_of_here|done].
Qed.

Lemma returned_state_is_unsettled_witness :
  state_transition None (SCActionInitMediator offer) (offer_world 5 10) 5
  = Ok (mediated, mediating_world 5)
  /\ transfers_pair mediating <> [].
Proof.
  assert (Hinit : state_transition None (SCActionInitMediator offer) (offer_world 5 10) 5
                  = Ok (mediated, mediating_world 5)) by reflexivity.
  split; [exact Hinit|].
  exact (proj1 (returned_state_is_unsettled None (SCActionInitMediator offer)
                  (offer_world 5 10) 5 mediated (mediating_world 5) mediating
                  Hinit eq_refl)).
Defined.

(** ** A fresh mediation *)

(** X16: what an [ActionInitMediator] starts.  When [state_transition]
    returns a state for it from no state, the secret of that state is not
    set, its secrethash is the one of the lock of the received transfer,
    and it holds exactly one pair: the received transfer as payer
    transfer, both sides pending, and as payee transfer the transfer of
    the [SendMediatedTransfer] that is the last event of the result. *)
Theorem init_starts_one_pending_pair `{Imports} (state_change : ActionInitMediator)
    (w : World) (block_number : Z) (iteration : TransitionResult) (w1 : World)
    (state : MediatorTransferState) :
  state_transition None (SCActionInitMediator state_change) w block_number
  = Ok (iteration, w1) ->
  new_state iteration = Some state ->
  secret state = None
  /\ secrethash state = lock_secrethash (lock (from_transfer state_change))
  /\ exists pair_ sent earlier,
       transfers_pair state = [pair_]
       /\ payer_transfer pair_ = from_transfer state_change
       /\ payer_state pair_ = payer_pending
       /\ payee_state pair_ = payee_pending
       /\ payee_transfer pair_ = transfer sent
       /\ events iteration = earlier ++ [SendMediatedTransfer sent].
Proof.
  intros Hstep Hstate.
  destruct (state_transition_Some _ _ _ _ _ _ _ Hstep Hstate) as [_ Hunpaid].
  unfold state_transition in Hstep. cbn in Hstep.
  destruct (handle_init state_change w block_number) as [[iteration0 w0]|] eqn:Hinit;
    [|done].
  cbn in Hstep.
  assert (iteration = iteration0) as ->.
  { destruct (new_state iteration0) as [state0|] eqn:Hs0.
    - destruct (sanity_check state0); [|done]. cbn in Hstep. injection Hstep as <- <-.
      by apply clear_if_finalized_Some in Hstate as (_ & _ & ->).
    - cbn in Hstep. injection Hstep as <- <-.
      by apply clear_if_finalized_Some in Hstate as (_ & _ & ->). }
  clear Hstep. unfold handle_init in Hinit.
  destruct (channels w !! _); [|by simplify_eq/=].
  destruct (handle_receive_lockedtransfer _ _) as [[valid ev] c].
  destruct valid; cbn in Hinit; [|by simplify_eq/=].
  destruct (mediate_transfer _ _ _ _ _ _) as [[[state0 it0] w2]|] eqn:Hm; [|done].
  cbn in Hinit. injection Hinit as <- <-. cbn in Hstate.
  apply mediate_transfer_history in Hm
    as [Hnew [->|(pair_ & -> & Hpayer & Hpayee & Htransfer & sent & Hevents & Hsent)]].
  - rewrite Hstate in Hnew. injection Hnew as ->. done.
  - rewrite Hstate in Hnew. injection Hnew as ->. cbn.
    split; [done|]. split; [done|]. exists pair_, sent, ev. by rewrite Hevents.
Qed.

Lemma init_starts_one_pending_pair_witness :
  state_transition None (SCActionInitMediator offer) (offer_world 5 10) 5
  = Ok (mediated, mediating_world 5)
  /\ secret mediating = None
  /\ secrethash mediating = lock_secrethash (lock (from_transfer offer)).
Proof.
  assert (Hinit : state_transition None (SCActionInitMediator offer) (offer_world 5 10) 5
                  = Ok (mediated, mediating_world 5)) by reflexivity.
  split; [exact Hinit|].
  destruct (init_starts_one_pending_pair offer (offer_world 5 10) 5 mediated
              (mediating_world 5) mediating Hinit eq_refl) as (Hsecret & Hhash & _).
  split; [exact Hsecret|exact Hhash].
Defined.

(** ** Refunding a transfer *)

(** X17: when the sender of the transfer is the partner of the payer
    channel, no route is left with a usable channel and the refund channel
    is usable for the transfer to refund, [mediate_transfer] adds no pair:
    it returns the state as it is with the one event
    [channel.send_refundtransfer] gave, and writes the refund channel back
    under its key.  The transfer refunded and its channel are the ones
    [mediate_transfer] was given when the state has no pair yet, and
    otherwise the payer transfer of the first pair and its channel,
    whoever sent the transfer at hand. *)
Theorem mediate_transfer_refunds `{Imports} (state : MediatorTransferState)
    (possible_routes : list RouteState) (payer_channel : ChannelRef) (w : World)
    (payer_transfer : LockedTransferSignedState) (block_number : Z)
    (refund_channel : ChannelRef) (refunded : LockedTransferSignedState) :
  address (partner_state payer_channel.2) = sender (balance_proof payer_transfer) ->
  next_channel_from_routes
    (filter_used_routes (transfers_pair state) possible_routes) (channels w)
    (amount (lock payer_transfer))
    (expiration (lock payer_transfer) - block_number) = None ->
  refund_target state payer_channel (channels w) payer_transfer
  = Ok (refund_channel, refunded) ->
  is_channel_usable refund_channel.2 (amount (lock refunded))
    (expiration (lock refunded) - block_number) = true ->
  let sent :=
    send_refundtransfer refund_channel.2 (initiator refunded) (target refunded)
      (amount (lock refunded)) (next_message_identifier w).1
      (payment_identifier refunded) (expiration (lock refunded))
      (lock_secrethash (lock refunded)) in
  mediate_transfer state possible_routes payer_channel w payer_transfer block_number
  = Ok (state, {| new_state := Some state; events := [sent.1] |},
        set_channel refund_channel.1 sent.2 (next_message_identifier w).2)
  /\ (transfers_pair state = [] ->
      refund_channel = payer_channel /\ refunded = payer_transfer)
  /\ (forall first_pair rest,
        transfers_pair state = first_pair :: rest ->
        refunded = Mediator.payer_transfer first_pair
        /\ refund_channel.1
           = channel_identifier (balance_proof (Mediator.payer_transfer first_pair))
        /\ channels w !! refund_channel.1 = Some refund_channel.2).
Proof.
  intros Hsender Hroute Hrefund Husable. cbn zeta. split; [|split].
  - unfold mediate_transfer, next_transfer_pair.
    rewrite (bool_decide_eq_true_2 _ Hsender). cbn. rewrite Hroute. cbn.
    rewrite Hrefund. cbn. unfold events_for_refund_transfer.
    rewrite Husable. destruct (next_message_identifier w) as [message_identifier w1].
    cbn. by destruct (send_refundtransfer _ _ _ _ _ _ _ _).
  - intros Hempty. unfold refund_target in Hrefund. rewrite Hempty in Hrefund.
    by injection Hrefund as <- <-.
  - intros first_pair rest Hpairs. unfold refund_target in Hrefund.
    rewrite Hpairs in Hrefund. unfold get_payer_channel in Hrefund.
    destruct (channels w !! _) as [original_channel|] eqn:Hlookup; [|done].
    cbn in Hrefund. injection Hrefund as <- <-. done.
Qed.

Lemma mediate_transfer_refunds_witness :
  mediate_transfer (new_MediatorTransferState "H") []
    (1, channel 1 5 50 (end_state "us" 10 ∅ ∅)
          (end_state "payer" 10 {["H" := unit_lock 30]} ∅))
    refundable_world (unit_transfer 1 "payer" 30) 5
  = Ok (new_MediatorTransferState "H",
        {| new_state := Some (new_MediatorTransferState "H");
           events := [SendRefundTransfer "payer" 0 (unit_transfer 1 tt 30)] |},
        refunded_world).
Proof.
  exact (eq_trans
           (proj1 (mediate_transfer_refunds (new_MediatorTransferState "H") []
                     (1, channel 1 5 50 (end_state "us" 10 ∅ ∅)
                           (end_state "payer" 10 {["H" := unit_lock 30]} ∅))
                     refundable_world (unit_transfer 1 "payer" 30) 5
                     (1, channel 1 5 50 (end_state "us" 10 ∅ ∅)
                           (end_state "payer" 10 {["H" := unit_lock 30]} ∅))
                     (unit_transfer 1 "payer" 30)
                     eq_refl eq_refl eq_refl eq_refl))
           eq_refl).
Defined.

(** ** Registering the secret *)

Lemma register_on_pairs_Ok register (pairs : list MediationPairState) (s h : string) :
  forall chans : gmap Z NettingChannelState,
    Forall
      (fun pair_ =>
         is_Some (chans !! channel_identifier (balance_proof (payer_transfer pair_)))
         /\ is_Some (chans !! channel_identifier (balance_proof (payee_transfer pair_))))
      pairs ->
    exists chans1,
      register_on_pairs register pairs s h chans = Ok chans1
      /\ forall k, is_Some (chans1 !! k) <-> is_Some (chans !! k).
Proof.
  induction pairs as [|pair_ rest IH]; intros chans Hall; cbn; [by eauto|].
  apply Forall_cons in Hall as [[[payer Hpayer] Hpayee] Hall].
  assert (forall (c : NettingChannelState) k (m : gmap Z NettingChannelState),
            is_Some (m !! k) ->
            forall j, is_Some (<[k := c]> m !! j) <-> is_Some (m !! j)) as Hsame.
  { intros c k m Hk j. rewrite lookup_insert_is_Some. split.
    - intros [<-|[_ ?]]; done.
    - intros Hj. destruct (decide (k = j)); auto. }
  pose proof (Hsame (register payer s h) _ chans (mk_is_Some _ _ Hpayer)) as Hdom1.
  destruct (proj2 (Hdom1 _) Hpayee) as [payee Hpayee1].
  pose proof (Hsame (register payee s h) _ _ (mk_is_Some _ _ Hpayee1)) as Hdom2.
  destruct (IH (<[channel_identifier (balance_proof (payee_transfer pair_))
                  := register payee s h]>
                  (<[channel_identifier (balance_proof (payer_transfer pair_))
                     := register payer s h]> chans)))
    as (chans1 & Hrest & Hdom).
  { eapply Forall_impl; [exact Hall|]. cbn. intros p [? ?].
    by rewrite !Hdom2, !Hdom1. }
  exists chans1. split.
  - unfold getitem. rewrite Hpayer. cbn. rewrite Hpayee1. cbn. exact Hrest.
  - intros k. by rewrite Hdom, Hdom2, Hdom1.
Qed.

Lemma register_on_pairs_KeyError register (pairs : list MediationPairState)
    (s h : string) :
  forall chans : gmap Z NettingChannelState,
    Exists
      (fun pair_ =>
         chans !! channel_identifier (balance_proof (payer_transfer pair_)) = None
         \/ chans !! channel_identifier (balance_proof (payee_transfer pair_)) = None)
      pairs ->
    register_on_pairs register pairs s h chans = Raise KeyError.
Proof.
  induction pairs as [|pair_ rest IH]; intros chans Hex; cbn.
  { by apply Exists_nil in Hex. }
  unfold getitem.
  destruct (chans !! channel_identifier (balance_proof (payer_transfer pair_)))
    as [payer|] eqn:Hpayer; [|done]. cbn.
  destruct (<[_ := register payer s h]> chans
              !! channel_identifier (balance_proof (payee_transfer pair_)))
    as [payee|] eqn:Hpayee; [|done]. cbn.
  assert (is_Some (chans !! channel_identifier (balance_proof (payee_transfer pair_))))
    as Hpresent.
  { apply lookup_insert_Some in Hpayee as [[<- _]|[_ ?]]; eauto. }
  apply IH. apply Exists_cons in Hex as [[Hmissing|Hmissing]|Hex].
  - congruence.
  - rewrite Hmissing in Hpresent. by destruct Hpresent.
  - destruct Hpresent as [present Hpresent].
    eapply Exists_impl; [exact Hex|]. cbn. intros p Hp.
    rewrite !lookup_insert_None.
    destruct Hp as [Hp|Hp]; [left|right]; repeat split; try done;
      intros Heq; rewrite Heq in *; congruence.
Qed.

(** X18: [set_secret] and [set_onchain_secret] read the payer and the payee
    channel of every pair from the channel map by subscript.  When all of
    them are there, both return the state with the secret set, keep the
    generator and add or remove no channel; when one is missing, both raise
    [KeyError], and so does [state_transition] for the reveal, seen on the
    chain, of a secret the state does not know yet. *)
Theorem set_secret_needs_every_channel `{Imports} (state : MediatorTransferState)
    (w : World) (s h : string) :
  (Forall
     (fun pair_ =>
        is_Some (channels w
                   !! channel_identifier (balance_proof (payer_transfer pair_)))
        /\ is_Some (channels w
                      !! channel_identifier (balance_proof (payee_transfer pair_))))
     (transfers_pair state) ->
   forall set, set = set_secret \/ set = set_onchain_secret ->
     exists w1,
       set state w s h = Ok (with_secret s state, w1)
       /\ prng w1 = prng w
       /\ forall k, is_Some (channels w1 !! k) <-> is_Some (channels w !! k))
  /\ (Exists
        (fun pair_ =>
           channels w !! channel_identifier (balance_proof (payer_transfer pair_))
           = None
           \/ channels w !! channel_identifier (balance_proof (payee_transfer pair_))
              = None)
        (transfers_pair state) ->
      set_secret state w s h = Raise KeyError
      /\ set_onchain_secret state w s h = Raise KeyError
      /\ forall state_change block_number,
           secret state = None ->
           onchain_secrethash state_change = secrethash state ->
           state_transition (Some state)
             (SCContractReceiveSecretReveal state_change) w block_number
           = Raise KeyError).
Proof.
  split.
  - intros Hall set [-> | ->]; unfold set_secret, set_onchain_secret.
    + destruct (register_on_pairs_Ok register_secret _ s h _ Hall)
        as (chans1 & -> & Hdom). cbn. eauto.
    + destruct (register_on_pairs_Ok register_onchain_secret _ s h _ Hall)
        as (chans1 & -> & Hdom). cbn. eauto.
  - intros Hmissing.
    assert (forall s h, set_secret state w s h = Raise KeyError) as Hset.
    { intros s0 h0. unfold set_secret.
      by rewrite (register_on_pairs_KeyError register_secret _ s0 h0 _ Hmissing). }
    assert (forall s h, set_onchain_secret state w s h = Raise KeyError) as Honchain.
    { intros s0 h0. unfold set_onchain_secret.
      by rewrite (register_on_pairs_KeyError register_onchain_secret _ s0 h0 _
                    Hmissing). }
    split; [done|]. split; [done|].
    intros state_change block_number Hsecret Hhash.
    unfold state_transition, handle_secretreveal, secret_learned. cbn.
    rewrite Hsecret, Hhash, !bool_decide_eq_true_2 by done. cbn.
    by rewrite Honchain.
Qed.

Lemma set_secret_needs_every_channel_witness :
  set_secret mediating payee_only_world "S" "H" = Raise KeyError
  /\ state_transition (Some mediating) (SCContractReceiveSecretReveal onchain_reveal)
       payee_only_world 7
     = Raise KeyError.
Proof.
  destruct (proj2 (set_secret_needs_every_channel mediating payee_only_world "S" "H"))
    as (Hset & _ & Hstep).
  - apply Exists_cons_hd. left. reflexivity.
  - split; [exact Hset|].
    exact (Hstep onchain_reveal 7 eq_refl eq_refl).
Defined.

(** ** Learning the secret *)

Lemma set_payee_state_latest (earlier later : list MediationPairState) pair_ payee st :
  state_in st valid_payee_states = true ->
  payee_address pair_ = payee ->
  Forall (fun pair_ => payee_address pair_ <> payee) later ->
  set_payee_state_and_check_reveal_order (earlier ++ pair_ :: later) payee st
  = Ok (earlier ++ set_payee_state st pair_ :: later, []).
Proof.
  intros Hvalid Hpayee Hlater. unfold set_payee_state_and_check_reveal_order.
  rewrite Hvalid. cbn.
  pose proof (reveal_order_loop_latest earlier later pair_ payee st Hpayee Hlater)
    as Hloop.
  destruct (reveal_order_loop _ _ _ _ _) as [pairs wrong]. cbn in Hloop. subst pairs.
  by destruct wrong.
Qed.

Lemma secret_learned_marks_payee `{Imports} state w block_number s h payee from_chain
    iteration w1 state1 earlier pair_ later :
  secret state = None ->
  secret_learned state w block_number s h payee payee_secret_revealed from_chain
  = Ok (iteration, w1) ->
  new_state iteration = Some state1 ->
  transfers_pair state = earlier ++ pair_ :: later ->
  payee_address pair_ = payee ->
  Forall (fun pair_ => payee_address pair_ <> payee) later ->
  exists pair1,
    transfers_pair state1 !! length earlier = Some pair1
    /\ same_transfers pair_ pair1
    /\ (payee_state pair1 = payee_secret_revealed
        \/ payee_state pair1 = payee_balance_proof)
    /\ payer_state pair1 <> payer_pending.
Proof.
  intros Hsecret Hlearned Hstate Hpairs Hpayee Hlater.
  revert Hlearned. unfold secret_learned. destruct (assert _); [|done]. cbn.
  match goal with |- (?m ≫= _) = _ -> _ =>
    destruct m as [[[state0 w0] unlock]|] eqn:Hfirst end; [|done]. cbn.
  assert (exists pairs1,
            state0 = with_pairs pairs1 (with_secret s state)
            /\ Forall2 same_transfers (transfers_pair state) pairs1)
    as (pairs1 & -> & H1).
  { rewrite Hsecret in Hfirst.
    destruct (if from_chain then set_onchain_secret state w s h
              else set_secret state w s h) as [[state' w']|] eqn:Hset; [|done].
    cbn -[events_for_unlock_if_closed] in Hfirst.
    assert (state' = with_secret s state) as ->.
    { destruct from_chain;
        eauto using set_secret_with_secret, set_onchain_secret_with_secret. }
    destruct (events_for_unlock_if_closed _ _ _ _) as [[pairs1 ev]|] eqn:H1; [|done].
    cbn in Hfirst. injection Hfirst as <- <- <-.
    apply events_for_unlock_if_closed_same in H1. eauto. }
  clear Hfirst. cbn [transfers_pair with_pairs].
  rewrite Hpairs in H1.
  apply Forall2_app_inv_l in H1 as (earlier1 & rest1 & Hearlier & Hrest & ->).
  apply Forall2_cons_inv_l in Hrest as (pair1 & later1 & Hsame & Hlater1 & ->).
  assert (Forall (fun pair_ => payee_address pair_ <> payee) later1) as Hlater2.
  { clear -Hlater Hlater1. induction Hlater1 as [|p q l k (_ & Haddress & _) _ IH];
      [constructor|].
    apply Forall_cons in Hlater as [Hp Hlater]. constructor; [congruence|auto]. }
  rewrite (set_payee_state_latest earlier1 later1 pair1 payee payee_secret_revealed);
    [|done|destruct Hsame as (_ & <- & _); done|done].
  cbn. rewrite events_for_revealsecret_fold.
  destruct (fold_right _ _ _) as [reveal w2]. cbn.
  destruct (events_for_balanceproof _ _ _ _ _) as [[pairs4 [proof w3]]|] eqn:H4;
    [|done].
  cbn. intros [= <- <-]. injection Hstate as <-. cbn.
  apply events_for_balanceproof_pays in H4.
  rewrite (Forall2_length _ _ _ Hearlier).
  set (revealed := reveal_passed_on (set_payee_state payee_secret_revealed pair1)).
  assert (map reveal_passed_on
            (earlier1 ++ set_payee_state payee_secret_revealed pair1 :: later1)
          !! length earlier1 = Some revealed) as Hrevealed.
  { rewrite list_lookup_fmap, list_lookup_middle by done. done. }
  destruct (Forall2_lookup_l _ _ _ _ _ H4 Hrevealed) as (paid & Hpaid & Hchange).
  assert (same_transfers pair_ revealed
          /\ payee_state revealed = payee_secret_revealed
          /\ payer_state revealed <> payer_pending) as (Hsame3 & Hpayee3 & Hpayer3).
  { unfold revealed, reveal_passed_on, owes_reveal.
    cbn [payee_state payer_state set_payee_state].
    assert (state_in payee_secret_revealed STATE_SECRET_KNOWN = true) as ->
      by reflexivity.
    destruct (bool_decide (payer_state pair1 = payer_pending)) eqn:Hpending;
      cbn [andb].
    - split; [exact Hsame|]. split; [done|]. cbn. discriminate.
    - apply bool_decide_eq_false in Hpending. split; [exact Hsame|]. by split. }
  exists paid. split; [done|].
  destruct Hchange as [-> | ->]; [auto|].
  split; [exact Hsame3|]. split; [by right|done].
Qed.

(** X19: a secret revealed on the chain is learned.  When the secret of
    the state is not set and the reveal seen on the chain is for the
    secrethash of the state, a state [state_transition] returns has the
    revealed secret set, and the latest pair whose payee address is the
    sender of the reveal has there a payee side at [payee_secret_revealed]
    or at [payee_balance_proof] and a payer side that is no longer
    pending. *)
Theorem onchain_reveal_is_learned `{Imports} (state : MediatorTransferState)
    (reveal : ContractReceiveSecretReveal) (w : World)
    (block_number : Z) (iteration : TransitionResult) (w1 : World)
    (state1 : MediatorTransferState)
    (earlier later : list MediationPairState) (pair_ : MediationPairState) :
  secret state = None ->
  onchain_secrethash reveal = secrethash state ->
  state_transition (Some state) (SCContractReceiveSecretReveal reveal) w block_number
  = Ok (iteration, w1) ->
  new_state iteration = Some state1 ->
  secret state1 = Some (onchain_secret reveal)
  /\ (transfers_pair state = earlier ++ pair_ :: later ->
      payee_address pair_ = onchain_sender reveal ->
      Forall (fun pair_ => payee_address pair_ <> onchain_sender reveal) later ->
      exists pair1,
        transfers_pair state1 !! length earlier = Some pair1
        /\ same_transfers pair_ pair1
        /\ (payee_state pair1 = payee_secret_revealed
            \/ payee_state pair1 = payee_balance_proof)
        /\ payer_state pair1 <> payer_pending).
Proof.
  intros Hsecret Hhash Hstep Hstate.
  assert (exists iteration0 w0,
            secret_learned state w block_number (onchain_secret reveal)
              (onchain_secrethash reveal) (onchain_sender reveal)
              payee_secret_revealed true = Ok (iteration0, w0)
            /\ new_state iteration0 = Some state1)
    as (iteration0 & w0 & Hlearned & Hstate0).
  { unfold state_transition in Hstep.
    match type of Hstep with (?m ≫= _) = _ =>
      destruct m as [[iteration0 w0]|] eqn:Hhandler end; [|done].
    cbn in Hstep.
    assert (new_state iteration0 = Some state1) as Hstate0.
    { destruct (new_state iteration0) as [state0|] eqn:Hs0.
      - destruct (sanity_check state0); [|done]. cbn in Hstep.
        injection Hstep as <- <-.
        apply clear_if_finalized_Some in Hstate as (Hs & _). congruence.
      - cbn in Hstep. injection Hstep as <- <-.
        apply clear_if_finalized_Some in Hstate as (Hs & _). congruence. }
    cbn [mbind result_bind attributes_of] in Hhandler.
    unfold handle_secretreveal in Hhandler.
    cbn [reveal_secrethash mbind result_bind secret_of sender_of is_onchain]
      in Hhandler.
    rewrite Hsecret, Hhash, !bool_decide_eq_true_2 in Hhandler by done.
    cbn [andb] in Hhandler. exists iteration0, w0. rewrite Hhash. done. }
  split.
  - destruct (secret_learned_history _ _ _ _ _ _ _ _ _ _ _ Hlearned Hstate0)
      as [_ Hset]. auto.
  - intros Hpairs Hpayee Hlater. by eapply secret_learned_marks_payee.
Qed.

Lemma onchain_reveal_is_learned_witness :
  state_transition (Some mediating) (SCContractReceiveSecretReveal onchain_reveal)
    (mediating_world 5) 7
  = Ok (revealed, revealed_world)
  /\ secret s1_paid = Some "S"%string.
Proof.
  assert (Hreveal : state_transition (Some mediating)
                      (SCContractReceiveSecretReveal onchain_reveal)
                      (mediating_world 5) 7
                    = Ok (revealed, revealed_world)) by reflexivity.
  split; [exact Hreveal|].
  exact (proj1 (onchain_reveal_is_learned mediating onchain_reveal
                  (mediating_world 5) 7 revealed revealed_world s1_paid
                  [] [] (s1_pair payer_pending payee_pending)
                  eq_refl eq_refl Hreveal eq_refl)).
Defined.

(** * Further properties of the transport *)

Import Protocol Wire Backoff.

(** ** Retry delays *)

Lemma doubling_yielded (r t m k : Z) (g : Generator) :
  0 < t -> Z.max r 1 <= k ->
  retries g = r -> maximum g = m ->
  (timeout g < m -> timeout g = t * 2 ^ (k - Z.max r 1)) ->
  (m <= timeout g -> m <= t * 2 ^ (k - Z.max r 1)) ->
  (doubling g).1 = kth_timeout r t m k /\ yielded r t m (k + 1) (doubling g).2.
Proof.
  intros Ht Hk Hr Hm Hbelow Habove. unfold doubling, forever, kth_timeout, yielded.
  assert (2 ^ (k - Z.max r 1 + 1) = 2 * 2 ^ (k - Z.max r 1)) as Hpow.
  { rewrite Z.pow_add_r by lia. lia. }
  assert (0 < 2 ^ (k - Z.max r 1)) as Hpos by (apply Z.pow_pos_nonneg; lia).
  destruct (Z.ltb_spec k (Z.max r 1)); [lia|].
  destruct (Z.ltb_spec (timeout g) (maximum g)); cbn.
  - replace (k + 1 - Z.max r 1) with (k - Z.max r 1 + 1) by lia.
    rewrite Hpow, Hbelow by lia. repeat split; try done; lia.
  - replace (k + 1 - Z.max r 1 + 1) with (k - Z.max r 1 + 1 + 1) by lia.
    assert (2 ^ (k - Z.max r 1 + 1 + 1) = 4 * 2 ^ (k - Z.max r 1)) as Hpow2.
    { rewrite !Z.pow_add_r by lia. lia. }
    rewrite Hpow2, Hpow. specialize (Habove ltac:(lia)).
    repeat split; try done; lia.
Qed.

Lemma next_yielded (r t m k : Z) (g : Generator) :
  0 < t -> yielded r t m k g ->
  (next g).1 = kth_timeout r t m k /\ yielded r t m (k + 1) (next g).2.
Proof.
  intros Ht (Hr & Hm & Hresume). unfold next.
  destruct (resume g) eqn:Hat.
  - destruct Hresume as [-> Htimeout]. cbn. unfold kth_timeout, yielded. cbn.
    destruct (Z.ltb_spec 0 (Z.max r 1)); [done|lia].
  - destruct Hresume as [-> Htimeout]. unfold retrying. cbn.
    destruct (Z.ltb_spec 1 (retries g)); cbn.
    + unfold kth_timeout, yielded. cbn.
      destruct (Z.ltb_spec 1 (Z.max r 1)); [|lia]. repeat split; try done; lia.
    + apply doubling_yielded; cbn; try done; try lia;
        replace (1 - Z.max r 1) with 0 by lia; lia.
  - destruct Hresume as (-> & Htries & Htimeout). unfold retrying.
    destruct (Z.ltb_spec (tries g) (retries g)); cbn.
    + unfold kth_timeout, yielded. cbn.
      destruct (Z.ltb_spec (tries g) (Z.max r 1)); [|lia].
      repeat split; try done; lia.
    + apply doubling_yielded; try done; try lia;
        replace (tries g - Z.max r 1) with 0 by lia; lia.
  - destruct Hresume as [Hk Htimeout].
    assert (0 < 2 ^ (k - Z.max r 1)) by (apply Z.pow_pos_nonneg; lia).
    apply doubling_yielded; try done; lia.
  - destruct Hresume as [Hk Hcap]. unfold forever, kth_timeout, yielded. cbn.
    destruct (Z.ltb_spec k (Z.max r 1)); [lia|].
    replace (k + 1 - Z.max r 1 + 1) with (k - Z.max r 1 + 1 + 1) by lia.
    assert (2 ^ (k - Z.max r 1 + 1 + 1) = 2 * 2 ^ (k - Z.max r 1 + 1)) as ->.
    { rewrite (Z.pow_add_r _ _ 1) by lia. lia. }
    assert (0 < 2 ^ (k - Z.max r 1 + 1)) by (apply Z.pow_pos_nonneg; lia).
    repeat split; try done; lia.
Qed.

Lemma islice_yielded (r t m : Z) :
  0 < t ->
  forall (n k : nat) (g : Generator),
    yielded r t m (Z.of_nat k) g ->
    islice g n = map (fun i => kth_timeout r t m (Z.of_nat i)) (seq k n).
Proof.
  intros Ht. induction n as [|n IH]; intros k g Hg; cbn; [done|].
  destruct (next_yielded r t m _ g Ht Hg) as [Hvalue Hnext].
  destruct (next g) as [value g1]. cbn in *. rewrite Hvalue. f_equal.
  apply IH. by rewrite Nat2Z.inj_succ, <-Z.add_1_r.
Qed.

(** X20: the timeouts [timeout_exponential_backoff] yields.  For a
    positive first timeout, the first [max(retries, 1)] values are
    [timeout], and each value after them is twice the one before, capped at
    [maximum]: the [k]-th value from there is
    [min(timeout * 2 ^ (k + 1), maximum)].  The generator never runs out. *)
Theorem timeout_exponential_backoff_values (retries timeout maximum : Z) (n : nat) :
  0 < timeout ->
  islice (timeout_exponential_backoff retries timeout maximum) n
  = map (fun i => kth_timeout retries timeout maximum (Z.of_nat i)) (seq 0 n).
Proof.
  intros Ht. apply islice_yielded; [done|].
  unfold yielded, timeout_exponential_backoff. cbn. done.
Qed.

Lemma timeout_exponential_backoff_values_witness :
  islice (timeout_exponential_backoff 3 1 10) 9 = [1; 1; 1; 2; 4; 8; 10; 10; 10].
Proof.
  exact (eq_trans (timeout_exponential_backoff_values 3 1 10 9 eq_refl) eq_refl).
Defined.

Lemma kth_timeout_bounds (retries timeout maximum k : Z) :
  0 < timeout -> 0 <= k ->
  Z.min timeout maximum <= kth_timeout retries timeout maximum k
  <= Z.max timeout maximum.
Proof.
  intros Ht Hk. unfold kth_timeout.
  destruct (Z.ltb_spec k (Z.max retries 1)); [lia|].
  assert (1 <= 2 ^ (k - Z.max retries 1 + 1)).
  { assert (0 < 2 ^ (k - Z.max retries 1 + 1)) by (apply Z.pow_pos_nonneg; lia). lia. }
  split; [|lia]. apply Z.min_glb; [nia|lia].
Qed.

Lemma kth_timeout_mono (retries timeout maximum k : Z) :
  0 < timeout -> timeout <= maximum -> 0 <= k ->
  kth_timeout retries timeout maximum k <= kth_timeout retries timeout maximum (k + 1).
Proof.
  intros Ht Hm Hk. unfold kth_timeout.
  destruct (Z.ltb_spec k (Z.max retries 1)), (Z.ltb_spec (k + 1) (Z.max retries 1));
    try lia.
  - assert (0 < 2 ^ (k + 1 - Z.max retries 1 + 1)) by (apply Z.pow_pos_nonneg; lia).
    apply Z.min_glb; [nia|lia].
  - replace (k + 1 - Z.max retries 1 + 1) with (k - Z.max retries 1 + 1 + 1) by lia.
    assert (2 ^ (k - Z.max retries 1 + 1 + 1) = 2 * 2 ^ (k - Z.max retries 1 + 1))
      as ->.
    { rewrite (Z.pow_add_r _ _ 1) by lia. lia. }
    assert (0 < 2 ^ (k - Z.max retries 1 + 1)) by (apply Z.pow_pos_nonneg; lia).
    apply Z.min_glb; [|lia].
    etrans; [apply Z.le_min_l|]. nia.
Qed.

(** X21: the delays [single_queue_send] waits between retries, which it
    takes from [timeout_exponential_backoff(retries, interval, interval *
    10)], never go below the interval nor above ten times the interval,
    never decrease, and are ten times the interval from the fourth value
    after the [max(retries, 1)] first ones on. *)
Theorem retry_delays_are_bounded (retries interval : Z) (n i : nat) (delay : Z) :
  0 < interval ->
  islice (timeout_exponential_backoff retries interval (interval * 10)) n !! i
  = Some delay ->
  interval <= delay <= interval * 10
  /\ (forall later,
        islice (timeout_exponential_backoff retries interval (interval * 10)) n
          !! S i = Some later ->
        delay <= later)
  /\ (Z.max retries 1 + 3 <= Z.of_nat i -> delay = interval * 10).
Proof.
  intros Ht. rewrite islice_yielded with (r := retries) (t := interval)
    (m := interval * 10) (k := 0%nat); [|done|by unfold yielded].
  rewrite !list_lookup_fmap. intros Hi.
  destruct (seq 0 n !! i) as [j|] eqn:Hj; [|done].
  apply lookup_seq in Hj as [-> Hlt]. cbn in Hi. injection Hi as <-.
  split; [|split].
  - pose proof (kth_timeout_bounds retries interval (interval * 10) (Z.of_nat i)).
    lia.
  - intros later Hlater.
    destruct (seq 0 n !! S i) as [j|] eqn:Hj; [|done].
    apply lookup_seq in Hj as [-> _]. cbn in Hlater. injection Hlater as <-.
    rewrite Nat2Z.inj_succ, <-Z.add_1_r. apply kth_timeout_mono; lia.
  - intros Hlate. unfold kth_timeout.
    destruct (Z.ltb_spec (Z.of_nat i) (Z.max retries 1)); [lia|].
    apply Z.min_r.
    assert (2 ^ 4 <= 2 ^ (Z.of_nat i - Z.max retries 1 + 1))
      by (apply Z.pow_le_mono_r; lia).
    nia.
Qed.

Lemma retry_delays_are_bounded_witness :
  islice (timeout_exponential_backoff 3 1 (1 * 10)) 9 !! 6%nat = Some 10
  /\ 1 <= 10 <= 1 * 10.
Proof.
  assert (Hdelay : islice (timeout_exponential_backoff 3 1 (1 * 10)) 9 !! 6%nat
                   = Some 10) by reflexivity.
  split; [exact Hdelay|].
  exact (proj1 (retry_delays_are_bounded 3 1 9 6 10 eq_refl Hdelay)).
Defined.

(** ** What a receipt leaves alone *)

Import Delivery.

Lemma same_sending_refl `{Protocol.Imports} (self : RaidenProtocol) :
  same_sending self self.
Proof. unfold same_sending. done. Qed.

Lemma same_sending_trans `{Protocol.Imports} (self self1 self2 : RaidenProtocol) :
  same_sending self self1 -> same_sending self1 self2 -> same_sending self self2.
Proof.
  unfold same_sending. intros (?&?&?&?&?&?&?&?&?) (?&?&?&?&?&?&?&?&?).
  repeat split; congruence.
Qed.

Lemma _maybe_send_ack_same_sending `{Protocol.Imports} (self : RaidenProtocol)
    host_port messagedata :
  same_sending self (_maybe_send_ack self host_port messagedata)
  /\ receivedhashes_to_acks (_maybe_send_ack self host_port messagedata)
     = receivedhashes_to_acks self
  /\ async_results (_maybe_send_ack self host_port messagedata) = async_results self.
Proof.
  unfold _maybe_send_ack, same_sending.
  destruct (server_started self) eqn:Hstarted; cbn; rewrite ?Hstarted; done.
Qed.

Lemma maybe_send_ack_same_sending `{Protocol.Imports} (self : RaidenProtocol)
    receiver ack_message :
  same_sending self (maybe_send_ack self receiver ack_message).1
  /\ async_results (maybe_send_ack self receiver ack_message).1 = async_results self
  /\ (receivedhashes_to_acks (maybe_send_ack self receiver ack_message).1
      = receivedhashes_to_acks self
      \/ exists sender echo host_port,
           ack_message = Ack sender echo
           /\ receivedhashes_to_acks (maybe_send_ack self receiver ack_message).1
              = <[echo := (host_port, encode ack_message)]>
                  (receivedhashes_to_acks self)).
Proof.
  unfold maybe_send_ack.
  destruct (isaddress receiver); cbn; [|by auto using same_sending_refl].
  destruct ack_message as [a echo| | |]; cbn; try by auto using same_sending_refl.
  destruct (get_host_port self receiver) as [host_port|]; cbn;
    [|by auto using same_sending_refl].
  destruct (_maybe_send_ack_same_sending
              (with_acks (<[echo := (host_port, encode (Ack a echo))]>
                            (receivedhashes_to_acks self)) self)
              host_port (encode (Ack a echo))) as (Hsame & Hacks & Hresults).
  split; [|split].
  - eapply same_sending_trans; [|exact Hsame]. by unfold same_sending.
  - by rewrite Hresults.
  - right. exists a, echo, host_port. by rewrite Hacks.
Qed.

(** A signed message whose ack is not cached is handed to the handler. *)
Lemma receive_calls_handler `{Protocol.Imports} (self : RaidenProtocol)
    (data : string) (message : Message) :
  (UDP_MAX_MESSAGE_SIZE <? String.length data)%nat = false ->
  decode data = Ok message ->
  is_signed message = true ->
  receivedhashes_to_acks self !! sha3 (data +:+ address self) = None ->
  List.filter is_on_message (effects (receive self data).1)
  = List.filter is_on_message (effects self)
    ++ [CallOnMessage message (sha3 (data +:+ address self))].
Proof.
  intros Hsize Hdecode Hsigned Hcache.
  assert (exists from, message_sender message = Ok from) as [from Hfrom]
    by (destruct message; try discriminate Hsigned; eauto).
  apply Nat.ltb_ge in Hsize.
  rewrite (receive_signed self data message from Hsize Hdecode Hsigned Hfrom Hcache).
  destruct (on_message _ _ _) as [host1 [e|]]; cbn [fst snd].
  - cbn. rewrite on_message_effects_app. done.
  - rewrite (proj1 (maybe_send_ack_fields _ _ _)). cbn.
    rewrite on_message_effects_app. done.
Qed.

(** X22: a receipt that does not hand the datagram to the handler of the
    host never enqueues and never forgets.  Such are the receipts of a
    datagram over the size limit, of one that does not decode, of a
    duplicate whose ack is cached, of an [Ack] and of a message that is not
    signed.  They leave the send queues, the tasks, the health events, the
    ping nonces and the table of the sent messages as they are, create no
    future, and keep every ack that is cached, under the same echohash and
    with the same data.  What the handler does with a message it is
    handed, sending through the protocol included, is no part of this
    property. *)
Theorem quiet_receive_leaves_sending_alone `{Protocol.Imports} (self : RaidenProtocol)
    (data : string) :
  List.filter is_on_message (effects (receive self data).1)
  = List.filter is_on_message (effects self) ->
  same_sending self (receive self data).1
  /\ (forall echohash host_port messagedata,
        receivedhashes_to_acks self !! echohash = Some (host_port, messagedata) ->
        exists host_port1,
          receivedhashes_to_acks (receive self data).1 !! echohash
          = Some (host_port1, messagedata)).
Proof.
  intros Hquiet.
  destruct (UDP_MAX_MESSAGE_SIZE <? String.length data)%nat eqn:Hsize.
  { unfold receive. rewrite Hsize. by eauto using same_sending_refl. }
  destruct (decode data) as [message|] eqn:Hdecode.
  2:{ unfold receive. rewrite Hsize, Hdecode. by eauto using same_sending_refl. }
  destruct (receivedhashes_to_acks self !! sha3 (data +:+ address self))
    as [[cached_port cached]|] eqn:Hcache.
  - clear Hquiet. unfold receive. rewrite Hsize, Hdecode, Hcache.
    destruct (message_sender message ≫= get_host_port self) as [current|];
      [|by eauto using same_sending_refl]. cbn [fst].
    match goal with |- context [_maybe_send_ack ?s ?p ?d] =>
      destruct (_maybe_send_ack_same_sending s p d) as (Hsame & -> & _) end.
    split.
    + eapply same_sending_trans; [|exact Hsame].
      case_bool_decide; by unfold same_sending.
    + intros echohash host_port messagedata Hcached. case_bool_decide; [|eauto].
      cbn. destruct (decide (echohash = sha3 (data +:+ address self))) as [->|Hne].
      * rewrite lookup_insert_eq. simplify_eq. eauto.
      * rewrite lookup_insert_ne by done. eauto.
  - destruct (is_signed message) eqn:Hsigned.
    { exfalso.
      rewrite (receive_calls_handler self data message Hsize Hdecode Hsigned Hcache)
        in Hquiet.
      apply (f_equal length) in Hquiet. rewrite length_app in Hquiet.
      cbn in Hquiet. lia. }
    clear Hquiet. unfold receive. rewrite Hsize, Hdecode, Hcache.
    destruct message as [a echo|a n|a t body|body]; try discriminate Hsigned;
      cbn [fst].
    + destruct (senthashes_to_states self !! echo);
        [|by eauto using same_sending_refl].
      split; [|by eauto]. unfold same_sending. cbn. by rewrite length_insert.
    + by eauto using same_sending_refl.
Qed.

Lemma quiet_receive_leaves_sending_alone_witness :
  List.filter is_on_message
    (effects (receive (hello_received 5000) (wire_encode hello)).1)
  = List.filter is_on_message (effects (hello_received 5000))
  /\ channel_queue (receive (hello_received 5000) (wire_encode hello)).1
     = channel_queue (hello_received 5000)
  /\ exists host_port1,
      receivedhashes_to_acks (receive (hello_received 5000) (wire_encode hello)).1
        !! (wire_encode hello +:+ us)
      = Some (host_port1, hello_ack).
Proof.
  assert (Hquiet : List.filter is_on_message
                     (effects (receive (hello_received 5000) (wire_encode hello)).1)
                   = List.filter is_on_message (effects (hello_received 5000)))
    by reflexivity.
  split; [exact Hquiet|].
  destruct (quiet_receive_leaves_sending_alone (hello_received 5000)
              (wire_encode hello) Hquiet) as [Hsame Hacks].
  split.
  - exact (proj1 (proj2 (proj2 (proj2 Hsame)))).
  - exact (Hacks (wire_encode hello +:+ us) ("10.0.0.1", 4000) hello_ack eq_refl).
Defined.

(** ** Futures *)

Lemma send_async_valid `{Protocol.Imports} (self : RaidenProtocol) receiver message
    future self1 :
  send_async self receiver message = Ok (future, self1) ->
  isaddress receiver = true
  /\ is_ack message || is_ping message = false
  /\ (UDP_MAX_MESSAGE_SIZE <? String.length (encode message))%nat = false.
Proof.
  unfold send_async.
  destruct (isaddress receiver); [|done].
  destruct (is_ack message || is_ping message); [done|].
  destruct (UDP_MAX_MESSAGE_SIZE <? String.length (encode message))%nat; done.
Qed.

Lemma futures_allocated_insert `{Protocol.Imports} (self self1 : RaidenProtocol)
    echohash receiver :
  futures_allocated self ->
  senthashes_to_states self1
  = <[echohash := {| async_result := length (async_results self);
                     receiver_address := receiver |}]> (senthashes_to_states self) ->
  async_results self1 = async_results self ++ [None] ->
  futures_allocated self1.
Proof.
  intros Hself Hsent Hresults h waitack. rewrite Hsent, Hresults, length_app. cbn.
  destruct (decide (h = echohash)) as [->|Hne].
  - rewrite lookup_insert_eq. intros [= <-]. cbn. lia.
  - rewrite lookup_insert_ne by done. intros Hold%Hself. lia.
Qed.

Lemma send_async_futures `{Protocol.Imports} (self : RaidenProtocol) receiver message
    future self1 :
  futures_allocated self ->
  send_async self receiver message = Ok (future, self1) ->
  futures_allocated self1
  /\ (future < length (async_results self1))%nat
  /\ exists waitack,
       senthashes_to_states self1 !! sha3 (encode message +:+ receiver) = Some waitack
       /\ async_result waitack = future.
Proof.
  intros Hself Hsend.
  destruct (send_async_valid _ _ _ _ _ Hsend) as (Haddress & Hkind & Hsize).
  unfold send_async in Hsend. rewrite Haddress, Hkind, Hsize in Hsend. cbn in Hsend.
  destruct (senthashes_to_states self !! _) as [waitack|] eqn:Hlookup.
  - injection Hsend as <- <-. split; [done|]. split; [by eapply Hself|eauto].
  - destruct (get_channel_queue _ _ _) as [queue self2] eqn:Hqueue.
    injection Hsend as <- <-.
    match type of Hqueue with get_channel_queue ?s ?r ?t = _ =>
      pose proof (get_channel_queue_sent s r t) as [Hsent Hresults] end.
    rewrite Hqueue in Hsent, Hresults. cbn in Hsent, Hresults.
    split; [|split].
    + eapply futures_allocated_insert; [exact Hself|exact Hsent|exact Hresults].
    + cbn. rewrite Hresults, length_app. cbn. lia.
    + cbn. rewrite Hsent, lookup_insert_eq. eauto.
Qed.

Lemma send_raw_with_result_futures `{Protocol.Imports} (self : RaidenProtocol)
    data receiver future self1 :
  futures_allocated self ->
  send_raw_with_result self data receiver = Ok (future, self1) ->
  futures_allocated self1
  /\ (future < length (async_results self1))%nat
  /\ exists waitack,
       senthashes_to_states self1 !! sha3 (data +:+ receiver) = Some waitack
       /\ async_result waitack = future.
Proof.
  intros Hself. unfold send_raw_with_result.
  destruct (get_host_port self receiver) as [host_port|]; [|done]. cbn.
  destruct (senthashes_to_states self !! _) as [waitack|] eqn:Hlookup.
  - assert (futures_allocated self
            /\ (async_result waitack < length (async_results self))%nat
            /\ exists waitack1,
                 senthashes_to_states self !! sha3 (data +:+ receiver) = Some waitack1
                 /\ async_result waitack1 = async_result waitack) as Hkept.
    { split; [done|]. split; [by eapply Hself|eauto]. }
    repeat case_match; intros [= <- <-]; exact Hkept.
  - set (self0 := with_sent _ _ self).
    assert (futures_allocated self0
            /\ (length (async_results self) < length (async_results self0))%nat
            /\ exists waitack1,
                 senthashes_to_states self0 !! sha3 (data +:+ receiver) = Some waitack1
                 /\ async_result waitack1 = length (async_results self)) as Hnew.
    { split; [|split].
      - by eapply futures_allocated_insert.
      - cbn. rewrite length_app. cbn. lia.
      - cbn. rewrite lookup_insert_eq. eauto. }
    repeat case_match; intros [= <- <-]; exact Hnew.
Qed.

(** ** Acknowledgements *)

Lemma receive_ack `{Protocol.Imports} (self : RaidenProtocol) (ack_data : string)
    (a echo : string) (waitack : SentMessageState) :
  (String.length ack_data <= UDP_MAX_MESSAGE_SIZE)%nat ->
  decode ack_data = Ok (Ack a echo) ->
  receivedhashes_to_acks self !! sha3 (ack_data +:+ address self) = None ->
  senthashes_to_states self !! echo = Some waitack ->
  receive self ack_data
  = (with_sent (senthashes_to_states self)
       (<[async_result waitack := Some true]> (async_results self)) self, None).
Proof.
  intros Hsize Hdecode Hcache Hsent. unfold receive.
  assert ((UDP_MAX_MESSAGE_SIZE <? String.length ack_data)%nat = false) as ->
    by (apply Nat.ltb_ge; lia).
  by rewrite Hdecode, Hcache, Hsent.
Qed.

(** X23: an ack resolves the future of the message it echoes.  After
    [send_async] returned a future for a message, the receipt of an [Ack]
    whose echo is the echohash of that message for that receiver sets this
    future to [True] and leaves every other future as it is; the handler
    of the host is not called and nothing is sent in return. *)
Theorem ack_resolves_the_future `{Protocol.Imports} (self : RaidenProtocol)
    (receiver : string) (message : Message) (future : nat) (self1 : RaidenProtocol)
    (ack_data a : string) :
  futures_allocated self ->
  send_async self receiver message = Ok (future, self1) ->
  (String.length ack_data <= UDP_MAX_MESSAGE_SIZE)%nat ->
  decode ack_data = Ok (Ack a (sha3 (encode message +:+ receiver))) ->
  receivedhashes_to_acks self1 !! sha3 (ack_data +:+ address self1) = None ->
  exists self2,
    receive self1 ack_data = (self2, None)
    /\ async_results self2 !! future = Some (Some true)
    /\ (forall other, other <> future ->
          async_results self2 !! other = async_results self1 !! other)
    /\ effects self2 = effects self1
    /\ host self2 = host self1.
Proof.
  intros Hself Hsend Hsize Hdecode Hcache.
  destruct (send_async_futures _ _ _ _ _ Hself Hsend)
    as (_ & Hfuture & waitack & Hsent & <-).
  rewrite (receive_ack self1 ack_data a _ waitack Hsize Hdecode Hcache Hsent).
  eexists. split; [done|]. cbn. split; [|split; [|done]].
  - by apply list_lookup_insert_eq.
  - intros other Hother. by apply list_lookup_insert_ne.
Qed.

Lemma ack_resolves_the_future_witness :
  send_async (fresh (peer_at 4000)) peer hello = Ok (0%nat, hello_sent)
  /\ exists self2,
       receive hello_sent (wire_encode (Ack peer (wire_encode hello +:+ peer)))
       = (self2, None)
       /\ async_results self2 !! 0%nat = Some (Some true).
Proof.
  assert (Hfresh : futures_allocated (fresh (peer_at 4000))).
  { intros h waitack Hlookup. discriminate Hlookup. }
  assert (Hsend : send_async (fresh (peer_at 4000)) peer hello = Ok (0%nat, hello_sent))
    by reflexivity.
  split; [exact Hsend|].
  destruct (ack_resolves_the_future (fresh (peer_at 4000)) peer hello 0 hello_sent
              (wire_encode (Ack peer (wire_encode hello +:+ peer))) peer
              Hfresh Hsend)
    as (self2 & Hreceive & Hfuture & _).
  - apply Nat.leb_le. reflexivity.
  - reflexivity.
  - reflexivity.
  - exists self2. split; [exact Hreceive|exact Hfuture].
Defined.

(** X24: a message is sent again until it is acknowledged, and no longer.
    When discovery resolves the receiver, [send_raw_with_result] returns a
    future; while that future is not set, the call sends the data once, to
    the endpoint discovery gave; and once an [Ack] that echoes the data for
    that receiver has been received, a further call returns the same
    future, sends nothing and changes nothing. *)
Theorem resend_stops_at_the_ack `{Protocol.Imports} (self : RaidenProtocol)
    (data receiver : string) (host_port : string * Z) :
  futures_allocated self ->
  get_host_port self receiver = Ok host_port ->
  exists future self1,
    send_raw_with_result self data receiver = Ok (future, self1)
    /\ (async_results self1 !! future = Some None ->
        effects self1 = effects self ++ [TransportSend host_port data])
    /\ (forall ack_data a,
          (String.length ack_data <= UDP_MAX_MESSAGE_SIZE)%nat ->
          decode ack_data = Ok (Ack a (sha3 (data +:+ receiver))) ->
          receivedhashes_to_acks self1 !! sha3 (ack_data +:+ address self1) = None ->
          send_raw_with_result (receive self1 ack_data).1 data receiver
          = Ok (future, (receive self1 ack_data).1)).
Proof.
  intros Hself Hport.
  destruct (send_raw_with_result self data receiver) as [[future self1]|] eqn:Hsend;
    cycle 1.
  { unfold send_raw_with_result in Hsend. rewrite Hport in Hsend. cbn in Hsend.
    destruct (senthashes_to_states self !! _); repeat case_match; done. }
  exists future, self1. split; [done|].
  destruct (send_raw_with_result_futures _ _ _ _ _ Hself Hsend)
    as (_ & Hfuture & waitack & Hsent & <-).
  split.
  - intros Hpending. unfold send_raw_with_result in Hsend.
    rewrite Hport in Hsend. cbn in Hsend.
    destruct (senthashes_to_states self !! _) as [waitack0|] eqn:Hlookup.
    + destruct (async_results self !! async_result waitack0) as [[b|]|] eqn:Hvalue;
        injection Hsend as Heq <-; [|done|done].
      rewrite <-Heq, Hvalue in Hpending. done.
    + cbn in Hsend. rewrite lookup_app_r in Hsend by done.
      rewrite Nat.sub_diag in Hsend. cbn in Hsend. by injection Hsend as _ <-.
  - intros ack_data a Hsize Hdecode Hcache.
    rewrite (receive_ack self1 ack_data a _ waitack Hsize Hdecode Hcache Hsent).
    cbn [fst]. unfold send_raw_with_result.
    assert (get_host_port (with_sent (senthashes_to_states self1)
                             (<[async_result waitack := Some true]>
                                (async_results self1)) self1) receiver
            = Ok host_port) as ->.
    { unfold send_raw_with_result in Hsend. rewrite Hport in Hsend. cbn in Hsend.
      assert (host_ports self1 = host_ports self) as Hports.
      { destruct (senthashes_to_states self !! _); repeat case_match;
          by injection Hsend as _ <-. }
      unfold get_host_port in *. cbn. by rewrite Hports. }
    cbn. rewrite Hsent. cbn. by rewrite list_lookup_insert_eq.
Qed.

Lemma resend_stops_at_the_ack_witness :
  exists future self1,
    send_raw_with_result (fresh (peer_at 4000)) (wire_encode hello) peer
    = Ok (future, self1)
    /\ send_raw_with_result
         (receive self1 (wire_encode (Ack peer (wire_encode hello +:+ peer)))).1
         (wire_encode hello) peer
       = Ok (future,
             (receive self1 (wire_encode (Ack peer (wire_encode hello +:+ peer)))).1).
Proof.
  assert (Hfresh : futures_allocated (fresh (peer_at 4000))).
  { intros h waitack Hlookup. discriminate Hlookup. }
  destruct (resend_stops_at_the_ack (fresh (peer_at 4000)) (wire_encode hello) peer
              ("10.0.0.1", 4000) Hfresh eq_refl)
    as (future & self1 & Hsend & _ & Hack).
  exists future, self1. split; [exact Hsend|].
  apply (Hack _ peer).
  - apply Nat.leb_le. reflexivity.
  - reflexivity.
  - injection Hsend as _ <-. reflexivity.
Defined.

(** ** Tasks and queues *)

Lemma get_channel_queue_new `{Protocol.Imports} (self : RaidenProtocol)
    (receiver token : string) :
  channel_queue self !! (receiver, token) = None ->
  let self1 := (get_channel_queue self receiver token).2 in
  (get_channel_queue self receiver token).1 = (receiver, token)
  /\ channel_queue self1 = <[(receiver, token) := []]> (channel_queue self)
  /\ greenlets self1
     = greenlets self
       ++ match addresses_events self !! receiver with
          | Some _ => []
          | None => [healthcheck receiver]
          end
       ++ [single_queue_send receiver token]
  /\ addresses_events self1
     = match addresses_events self !! receiver with
       | Some _ => addresses_events self
       | None => <[receiver := (false, false)]> (addresses_events self)
       end.
Proof.
  intros Hnew. unfold get_channel_queue. rewrite Hnew.
  unfold get_health_events, start_health_check. cbn.
  destruct (addresses_events self !! receiver) eqn:Hevents; cbn; [done|].
  by rewrite <-app_assoc.
Qed.

Lemma get_channel_queue_tasks `{Protocol.Imports} (self : RaidenProtocol)
    (receiver token : string) :
  tasks_match self -> tasks_match (get_channel_queue self receiver token).2.
Proof.
  intros (Hnodup & Hhealth & Hqueues & Hcovered).
  destruct (channel_queue self !! (receiver, token)) as [queue|] eqn:Hqueue.
  { unfold get_channel_queue. rewrite Hqueue. done. }
  destruct (get_channel_queue_new self receiver token Hqueue)
    as (_ & Hq & Hg & He).
  unfold tasks_match. rewrite Hq, Hg, He. clear Hq Hg He.
  assert (single_queue_send receiver token ∉ greenlets self) as Hfresh.
  { rewrite Hqueues, Hqueue. by intros []. }
  assert (forall r t, is_Some (<[(receiver, token) := []]> (channel_queue self) !! (r, t))
                      <-> is_Some (channel_queue self !! (r, t))
                          \/ (r, t) = (receiver, token)) as Hinserted.
  { intros r t. rewrite lookup_insert_is_Some. split.
    - intros [<-|[_ ?]]; auto.
    - intros [?|<-]; [|auto].
      destruct (decide ((receiver, token) = (r, t))); auto. }
  destruct (addresses_events self !! receiver) as [events|] eqn:Hevents.
  - cbn. split; [|split; [|split]].
    + apply NoDup_app. split; [done|]. split; [|apply NoDup_singleton].
      intros g Hg Hg1. apply list_elem_of_singleton in Hg1. by subst g.
    + intros r. rewrite elem_of_app, list_elem_of_singleton, Hhealth.
      split; [intros [?|?]; done|auto].
    + intros r t. rewrite elem_of_app, list_elem_of_singleton, Hqueues, Hinserted.
      split; (intros [?|Heq]; [auto|right; congruence]).
    + intros r t. rewrite Hinserted. intros [Hold|[= -> ->]]; [by eapply Hcovered|].
      by rewrite Hevents.
  - assert (healthcheck receiver ∉ greenlets self) as Hfresh1.
    { rewrite Hhealth, Hevents. by intros []. }
    assert (forall r, is_Some (<[receiver := (false, false)]> (addresses_events self) !! r)
                      <-> is_Some (addresses_events self !! r) \/ r = receiver)
      as Hstarted.
    { intros r. rewrite lookup_insert_is_Some. split.
      - intros [<-|[_ ?]]; auto.
      - intros [?|<-]; [|auto]. destruct (decide (receiver = r)); auto. }
    cbn. split; [|split; [|split]].
    + apply NoDup_app. split; [done|]. split.
      * intros g Hg Hg1. apply elem_of_cons in Hg1 as [-> |Hg1]; [done|].
        apply list_elem_of_singleton in Hg1. by subst g.
      * apply NoDup_cons. split; [|apply NoDup_singleton].
        intros Hin. by apply list_elem_of_singleton in Hin.
    + intros r. rewrite elem_of_app, elem_of_cons, list_elem_of_singleton, Hhealth,
        Hstarted.
      split.
      * intros [?|[Heq|?]]; [auto|right; congruence|done].
      * intros [?| ->]; auto.
    + intros r t.
      rewrite elem_of_app, elem_of_cons, list_elem_of_singleton, Hqueues, Hinserted.
      split.
      * intros [?|[?|Heq]]; [auto|done|right; congruence].
      * intros [?|Heq]; [auto|right; right; congruence].
    + intros r t. rewrite Hinserted, Hstarted.
      intros [Hold|[= -> ->]]; [left; by eapply Hcovered|by right].
Qed.

(** X25: [send_async] starts no task twice.  If the tasks are a health
    check for each address with health events and a sending task for each
    queue, each once, and every queue's receiver has health events, this
    still holds after [send_async]. *)
Theorem one_task_per_queue `{Protocol.Imports} (self : RaidenProtocol)
    (receiver : string) (message : Message) (future : nat) (self1 : RaidenProtocol) :
  tasks_match self ->
  send_async self receiver message = Ok (future, self1) ->
  tasks_match self1.
Proof.
  intros Htasks Hsend.
  destruct (send_async_valid _ _ _ _ _ Hsend) as (Haddress & Hkind & Hsize).
  unfold send_async in Hsend. rewrite Haddress, Hkind, Hsize in Hsend. cbn in Hsend.
  destruct (senthashes_to_states self !! _) as [waitack|].
  { by injection Hsend as _ <-. }
  match type of Hsend with context [get_channel_queue ?s ?r ?t] =>
    pose proof (get_channel_queue_tasks s r t Htasks) as Hqueue end.
  destruct (get_channel_queue _ _ _) as [queue self2]. injection Hsend as _ <-.
  destruct Hqueue as (Hnodup & Hhealth & Hqueues & Hcovered).
  unfold tasks_match, queue_put. cbn.
  split; [done|]. split; [done|]. split.
  - intros r t. by rewrite Hqueues, lookup_alter_is_Some.
  - intros r t. rewrite lookup_alter_is_Some. apply Hcovered.
Qed.

Lemma one_task_per_queue_witness :
  tasks_match (fresh (peer_at 4000))
  /\ send_async (fresh (peer_at 4000)) peer hello = Ok (0%nat, hello_sent)
  /\ tasks_match hello_sent.
Proof.
  assert (Hfresh : tasks_match (fresh (peer_at 4000))).
  { split; [apply NoDup_nil_2|]. split; [|split].
    - intros r. split; [intros Hin; by apply elem_of_nil in Hin|intros [e He]; done].
    - intros r t. split; [intros Hin; by apply elem_of_nil in Hin|intros [e He]; done].
    - intros r t [e He]. done. }
  assert (Hsend : send_async (fresh (peer_at 4000)) peer hello = Ok (0%nat, hello_sent))
    by reflexivity.
  split; [exact Hfresh|]. split; [exact Hsend|].
  exact (one_task_per_queue (fresh (peer_at 4000)) peer hello 0%nat hello_sent
           Hfresh Hsend).
Defined.

(** X26: what [send_async] accepts and where it puts it.  It raises
    [ValueError] for a receiver that is not an address, for an [Ack] or a
    [Ping], and for a message whose encoding is longer than
    [UDP_MAX_MESSAGE_SIZE].  Otherwise, for a message not sent before, it
    creates a future, appends the encoded message at the end of the queue
    of the receiver and the token of the message, creating the queue if
    there is none, leaves the other queues as they are, and sends nothing
    itself. *)
Theorem send_async_enqueues `{Protocol.Imports} (self : RaidenProtocol)
    (receiver : string) (message : Message) :
  (isaddress receiver = false
   \/ is_ack message || is_ping message = true
   \/ (UDP_MAX_MESSAGE_SIZE < String.length (encode message))%nat ->
   send_async self receiver message = Raise ValueError)
  /\ (isaddress receiver = true ->
      is_ack message || is_ping message = false ->
      (String.length (encode message) <= UDP_MAX_MESSAGE_SIZE)%nat ->
      senthashes_to_states self !! sha3 (encode message +:+ receiver) = None ->
      exists self1,
        send_async self receiver message = Ok (length (async_results self), self1)
        /\ channel_queue self1 !! (receiver, message_token message)
           = Some (default [] (channel_queue self !! (receiver, message_token message))
                   ++ [encode message])
        /\ (forall key, key <> (receiver, message_token message) ->
              channel_queue self1 !! key = channel_queue self !! key)
        /\ async_results self1 = async_results self ++ [None]
        /\ effects self1 = effects self).
Proof.
  unfold send_async. split.
  - intros [-> |[Hkind|Hsize]]; [done| |].
    + destruct (isaddress receiver); [|done]. cbn [negb]. by rewrite Hkind.
    + destruct (isaddress receiver); [|done]. cbn [negb].
      destruct (is_ack message || is_ping message); [done|].
      by rewrite (proj2 (Nat.ltb_lt _ _) Hsize).
  - intros -> -> Hsize ->. cbn [negb].
    rewrite (proj2 (Nat.ltb_ge _ _) Hsize).
    set (self0 := with_sent _ _ self).
    destruct (channel_queue self !! (receiver, message_token message))
      as [queue|] eqn:Hqueue.
    + unfold get_channel_queue. cbn. rewrite Hqueue. eexists. split; [done|]. cbn.
      split; [by rewrite lookup_alter_eq, Hqueue|]. split; [|done].
      intros key Hkey. by rewrite lookup_alter_ne.
    + destruct (get_channel_queue_new self0 receiver (message_token message) Hqueue)
        as (Hkey & Hq & _).
      pose proof (get_channel_queue_sent self0 receiver (message_token message))
        as [_ Hresults].
      assert (effects (get_channel_queue self0 receiver (message_token message)).2
              = effects self) as Heffects.
      { unfold get_channel_queue, get_health_events, start_health_check.
        repeat (case_match; cbn); done. }
      destruct (get_channel_queue _ _ _) as [key self2]. cbn in *. subst key.
      eexists. split; [done|]. cbn. rewrite Hq.
      split; [by rewrite lookup_alter_eq, lookup_insert_eq|]. split; [|done].
      intros key Hkey. by rewrite lookup_alter_ne, lookup_insert_ne.
Qed.

Lemma send_async_enqueues_witness :
  send_async (fresh (peer_at 4000)) peer (Ack us "echo") = Raise ValueError
  /\ exists self1,
       send_async (fresh (peer_at 4000)) peer hello = Ok (0%nat, self1)
       /\ channel_queue self1 !! (peer, ""%string) = Some [wire_encode hello].
Proof.
  split.
  - apply (proj1 (send_async_enqueues (fresh (peer_at 4000)) peer (Ack us "echo"))).
    right. left. reflexivity.
  - destruct (proj2 (send_async_enqueues (fresh (peer_at 4000)) peer hello))
      as (self1 & Hsend & Hqueue & _).
    + reflexivity.
    + reflexivity.
    + apply Nat.leb_le. reflexivity.
    + reflexivity.
    + exists self1. split; [exact Hsend|exact Hqueue].
Defined.
